(** * REBOUNDx core (core.c): parameter stores, effect registry, dispatch

    A shallow embedding of [core.c] over an explicit C heap.  Pointers are
    integers ([Z], [NULL = 0]); every struct lives in one cell of a finite
    map from addresses to cells; [malloc] and [free] grow and shrink that
    map.  A C function becomes a function from the state to a [result],
    which is either a normal return, a call to [exit], an undefined
    behaviour of C (null dereference, access outside an array, ...), or a
    walk that never ends. *)

From Stdlib Require Import ZArith String Ascii.
From stdpp Require Import gmap strings list.

Local Open Scope Z_scope.

(** ** Data model *)

Abbreviation NULL := 0%Z (only parsing).

(** Function pointers stored in callback slots. *)
Inductive fnptr :=
| fn_NULL
| fn_rebx_forces
| fn_rebx_post_timestep_modifications
| fn_custom (id : Z).

#[global] Instance fnptr_eq_dec : EqDecision fnptr.
Proof. solve_decision. Defined.

Inductive rebx_object_type := REBX_TYPE_EFFECT | REBX_TYPE_PARTICLE.

(** Modelled from the spec: [enum rebx_param_type] is declared in a header
    that is not among the sources; the spec gives the value kinds
    real-number and integer, the two cases of the switch in
    [rebx_add_param_]. *)
Inductive rebx_param_type := REBX_TYPE_DOUBLE | REBX_TYPE_INT.

(** Elements of backing storage: an [int], or a [double] given by its bits. *)
Inductive value := VInt (i : Z) | VDouble (bits : Z).

Record rebx_param := mk_param {
  p_hash : Z;
  p_param_type : rebx_param_type;
  p_ndim : Z;
  p_shape : Z;
  p_size : Z;
  p_contents : Z;
  p_next : Z
}.

(** [e_pad_ap] is the word of the effect that its [reb_particle] view
    reads as [ap] when that word is not the effect's own [ap] field. *)
Record rebx_effect := mk_effect {
  e_hash : Z;
  e_ap : Z;
  e_force : fnptr;
  e_ptm : fnptr;
  e_rebx : Z;
  e_next : Z;
  e_pad_ap : Z
}.

Record reb_particle := mk_particle {
  pt_ap : Z;
  pt_sim : Z
}.

Record rebx_param_to_be_freed := mk_to_be_freed {
  tbf_param : Z;
  tbf_next : Z
}.

Record rebx_extras := mk_extras {
  x_sim : Z;
  x_effects : Z;
  x_params_to_be_freed : Z
}.

Record reb_simulation := mk_sim {
  additional_forces : fnptr;
  post_timestep_modifications : fnptr;
  force_is_velocity_dependent : Z;
  sim_extras : Z
}.

(** Argument of [malloc]. The sizes of the structs come from the missing
    headers and are kept symbolic. *)
Inductive csize :=
| sizeof_extras
| sizeof_effect
| sizeof_param
| sizeof_param_to_be_freed
| bytes (n : Z).

Inductive cell :=
| CBlock (sz : csize) (data : list value)
| CParam (n : rebx_param)
| CEffect (e : rebx_effect)
| CParticle (p : reb_particle)
| CToBeFreed (t : rebx_param_to_be_freed)
| CExtras (x : rebx_extras)
| CSim (r : reb_simulation).

Inductive severity := Warning | Error.

Record state := mk_state {
  heap : gmap Z cell;
  oracle : list Z;
  messages : list (Z * severity * string);
  stderr : list string;
  trace : list Z
}.

(** Which word of an effect the [ap] of its [reb_particle] view names: the
    effect's own [ap] field, or a word of its padding.  The struct
    declarations are not among the sources, so both layouts are kept. *)
Inductive effect_layout :=
| ApShared
| ApPadded.

Inductive undefined :=
| NullDeref
| Dangling (a : Z)
| WrongType (a : Z)
| OutOfBounds (i : Z)
| BadFree (a : Z).

Inductive result (A : Type) :=
| Done (a : A) (s : state)
| Exit (status : Z) (s : state)
| Undefined (u : undefined)
| Loops.
Arguments Done {A} a s.
Arguments Exit {A} status s.
Arguments Undefined {A} u.
Arguments Loops {A}.

Definition M (A : Type) : Type := state → result A.

#[global] Instance M_ret : MRet M := λ A a s, Done a s.
#[global] Instance M_bind : MBind M := λ A B f m s,
  match m s with
  | Done a s' => f a s'
  | Exit c s' => Exit c s'
  | Undefined u => Undefined u
  | Loops => Loops
  end.

Definition fail {A} (u : undefined) : M A := λ _, Undefined u.
Definition exit {A} (status : Z) : M A := λ s, Exit status s.
Definition loops {A} : M A := λ _, Loops.
Definition get_heap : M (gmap Z cell) := λ s, Done (heap s) s.

Definition set_heap (h : gmap Z cell) (s : state) : state :=
  mk_state h (oracle s) (messages s) (stderr s) (trace s).
Definition set_oracle (o : list Z) (s : state) : state :=
  mk_state (heap s) o (messages s) (stderr s) (trace s).
Definition set_messages (m : list (Z * severity * string)) (s : state) : state :=
  mk_state (heap s) (oracle s) m (stderr s) (trace s).
Definition set_stderr (e : list string) (s : state) : state :=
  mk_state (heap s) (oracle s) (messages s) e (trace s).
Definition set_trace (t : list Z) (s : state) : state :=
  mk_state (heap s) (oracle s) (messages s) (stderr s) t.

(** The state after a store of [c] at [a]. *)
Definition written (a : Z) (c : cell) (s : state) : state :=
  set_heap (<[a := c]> (heap s)) s.

Definition put_cell (a : Z) (c : cell) : M () :=
  λ s, Done () (written a c s).

(** The state after [malloc] has returned [a]. *)
Definition allocated (a : Z) (sz : csize) (s : state) : state :=
  if decide (a = NULL) then s else written a (CBlock sz []) s.

(** Dereference of [a]: the cell it points to. *)
Definition deref (a : Z) : M cell := λ s,
  if decide (a = NULL) then Undefined NullDeref
  else match heap s !! a with
       | Some c => Done c s
       | None => Undefined (Dangling a)
       end.

(** ** malloc and free *)

(** [oracle] lists the addresses the allocator is about to hand out, [NULL]
    for a failed allocation; an address that is still allocated is passed
    over, and an exhausted list is a failed allocation. *)
Fixpoint pick (h : gmap Z cell) (o : list Z) : Z * list Z :=
  match o with
  | [] => (NULL, [])
  | a :: o' =>
      if decide (a = NULL) then (NULL, o')
      else match h !! a with
           | Some _ => pick h o'
           | None => (a, o')
           end
  end.

Definition malloc (sz : csize) : M Z := λ s,
  let '(a, o') := pick (heap s) (oracle s) in
  Done a (set_oracle o' (allocated a sz s)).

Definition free (a : Z) : M () := λ s,
  if decide (a = NULL) then Done () s
  else match heap s !! a with
       | Some _ => Done () (set_heap (delete a (heap s)) s)
       | None => Undefined (BadFree a)
       end.

(** ** Typed access to the structs *)

Definition param0 : rebx_param := mk_param 0 REBX_TYPE_DOUBLE 0 NULL 0 NULL NULL.
Definition effect0 : rebx_effect := mk_effect 0 NULL fn_NULL fn_NULL NULL NULL NULL.
Definition to_be_freed0 : rebx_param_to_be_freed := mk_to_be_freed NULL NULL.
Definition extras0 : rebx_extras := mk_extras NULL NULL NULL.

Definition load_param (a : Z) : M rebx_param :=
  c ← deref a;
  match c with CParam n => mret n | _ => fail (WrongType a) end.

Definition load_effect (a : Z) : M rebx_effect :=
  c ← deref a;
  match c with CEffect e => mret e | _ => fail (WrongType a) end.

Definition load_particle (a : Z) : M reb_particle :=
  c ← deref a;
  match c with CParticle p => mret p | _ => fail (WrongType a) end.

Definition load_to_be_freed (a : Z) : M rebx_param_to_be_freed :=
  c ← deref a;
  match c with CToBeFreed t => mret t | _ => fail (WrongType a) end.

Definition load_extras (a : Z) : M rebx_extras :=
  c ← deref a;
  match c with CExtras x => mret x | _ => fail (WrongType a) end.

Definition load_sim (a : Z) : M reb_simulation :=
  c ← deref a;
  match c with CSim r => mret r | _ => fail (WrongType a) end.

(** A field assignment [a->f = v]: on memory fresh from [malloc] the other
    fields start from zero. *)
Definition upd_param (a : Z) (f : rebx_param → rebx_param) : M () :=
  c ← deref a;
  match c with
  | CParam n => put_cell a (CParam (f n))
  | CBlock sizeof_param _ => put_cell a (CParam (f param0))
  | _ => fail (WrongType a)
  end.

Definition upd_effect (a : Z) (f : rebx_effect → rebx_effect) : M () :=
  c ← deref a;
  match c with
  | CEffect e => put_cell a (CEffect (f e))
  | CBlock sizeof_effect _ => put_cell a (CEffect (f effect0))
  | _ => fail (WrongType a)
  end.

Definition upd_to_be_freed (a : Z)
    (f : rebx_param_to_be_freed → rebx_param_to_be_freed) : M () :=
  c ← deref a;
  match c with
  | CToBeFreed t => put_cell a (CToBeFreed (f t))
  | CBlock sizeof_param_to_be_freed _ => put_cell a (CToBeFreed (f to_be_freed0))
  | _ => fail (WrongType a)
  end.

Definition upd_extras (a : Z) (f : rebx_extras → rebx_extras) : M () :=
  c ← deref a;
  match c with
  | CExtras x => put_cell a (CExtras (f x))
  | CBlock sizeof_extras _ => put_cell a (CExtras (f extras0))
  | _ => fail (WrongType a)
  end.

Definition upd_sim (a : Z) (f : reb_simulation → reb_simulation) : M () :=
  c ← deref a;
  match c with
  | CSim r => put_cell a (CSim (f r))
  | _ => fail (WrongType a)
  end.

Definition set_p_hash v n := mk_param v (p_param_type n) (p_ndim n) (p_shape n) (p_size n) (p_contents n) (p_next n).
Definition set_p_param_type v n := mk_param (p_hash n) v (p_ndim n) (p_shape n) (p_size n) (p_contents n) (p_next n).
Definition set_p_ndim v n := mk_param (p_hash n) (p_param_type n) v (p_shape n) (p_size n) (p_contents n) (p_next n).
Definition set_p_shape v n := mk_param (p_hash n) (p_param_type n) (p_ndim n) v (p_size n) (p_contents n) (p_next n).
Definition set_p_size v n := mk_param (p_hash n) (p_param_type n) (p_ndim n) (p_shape n) v (p_contents n) (p_next n).
Definition set_p_contents v n := mk_param (p_hash n) (p_param_type n) (p_ndim n) (p_shape n) (p_size n) v (p_next n).
Definition set_p_next v n := mk_param (p_hash n) (p_param_type n) (p_ndim n) (p_shape n) (p_size n) (p_contents n) v.

Definition set_e_hash v e := mk_effect v (e_ap e) (e_force e) (e_ptm e) (e_rebx e) (e_next e) (e_pad_ap e).
Definition set_e_ap v e := mk_effect (e_hash e) v (e_force e) (e_ptm e) (e_rebx e) (e_next e) (e_pad_ap e).
Definition set_e_force v e := mk_effect (e_hash e) (e_ap e) v (e_ptm e) (e_rebx e) (e_next e) (e_pad_ap e).
Definition set_e_ptm v e := mk_effect (e_hash e) (e_ap e) (e_force e) v (e_rebx e) (e_next e) (e_pad_ap e).
Definition set_e_rebx v e := mk_effect (e_hash e) (e_ap e) (e_force e) (e_ptm e) v (e_next e) (e_pad_ap e).
Definition set_e_next v e := mk_effect (e_hash e) (e_ap e) (e_force e) (e_ptm e) (e_rebx e) v (e_pad_ap e).
Definition set_e_pad_ap v e := mk_effect (e_hash e) (e_ap e) (e_force e) (e_ptm e) (e_rebx e) (e_next e) v.

Definition set_pt_ap v p := mk_particle v (pt_sim p).

Definition set_tbf_param v t := mk_to_be_freed v (tbf_next t).
Definition set_tbf_next v t := mk_to_be_freed (tbf_param t) v.

Definition set_x_sim v x := mk_extras v (x_effects x) (x_params_to_be_freed x).
Definition set_x_effects v x := mk_extras (x_sim x) v (x_params_to_be_freed x).
Definition set_x_params_to_be_freed v x := mk_extras (x_sim x) (x_effects x) v.

Definition set_additional_forces v r :=
  mk_sim v (post_timestep_modifications r) (force_is_velocity_dependent r) (sim_extras r).
Definition set_post_timestep_modifications v r :=
  mk_sim (additional_forces r) v (force_is_velocity_dependent r) (sim_extras r).
Definition set_force_is_velocity_dependent v r :=
  mk_sim (additional_forces r) (post_timestep_modifications r) v (sim_extras r).
Definition set_sim_extras v r :=
  mk_sim (additional_forces r) (post_timestep_modifications r) (force_is_velocity_dependent r) v.

(** ** Machine integers *)

(** [int] is 32 bits wide and wraps around; [size_t] is 64 bits wide. *)
Definition wrap_int (z : Z) : Z := (z + 2 ^ 31) mod 2 ^ 32 - 2 ^ 31.
Definition to_size_t (z : Z) : Z := z mod 2 ^ 64.
Definition in_int (z : Z) : Prop := - 2 ^ 31 ≤ z < 2 ^ 31.
Definition sizeof_int : Z := 4.
Definition sizeof_double : Z := 8.
Definition INT_MAX : Z := 2 ^ 31 - 1.

Definition element_size (t : rebx_param_type) : Z :=
  match t with
  | REBX_TYPE_DOUBLE => sizeof_double
  | REBX_TYPE_INT => sizeof_int
  end.

(** ** Host functions *)

(** Modelled from the spec: [reb_error] and [reb_warning] belong to the host
    engine (rebound.h is not among the sources); they are the host's
    non-fatal diagnostic channel, which records the message for the
    simulation and returns. *)
Definition reb_error (sim : Z) (msg : string) : M () := λ s,
  Done () (set_messages (messages s ++ [(sim, Error, msg)]) s).
Definition reb_warning (sim : Z) (msg : string) : M () := λ s,
  Done () (set_messages (messages s ++ [(sim, Warning, msg)]) s).

Definition newline : string := String (Ascii.ascii_of_nat 10) EmptyString.

(** [sprintf(str, ...)] into [char str[size]]: the formatted text and its
    terminating NUL have to fit; a longer text is written past the end of
    the array. *)
Definition sprintf (size : nat) (text : string) : M string :=
  if decide (String.length text < size)%nat then mret text
  else fail (OutOfBounds (Z.of_nat size)).

Definition fprintf_stderr (msg : string) : M () := λ s,
  Done () (set_stderr (stderr s ++ [msg]) s).

(** The shared trace is memory of the caller that its callbacks write. *)
Definition push_trace (id : Z) : M () := λ s,
  Done () (set_trace (trace s ++ [id]) s).

(** A callback that appends the identity of its effect to the shared
    trace. *)
Definition append_identity (effect : Z) : M () :=
  e ← load_effect effect;
  push_trace (e_hash e).

(** Observation of the state and of a result, for the statements. *)
Definition observe {A} (f : state → A) : M A := λ s, Done (f s) s.

Definition result_value {A} (r : result A) : option A :=
  match r with
  | Done a _ => Some a
  | _ => None
  end.

(** The state in which [m] leaves [s] when it returns. *)
Definition state_after {A} (m : M A) (s : state) : state :=
  match m s with
  | Done _ s' => s'
  | _ => s
  end.

(** ** What the caller does with a storage handle *)

Definition value_size (v : value) : Z :=
  match v with
  | VInt _ => sizeof_int
  | VDouble _ => sizeof_double
  end.

Definition values_size (vs : list value) : Z :=
  foldr (λ v n, value_size v + n) 0 vs.

(** [ptr[0] = v0; ptr[1] = v1; ...] on storage handed out by an adder. *)
Definition write_values (ptr : Z) (vs : list value) : M () :=
  c ← deref ptr;
  match c with
  | CBlock (bytes n) _ =>
      if decide (values_size vs ≤ n) then put_cell ptr (CBlock (bytes n) vs)
      else fail (OutOfBounds (values_size vs))
  | _ => fail (WrongType ptr)
  end.

Definition read_values (ptr : Z) : M (list value) :=
  c ← deref ptr;
  match c with
  | CBlock (bytes _) vs => mret vs
  | _ => fail (WrongType ptr)
  end.

(** ** Concrete setting of the examples *)

Module Example.

(** Stand-ins for the host hash and the enumerators. *)
Definition hash (name : string) : Z :=
  foldr (λ c h, (Z.of_nat (Ascii.nat_of_ascii c) + 31 * h) mod 2 ^ 32) 7 (list_ascii_of_string name).
Definition EFFECT : Z := INT_MAX - 2.
Definition PARTICLE : Z := INT_MAX - 1.

Definition tracer : fnptr → Z → Z → M () := λ _ _ effect, append_identity effect.

(** A simulation at 100 with one particle at 200; the allocator hands
    out 1000, 1001, ... *)
Definition initial : state :=
  mk_state
    (<[100 := CSim (mk_sim fn_NULL fn_NULL 0 NULL)]>
      (<[200 := CParticle (mk_particle NULL 100)]> ∅))
    (seqZ 1000 40) [] [] [].

End Example.

(** ** core.c *)

Section Core.

(** [reb_hash] is the host's string hash; the enumerators of
    [enum rebx_object_type] and the layout of [struct rebx_effect] come
    from headers that are not among the sources.  A pointer is modelled
    by its numeric value, and an enumerator cast to a pointer keeps its
    value. *)
Context (reb_hash : string → Z).
Context (enum_EFFECT enum_PARTICLE : Z).
Context (layout : effect_layout).

(** Code behind the custom function pointers: [call f sim effect]. *)
Context (call : fnptr → Z → Z → M ()).

Definition enum_value (t : rebx_object_type) : Z :=
  match t with
  | REBX_TYPE_EFFECT => enum_EFFECT
  | REBX_TYPE_PARTICLE => enum_PARTICLE
  end.

(** [((struct reb_particle* )object)->ap], read and written; [effect_view_ap]
    is the word it names when the object is an effect. *)
Definition effect_view_ap (e : rebx_effect) : Z :=
  match layout with
  | ApShared => e_ap e
  | ApPadded => e_pad_ap e
  end.

Definition set_effect_view_ap (v : Z) (e : rebx_effect) : rebx_effect :=
  match layout with
  | ApShared => set_e_ap v e
  | ApPadded => set_e_pad_ap v e
  end.

Definition load_particle_ap (object : Z) : M Z :=
  c ← deref object;
  match c with
  | CParticle p => mret (pt_ap p)
  | CEffect e => mret (effect_view_ap e)
  | _ => fail (WrongType object)
  end.

Definition store_particle_ap (object : Z) (v : Z) : M () :=
  c ← deref object;
  match c with
  | CParticle p => put_cell object (CParticle (set_pt_ap v p))
  | CEffect e => put_cell object (CEffect (set_effect_view_ap v e))
  | _ => fail (WrongType object)
  end.

(** *** Initialization routines *)

Definition already_set : string :=
  "sim->additional_forces or sim->post_timestep_modifications was already set.  " +:+
  "If you want to use REBOUNDx, you should add custom effects through REBOUNDx also.  " +:+
  "See http://reboundx.readthedocs.org/en/latest/c_examples.html" +:+
  "#adding-custom-post-timestep-modifications-and-forces for a tutorial.".

Definition rebx_initialize (sim rebx : Z) : M () :=
  upd_sim sim (set_sim_extras rebx);;
  upd_extras rebx (set_x_sim sim);;
  r ← load_sim sim;
  (if decide (additional_forces r ≠ fn_NULL ∨ post_timestep_modifications r ≠ fn_NULL)
   then reb_warning sim already_set
   else mret ());;
  upd_sim sim (set_additional_forces fn_rebx_forces);;
  upd_sim sim (set_post_timestep_modifications fn_rebx_post_timestep_modifications);;
  upd_extras rebx (set_x_params_to_be_freed NULL);;
  upd_extras rebx (set_x_effects NULL).

Definition rebx_init (sim : Z) : M Z :=
  rebx ← malloc sizeof_extras;
  rebx_initialize sim rebx;;
  mret rebx.

(** *** Garbage collection routines *)

Definition rebx_remove_from_simulation (sim : Z) : M () :=
  upd_sim sim (set_additional_forces fn_NULL);;
  upd_sim sim (set_post_timestep_modifications fn_NULL).

Fixpoint rebx_free_params_loop (fuel : nat) (current : Z) : M () :=
  if decide (current = NULL) then mret ()
  else match fuel with
       | O => loops
       | S fuel' =>
           t ← load_to_be_freed current;
           let temp_next := tbf_next t in
           n ← load_param (tbf_param t);
           free (p_contents n);;
           free (tbf_param t);;
           free current;;
           rebx_free_params_loop fuel' temp_next
       end.

(** A walk over a list threaded through the heap is given as many steps
    as the heap has cells, plus one: a longer walk has met a cell twice
    and the C loop would not leave that cycle. *)
Definition walk_bound (s : state) : nat := S (size (heap s)).
Definition bounded {A} (f : nat → M A) : M A := λ s, f (walk_bound s) s.

Definition rebx_free_params (rebx : Z) : M () :=
  x ← load_extras rebx;
  bounded (λ fuel, rebx_free_params_loop fuel (x_params_to_be_freed x)).

Fixpoint rebx_free_effects_loop (fuel : nat) (current : Z) : M () :=
  if decide (current = NULL) then mret ()
  else match fuel with
       | O => loops
       | S fuel' =>
           e ← load_effect current;
           let temp_next := e_next e in
           free current;;
           rebx_free_effects_loop fuel' temp_next
       end.

Definition rebx_free_effects (rebx : Z) : M () :=
  x ← load_extras rebx;
  bounded (λ fuel, rebx_free_effects_loop fuel (x_effects x)).

Definition rebx_free (rebx : Z) : M () :=
  rebx_free_params rebx;;
  rebx_free_effects rebx;;
  free rebx.

(** *** Functions executing forces and ptm each timestep *)

(** The callbacks are arbitrary code and may change the registry while it
    is walked, so the number of steps is an argument here. *)
Fixpoint rebx_forces_loop (fuel : nat) (sim current : Z) : M () :=
  if decide (current = NULL) then mret ()
  else match fuel with
       | O => loops
       | S fuel' =>
           e ← load_effect current;
           (if decide (e_force e = fn_NULL) then mret ()
            else call (e_force e) sim current);;
           e' ← load_effect current;
           rebx_forces_loop fuel' sim (e_next e')
       end.

Definition rebx_forces (fuel : nat) (sim : Z) : M () :=
  r ← load_sim sim;
  let rebx := sim_extras r in
  x ← load_extras rebx;
  rebx_forces_loop fuel sim (x_effects x).

Fixpoint rebx_post_timestep_modifications_loop (fuel : nat) (sim current : Z) : M () :=
  if decide (current = NULL) then mret ()
  else match fuel with
       | O => loops
       | S fuel' =>
           e ← load_effect current;
           (if decide (e_ptm e = fn_NULL) then mret ()
            else call (e_ptm e) sim current);;
           e' ← load_effect current;
           rebx_post_timestep_modifications_loop fuel' sim (e_next e')
       end.

Definition rebx_post_timestep_modifications (fuel : nat) (sim : Z) : M () :=
  r ← load_sim sim;
  let rebx := sim_extras r in
  x ← load_extras rebx;
  rebx_post_timestep_modifications_loop fuel sim (x_effects x).

(** *** Adders for linked lists in extras structure *)

Definition rebx_add_effect (rebx : Z) (name : string) : M Z :=
  effect ← malloc sizeof_effect;
  upd_effect effect (set_e_hash (reb_hash name));;
  upd_effect effect (set_e_ap NULL);;
  upd_effect effect (set_e_force fn_NULL);;
  upd_effect effect (set_e_ptm fn_NULL);;
  upd_effect effect (set_e_rebx rebx);;
  x ← load_extras rebx;
  upd_effect effect (set_e_next (x_effects x));;
  upd_extras rebx (set_x_effects effect);;
  store_particle_ap effect enum_EFFECT;;
  mret effect.

(** The resolution of builtin names is commented out in the source: what
    is left is the registration and the read of [rebx->sim]. *)
Definition rebx_add (rebx : Z) (name : string) : M Z :=
  effect ← rebx_add_effect rebx name;
  x ← load_extras rebx;
  let sim := x_sim x in
  mret effect.

Definition rebx_add_custom_force (rebx : Z) (name : string)
    (custom_force : fnptr) (force_is_velocity_dependent : Z) : M Z :=
  effect ← rebx_add_effect rebx name;
  upd_effect effect (set_e_force custom_force);;
  x ← load_extras rebx;
  let sim := x_sim x in
  (if decide (force_is_velocity_dependent = 0) then mret ()
   else upd_sim sim (set_force_is_velocity_dependent 1));;
  mret effect.

Definition rebx_add_custom_post_timestep_modification (rebx : Z) (name : string)
    (custom_ptm : fnptr) : M Z :=
  effect ← rebx_add_effect rebx name;
  upd_effect effect (set_e_ptm custom_ptm);;
  mret effect.

Definition rebx_add_param_to_be_freed (rebx param : Z) : M () :=
  newparam ← malloc sizeof_param_to_be_freed;
  upd_to_be_freed newparam (set_tbf_param param);;
  x ← load_extras rebx;
  upd_to_be_freed newparam (set_tbf_next (x_params_to_be_freed x));;
  upd_extras rebx (set_x_params_to_be_freed newparam).

(** *** Internal functions for dealing with parameters *)

Definition rebx_get_object_type (object : Z) : M rebx_object_type :=
  ap ← load_particle_ap object;
  if decide (ap = enum_EFFECT) then mret REBX_TYPE_EFFECT
  else mret REBX_TYPE_PARTICLE.

Definition rebx_get_sim (object : Z) : M Z :=
  t ← rebx_get_object_type object;
  match t with
  | REBX_TYPE_EFFECT =>
      effect ← load_effect object;
      x ← load_extras (e_rebx effect);
      mret (x_sim x)
  | REBX_TYPE_PARTICLE =>
      p ← load_particle object;
      mret (pt_sim p)
  end.

(** [for(j=REBX_TYPE_EFFECT; j<=REBX_TYPE_PARTICLE; j++) if (a == j) collision=1]. *)
Definition collision (a : Z) : bool :=
  existsb (Z.eqb a) (seqZ enum_EFFECT (enum_PARTICLE - enum_EFFECT + 1)).

(** [address[i] = a] and [address[i]] on [struct rebx_param* address[5]]. *)
Definition array_store (address : list Z) (i : nat) (a : Z) : M (list Z) :=
  if decide (i < length address)%nat then mret (<[i := a]> address)
  else fail (OutOfBounds (Z.of_nat i)).

Definition array_load (address : list Z) (i : nat) : M Z :=
  match address !! i with
  | Some a => mret a
  | None => fail (OutOfBounds (Z.of_nat i))
  end.

(** [for(i=..; i<=5; i++)] with [todo] iterations left before [i] passes 5;
    the result is the value of [i] after the loop and the array. *)
Fixpoint validate_loop (todo : nat) (i : nat) (address : list Z) : M (nat * list Z) :=
  match todo with
  | O => mret (i, address)
  | S todo' =>
      a ← malloc sizeof_param;
      address' ← array_store address i a;
      if collision a then validate_loop todo' (S i) address'
      else mret (i, address')
  end.

Fixpoint free_first (j : nat) (i : nat) (address : list Z) : M () :=
  match i with
  | O => mret ()
  | S i' =>
      a ← array_load address j;
      free a;;
      free_first (S j) i' address
  end.

Definition rebx_validate_ap_address (newparam : Z) : M Z :=
  if collision newparam then
    free newparam;;
    let address := replicate 5 NULL in
    '(i, address) ← validate_loop 6 0 address;
    (if decide (i = 5%nat) then
       fprintf_stderr ("REBOUNDx Error:  Can't allocate valid memory for parameter." +:+ newline);;
       exit 1
     else mret ());;
    free_first 0 i address;;
    array_load address i
  else mret newparam.

(** *** User interface for parameters *)

Fixpoint rebx_get_param_node_loop (fuel : nat) (hash current : Z) : M Z :=
  if decide (current = NULL) then mret NULL
  else match fuel with
       | O => loops
       | S fuel' =>
           n ← load_param current;
           if decide (p_hash n = hash) then mret current
           else rebx_get_param_node_loop fuel' hash (p_next n)
       end.

Definition rebx_get_param_node (object : Z) (param_name : string) : M Z :=
  t ← rebx_get_object_type object;
  current ← match t with
             | REBX_TYPE_EFFECT =>
                 effect ← load_effect object;
                 mret (e_ap effect)
             | REBX_TYPE_PARTICLE =>
                 load_particle_ap object
             end;
  let hash := reb_hash param_name in
  bounded (λ fuel, rebx_get_param_node_loop fuel hash current).

Definition rebx_get_param (object : Z) (param_name : string) : M Z :=
  node ← rebx_get_param_node object param_name;
  if decide (node = NULL) then mret NULL
  else
    n ← load_param node;
    mret (p_contents n).

(** [while(current->next != NULL)] of [rebx_remove_param]. *)
Fixpoint rebx_remove_param_loop (fuel : nat) (hash current : Z) : M Z :=
  match fuel with
  | O => loops
  | S fuel' =>
      c ← load_param current;
      if decide (p_next c = NULL) then mret 0
      else
        n ← load_param (p_next c);
        if decide (p_hash n = hash) then
          upd_param current (set_p_next (p_next n));;
          mret 1
        else rebx_remove_param_loop fuel' hash (p_next c)
  end.

(** The switch yields [current] and whether it has already returned 1. *)
Definition rebx_remove_param (object : Z) (param_name : string) : M Z :=
  let hash := reb_hash param_name in
  t ← rebx_get_object_type object;
  '(current, returned) ←
    match t with
    | REBX_TYPE_EFFECT =>
        effect ← load_effect object;
        let current := e_ap effect in
        c ← load_param current;
        if decide (p_hash c = hash) then
          upd_effect object (set_e_ap (p_next c));;
          mret (current, true)
        else mret (current, false)
    | REBX_TYPE_PARTICLE =>
        current ← load_particle_ap object;
        c ← load_param current;
        if decide (p_hash c = hash) then
          store_particle_ap object (p_next c);;
          mret (current, true)
        else mret (current, false)
    end;
  if returned : bool then mret 1
  else bounded (λ fuel, rebx_remove_param_loop fuel hash current).

(** [memcpy(dst, src, n)] from the caller's [int] array [src]. *)
Definition memcpy_ints (dst : Z) (src : list Z) (n : Z) : M () :=
  c ← deref dst;
  match c with
  | CBlock sz _ =>
      let k := Z.to_nat (n / sizeof_int) in
      if decide (k ≤ length src)%nat
      then put_cell dst (CBlock sz (VInt <$> take k src))
      else fail (OutOfBounds (Z.of_nat (length src)))
  | _ => fail (WrongType dst)
  end.

(** [for(int i=..;i<ndim;i++) size *= shape[i]] with [todo] iterations left. *)
Fixpoint size_loop (todo : nat) (i : nat) (shape : list Z) (size : Z) : M Z :=
  match todo with
  | O => mret size
  | S todo' =>
      match shape !! i with
      | Some extent => size_loop todo' (S i) shape (wrap_int (size * extent))
      | None => fail (OutOfBounds (Z.of_nat i))
      end
  end.

(** The text that [rebx_add_param_] formats into [char str[300]]: 70
    characters around the name. *)
Definition already_exists (param_name : string) : string :=
  "REBOUNDx Error: Parameter '" +:+ param_name +:+
  "' passed to rebx_add_param already exists." +:+ newline.

Definition rebx_add_param_ (object : Z) (param_name : string)
    (param_type : rebx_param_type) (ndim : Z) (shape : list Z) : M Z :=
  ptr ← rebx_get_param object param_name;
  if decide (ptr ≠ NULL) then
    str ← sprintf 300 (already_exists param_name);
    sim ← rebx_get_sim object;
    reb_error sim str;;
    mret NULL
  else
    newparam ← malloc sizeof_param;
    newparam ← rebx_validate_ap_address newparam;
    upd_param newparam (set_p_hash (reb_hash param_name));;
    upd_param newparam (set_p_param_type param_type);;
    upd_param newparam (set_p_ndim ndim);;
    let shapesize := to_size_t (sizeof_int * to_size_t ndim) in
    shape' ← malloc (bytes shapesize);
    upd_param newparam (set_p_shape shape');;
    memcpy_ints shape' shape shapesize;;
    size ← size_loop (Z.to_nat ndim) 0 shape 1;
    upd_param newparam (set_p_size size);;
    contents ← match param_type with
                | REBX_TYPE_DOUBLE =>
                    malloc (bytes (to_size_t (sizeof_double * to_size_t size)))
                | REBX_TYPE_INT =>
                    malloc (bytes (to_size_t (sizeof_int * to_size_t size)))
                end;
    upd_param newparam (set_p_contents contents);;
    t ← rebx_get_object_type object;
    match t with
    | REBX_TYPE_EFFECT =>
        effect ← load_effect object;
        upd_param newparam (set_p_next (e_ap effect));;
        upd_effect object (set_e_ap newparam)
    | REBX_TYPE_PARTICLE =>
        ap ← load_particle_ap object;
        upd_param newparam (set_p_next ap);;
        store_particle_ap object newparam
    end;;
    n ← load_param newparam;
    mret (p_contents n).

Definition rebx_add_param (object : Z) (param_name : string)
    (param_type : rebx_param_type) : M Z :=
  let ndim := 1 in
  let shape := [1] in
  rebx_add_param_ object param_name param_type ndim shape.

Definition rebx_add_param1d (object : Z) (param_name : string)
    (param_type : rebx_param_type) (length : Z) : M Z :=
  let ndim := 1 in
  let shape := [length] in
  rebx_add_param_ object param_name param_type ndim shape.

Definition rebx_add_param2d (object : Z) (param_name : string)
    (param_type : rebx_param_type) (ncols nrows : Z) : M Z :=
  let ndim := 2 in
  let shape := [ncols; nrows] in
  rebx_add_param_ object param_name param_type ndim shape.

(** ** Views of the heap used in the statements *)



(** The word [rebx_get_object_type] compares with the tag. *)
Definition kind_word (s : state) (object : Z) : option Z :=
  if decide (object = NULL) then None
  else match heap s !! object with
       | Some (CParticle p) => Some (pt_ap p)
       | Some (CEffect e) => Some (effect_view_ap e)
       | _ => None
       end.

(** The effect that [rebx_add_effect] leaves at the head of the registry. *)
Definition new_effect (name : string) (rebx next : Z) : rebx_effect :=
  set_effect_view_ap enum_EFFECT
    (mk_effect (reb_hash name) NULL fn_NULL fn_NULL rebx next NULL).

(** The head that the switches of [rebx_get_param_node],
    [rebx_remove_param] and [rebx_add_param_] take for an object. *)
Definition store_head (s : state) (object : Z) : option Z :=
  match kind_word s object with
  | Some w =>
      if decide (w = enum_EFFECT) then
        match heap s !! object with
        | Some (CEffect e) => Some (e_ap e)
        | _ => None
        end
      else Some w
  | None => None
  end.

(** A parameter store: the nodes met from [a] to [NULL], with their
    addresses. *)
Fixpoint list_seg (h : gmap Z cell) (a : Z) (l : list (Z * rebx_param)) : Prop :=
  match l with
  | [] => a = NULL
  | (b, n) :: l' =>
      a = b ∧ b ≠ NULL ∧ h !! b = Some (CParam n) ∧ list_seg h (p_next n) l'
  end.

(** The effect registry, likewise. *)
Fixpoint effect_seg (h : gmap Z cell) (a : Z) (l : list (Z * rebx_effect)) : Prop :=
  match l with
  | [] => a = NULL
  | (b, e) :: l' =>
      a = b ∧ b ≠ NULL ∧ h !! b = Some (CEffect e) ∧ effect_seg h (e_next e) l'
  end.

(** Every cell of [s0] is still there, unchanged, in [s]. *)
Definition extends (s0 s : state) : Prop :=
  ∀ a c, heap s0 !! a = Some c → heap s !! a = Some c.

(** [a] is not the address of a cell of [s0]. *)
Definition unused (s0 : state) (a : Z) : Prop :=
  a = NULL ∨ heap s0 !! a = None.

(** Messages, [stderr] and the trace are the same in both states. *)
Definition same_output (s s' : state) : Prop :=
  messages s' = messages s ∧ stderr s' = stderr s ∧ trace s' = trace s.

(** The cell of an object once [rebx_add_param_] or [rebx_remove_param] has
    stored [v] as the head of its store. *)
Definition set_head (v : Z) (c : cell) : cell :=
  match c with
  | CParticle p => CParticle (set_pt_ap v p)
  | CEffect e =>
      if decide (effect_view_ap e = enum_EFFECT) then CEffect (set_e_ap v e)
      else CEffect (set_effect_view_ap v e)
  | c => c
  end.

(** The nodes read off the heap from [a], at most [fuel] of them. *)
Fixpoint store_nodes (fuel : nat) (h : gmap Z cell) (a : Z) : list (Z * rebx_param) :=
  match fuel with
  | O => []
  | S fuel' =>
      if decide (a = NULL) then []
      else match h !! a with
           | Some (CParam n) => (a, n) :: store_nodes fuel' h (p_next n)
           | _ => []
           end
  end.

(** The effects read off the heap from [a], likewise. *)
Fixpoint registry_nodes (fuel : nat) (h : gmap Z cell) (a : Z) : list (Z * rebx_effect) :=
  match fuel with
  | O => []
  | S fuel' =>
      if decide (a = NULL) then []
      else match h !! a with
           | Some (CEffect e) => (a, e) :: registry_nodes fuel' h (e_next e)
           | _ => []
           end
  end.

(** The first node of a store with hash [h], [NULL] when there is none. *)
Fixpoint find_node (h : Z) (l : list (Z * rebx_param)) : Z :=
  match l with
  | [] => NULL
  | (b, n) :: l' => if decide (p_hash n = h) then b else find_node h l'
  end.

(** The contents of that node. *)
Fixpoint find_contents (h : Z) (l : list (Z * rebx_param)) : Z :=
  match l with
  | [] => NULL
  | (b, n) :: l' => if decide (p_hash n = h) then p_contents n else find_contents h l'
  end.

(** The store without its first node with hash [h]; the node in front of
    the removed one gets a new [next]. *)
Fixpoint remove_node (h : Z) (l : list (Z * rebx_param)) : list (Z * rebx_param) :=
  match l with
  | [] => []
  | (b, n) :: l' =>
      if decide (p_hash n = h) then l'
      else match l' with
           | (b', n') :: l'' =>
               if decide (p_hash n' = h) then (b, set_p_next (p_next n') n) :: l''
               else (b, n) :: remove_node h l'
           | [] => [(b, n)]
           end
  end.

(** [e] is an effect whose kind word holds the tag. *)
Definition tagged_effect (s : state) (e : Z) : Prop :=
  e ≠ NULL ∧ ∃ eff, heap s !! e = Some (CEffect eff) ∧ effect_view_ap eff = enum_EFFECT.

(** The heap cut down to the addresses in [X]. *)
Definition restrict (X : gset Z) (s : state) : state :=
  set_heap (filter (λ ac, ac.1 ∈ X) (heap s)) s.


(** The three ways of registering an effect. *)
Inductive registration :=
| Plain (name : string)
| WithForce (name : string) (custom_force : fnptr) (velocity_dependent : Z)
| WithPtm (name : string) (custom_ptm : fnptr).

Definition reg_name (r : registration) : string :=
  match r with
  | Plain n | WithForce n _ _ | WithPtm n _ => n
  end.

Definition reg_force (r : registration) : fnptr :=
  match r with
  | WithForce _ f _ => f
  | _ => fn_NULL
  end.

Definition reg_ptm (r : registration) : fnptr :=
  match r with
  | WithPtm _ f => f
  | _ => fn_NULL
  end.

Definition register (rebx : Z) (r : registration) : M Z :=
  match r with
  | Plain n => rebx_add rebx n
  | WithForce n f v => rebx_add_custom_force rebx n f v
  | WithPtm n f =>
      rebx_add_custom_post_timestep_modification rebx n f
  end.

Fixpoint register_all (rebx : Z) (rs : list registration) : M () :=
  match rs with
  | [] => mret ()
  | r :: rs' => register rebx r;; register_all rebx rs'
  end.

(** Whether a registration passes a non-zero [force_is_velocity_dependent]. *)
Definition reg_velocity_dependent (r : registration) : bool :=
  match r with
  | WithForce _ _ v => bool_decide (v ≠ 0)
  | _ => false
  end.

(** Identities of the registrations whose callback [sel] is present, in
    registration order. *)
Definition present (sel : registration → fnptr) (rs : list registration) : list Z :=
  (reb_hash ∘ reg_name) <$> filter (λ r, sel r ≠ fn_NULL) rs.

(** The identities met on a walk of the registry, among the effects whose
    callback [sel] is present. *)
Definition dispatched (sel : rebx_effect → fnptr) (l : list (Z * rebx_effect)) : list Z :=
  (e_hash ∘ snd) <$> filter (λ ae, sel ae.2 ≠ fn_NULL) l.

(** The extras of [sim] are at [rebx] and the registry holds [l]. *)
Definition registry (s : state) (sim rebx : Z) (l : list (Z * rebx_effect)) : Prop :=
  sim ≠ NULL ∧ rebx ≠ NULL ∧
  ∃ r x, heap s !! sim = Some (CSim r) ∧ sim_extras r = rebx ∧
         heap s !! rebx = Some (CExtras x) ∧ x_sim x = sim ∧
         effect_seg (heap s) (x_effects x) l.

(** Attachments to and removals from the store of one object. *)
Inductive store_op :=
| Attach (name : string) (param_type : rebx_param_type) (ndim : Z) (shape : list Z)
| Remove (name : string).

Definition is_attach (op : store_op) : bool :=
  match op with
  | Attach _ _ _ _ => true
  | Remove _ => false
  end.

Definition run_op (object : Z) (op : store_op) : M Z :=
  match op with
  | Attach name t ndim shape =>
      rebx_add_param_ object name t ndim shape
  | Remove name => rebx_remove_param object name
  end.

Fixpoint run_ops (object : Z) (ops : list store_op) : M () :=
  match ops with
  | [] => mret ()
  | op :: ops' => run_op object op;; run_ops object ops'
  end.

(** Product of the extents of a shape. *)
Definition extents_product (shape : list Z) : Z := foldr Z.mul 1 shape.


(** * Verification *)

(** ** The monad *)

Lemma bind_unfold {A B} (m : M A) (f : A → M B) (s : state) :
  (m ≫= f) s =
  match m s with
  | Done a s' => f a s'
  | Exit c s' => Exit c s'
  | Undefined u => Undefined u
  | Loops => Loops
  end.
Proof. reflexivity. Qed.

Lemma bind_Done {A B} (m : M A) (f : A → M B) s a s1 :
  m s = Done a s1 → (m ≫= f) s = f a s1.
Proof. intros H. rewrite bind_unfold, H. reflexivity. Qed.

Lemma bind_Undefined {A B} (m : M A) (f : A → M B) s u :
  m s = Undefined u → (m ≫= f) s = Undefined u.
Proof. intros H. rewrite bind_unfold, H. reflexivity. Qed.

Lemma bind_Done_inv {A B} (m : M A) (f : A → M B) s b s2 :
  (m ≫= f) s = Done b s2 → ∃ a s1, m s = Done a s1 ∧ f a s1 = Done b s2.
Proof.
  rewrite bind_unfold. destruct (m s) as [a s1| | |]; try discriminate.
  intros H. exists a, s1. split; [reflexivity | exact H].
Qed.

Lemma heap_set_heap h s : heap (set_heap h s) = h.
Proof. reflexivity. Qed.

Lemma deref_Done a s c s' :
  deref a s = Done c s' → a ≠ NULL ∧ heap s !! a = Some c ∧ s' = s.
Proof.
  unfold deref. destruct (decide (a = 0)); [discriminate |].
  destruct (heap s !! a) eqn:E; [| discriminate].
  intros [= -> ->]. auto.
Qed.

Lemma deref_eq a s c : a ≠ NULL → heap s !! a = Some c → deref a s = Done c s.
Proof.
  intros Ha Hc. unfold deref. destruct (decide (a = 0)); [done |]. by rewrite Hc.
Qed.

Lemma deref_NULL s : deref NULL s = Undefined NullDeref.
Proof. reflexivity. Qed.

Lemma load_param_Done a s n s' :
  load_param a s = Done n s' → a ≠ NULL ∧ heap s !! a = Some (CParam n) ∧ s' = s.
Proof.
  unfold load_param. intros H. apply bind_Done_inv in H as (c & s1 & H1 & H2).
  apply deref_Done in H1 as (Ha & Hc & ->).
  destruct c; try discriminate. injection H2 as -> ->. auto.
Qed.

Lemma mret_Done {A} (a b : A) s s' : (mret a : M A) s = Done b s' → b = a ∧ s' = s.
Proof. intros [= -> ->]. auto. Qed.

Ltac inv_load H :=
  let c := fresh "c" in let s1 := fresh "s" in
  let H1 := fresh in let H2 := fresh in
  apply bind_Done_inv in H as (c & s1 & H1 & H2);
  apply deref_Done in H1 as (? & ? & ->);
  destruct c; try discriminate; injection H2 as -> ->; auto.

Lemma load_effect_Done a s e s' :
  load_effect a s = Done e s' → a ≠ NULL ∧ heap s !! a = Some (CEffect e) ∧ s' = s.
Proof. unfold load_effect. intros H. inv_load H. Qed.

Lemma load_particle_Done a s p s' :
  load_particle a s = Done p s' → a ≠ NULL ∧ heap s !! a = Some (CParticle p) ∧ s' = s.
Proof. unfold load_particle. intros H. inv_load H. Qed.

Lemma load_to_be_freed_Done a s t s' :
  load_to_be_freed a s = Done t s' → a ≠ NULL ∧ heap s !! a = Some (CToBeFreed t) ∧ s' = s.
Proof. unfold load_to_be_freed. intros H. inv_load H. Qed.

Lemma load_extras_Done a s x s' :
  load_extras a s = Done x s' → a ≠ NULL ∧ heap s !! a = Some (CExtras x) ∧ s' = s.
Proof. unfold load_extras. intros H. inv_load H. Qed.

Lemma load_sim_Done a s r s' :
  load_sim a s = Done r s' → a ≠ NULL ∧ heap s !! a = Some (CSim r) ∧ s' = s.
Proof. unfold load_sim. intros H. inv_load H. Qed.

Lemma put_cell_Done a c s u s' : put_cell a c s = Done u s' → s' = written a c s.
Proof. inversion 1. reflexivity. Qed.

Ltac inv_upd H :=
  let c := fresh "c" in let s1 := fresh "s" in
  let H1 := fresh in let H2 := fresh in
  apply bind_Done_inv in H as (c & s1 & H1 & H2);
  apply deref_Done in H1 as (? & ? & ->);
  split; [assumption |];
  exists c; split; [assumption |];
  repeat match goal with
         | H : context [match ?x with _ => _ end] |- _ => destruct x; try discriminate
         end;
  apply put_cell_Done in H2; exact H2.

Lemma upd_effect_Done a f s u s' :
  upd_effect a f s = Done u s' →
  a ≠ NULL ∧ ∃ c, heap s !! a = Some c ∧
    match c with
    | CEffect e => s' = written a (CEffect (f e)) s
    | CBlock sizeof_effect _ => s' = written a (CEffect (f effect0)) s
    | _ => False
    end.
Proof. unfold upd_effect. intros H. inv_upd H. Qed.

Lemma upd_param_Done a f s u s' :
  upd_param a f s = Done u s' →
  a ≠ NULL ∧ ∃ c, heap s !! a = Some c ∧
    match c with
    | CParam n => s' = written a (CParam (f n)) s
    | CBlock sizeof_param _ => s' = written a (CParam (f param0)) s
    | _ => False
    end.
Proof. unfold upd_param. intros H. inv_upd H. Qed.

Lemma upd_to_be_freed_Done a f s u s' :
  upd_to_be_freed a f s = Done u s' →
  a ≠ NULL ∧ ∃ c, heap s !! a = Some c ∧
    match c with
    | CToBeFreed t => s' = written a (CToBeFreed (f t)) s
    | CBlock sizeof_param_to_be_freed _ => s' = written a (CToBeFreed (f to_be_freed0)) s
    | _ => False
    end.
Proof. unfold upd_to_be_freed. intros H. inv_upd H. Qed.

Lemma upd_extras_Done a f s u s' :
  upd_extras a f s = Done u s' →
  a ≠ NULL ∧ ∃ c, heap s !! a = Some c ∧
    match c with
    | CExtras x => s' = written a (CExtras (f x)) s
    | CBlock sizeof_extras _ => s' = written a (CExtras (f extras0)) s
    | _ => False
    end.
Proof. unfold upd_extras. intros H. inv_upd H. Qed.

Lemma upd_sim_Done a f s u s' :
  upd_sim a f s = Done u s' →
  a ≠ NULL ∧ ∃ c, heap s !! a = Some c ∧
    match c with
    | CSim r => s' = written a (CSim (f r)) s
    | _ => False
    end.
Proof. unfold upd_sim. intros H. inv_upd H. Qed.

Lemma pick_fresh h o a o' : pick h o = (a, o') → a ≠ NULL → h !! a = None.
Proof.
  induction o as [| b o IH]; simpl.
  - intros [= <- <-]. done.
  - destruct (decide (b = 0)).
    + intros [= <- <-]. done.
    + destruct (h !! b) eqn:E.
      * exact IH.
      * intros [= <- <-]. done.
Qed.

Lemma malloc_Done sz s a s' :
  malloc sz s = Done a s' →
  ∃ o', s' = set_oracle o' (allocated a sz s) ∧ (a ≠ NULL → heap s !! a = None).
Proof.
  unfold malloc. destruct (pick (heap s) (oracle s)) as [b o'] eqn:E.
  intros [= <- <-]. exists o'. split; [done |].
  intros Hb. eapply pick_fresh; eauto.
Qed.

Lemma allocated_nonnull a sz s : a ≠ NULL → allocated a sz s = written a (CBlock sz []) s.
Proof. intros H. unfold allocated. by destruct (decide (a = 0)). Qed.

Lemma free_Done a s u s' :
  free a s = Done u s' →
  (a = NULL ∧ s' = s) ∨
  (a ≠ NULL ∧ is_Some (heap s !! a) ∧ s' = set_heap (delete a (heap s)) s).
Proof.
  unfold free. destruct (decide (a = 0)) as [-> | Ha].
  - inversion 1. left. done.
  - destruct (heap s !! a) eqn:E; [| discriminate].
    inversion 1. right. eauto.
Qed.

Lemma bind_Exit_inv {A B} (m : M A) (f : A → M B) s c s2 :
(m ≫= f) s = Exit c s2 →
m s = Exit c s2 ∨ ∃ a s1, m s = Done a s1 ∧ f a s1 = Exit c s2.
Proof.
rewrite bind_unfold. destruct (m s) as [a s1| | |]; try discriminate.
- intros H. right. eauto.
- intros [= -> ->]. left. reflexivity.
Qed.

Lemma malloc_total sz s : ∃ a s', malloc sz s = Done a s'.
Proof.
  unfold malloc. destruct (pick (heap s) (oracle s)) as [b o']. eauto.
Qed.

Lemma free_no_exit a s c s' : free a s ≠ Exit c s'.
Proof.
unfold free. destruct (decide (a = 0)); [discriminate |].
destruct (heap s !! a); discriminate.
Qed.

(** ** States and lookups *)

Lemma written_written a c c' s : written a c (written a c' s) = written a c s.
Proof. unfold written, set_heap. simpl. by rewrite insert_insert_eq. Qed.

Lemma heap_written a c s : heap (written a c s) = <[a := c]> (heap s).
Proof. reflexivity. Qed.

Lemma written_set_oracle a c o s :
  written a c (set_oracle o s) = set_oracle o (written a c s).
Proof. reflexivity. Qed.

Lemma set_oracle_set_oracle o o' s : set_oracle o (set_oracle o' s) = set_oracle o s.
Proof. reflexivity. Qed.

Lemma heap_set_oracle o s : heap (set_oracle o s) = heap s.
Proof. reflexivity. Qed.

Lemma written_comm a b c d s :
  a ≠ b → written a c (written b d s) = written b d (written a c s).
Proof. intros H. unfold written, set_heap. simpl. by rewrite insert_insert_ne. Qed.

Lemma lookup_written a c s b :
  heap (written a c s) !! b = if decide (a = b) then Some c else heap s !! b.
Proof. rewrite heap_written. apply lookup_insert. Qed.

Lemma heap_set_messages m s : heap (set_messages m s) = heap s.
Proof. reflexivity. Qed.

Lemma reb_warning_Done sim msg s u s' :
  reb_warning sim msg s = Done u s' →
  s' = set_messages (messages s ++ [(sim, Warning, msg)]) s.
Proof. inversion 1. reflexivity. Qed.

Lemma reb_error_Done sim msg s u s' :
  reb_error sim msg s = Done u s' →
  s' = set_messages (messages s ++ [(sim, Error, msg)]) s.
Proof. inversion 1. reflexivity. Qed.

(** ** Forward equations of the reads *)

Lemma load_sim_eq a s r : a ≠ NULL → heap s !! a = Some (CSim r) → load_sim a s = Done r s.
Proof. intros Ha Hr. unfold load_sim. rewrite (bind_Done _ _ _ _ _ (deref_eq _ _ _ Ha Hr)). reflexivity. Qed.

Lemma upd_sim_eq a f s r :
  a ≠ NULL → heap s !! a = Some (CSim r) →
  upd_sim a f s = Done () (written a (CSim (f r)) s).
Proof.
  intros Ha Hr. unfold upd_sim.
  rewrite (bind_Done _ _ _ _ _ (deref_eq _ _ _ Ha Hr)). reflexivity.
Qed.

Lemma load_effect_eq a s e :
  a ≠ NULL → heap s !! a = Some (CEffect e) → load_effect a s = Done e s.
Proof.
  intros Ha He. unfold load_effect.
  rewrite (bind_Done _ _ _ _ _ (deref_eq _ _ _ Ha He)). reflexivity.
Qed.

Lemma load_extras_eq a s x :
  a ≠ NULL → heap s !! a = Some (CExtras x) → load_extras a s = Done x s.
Proof.
  intros Ha He. unfold load_extras.
  rewrite (bind_Done _ _ _ _ _ (deref_eq _ _ _ Ha He)). reflexivity.
Qed.

Lemma load_param_eq a s n :
  a ≠ NULL → heap s !! a = Some (CParam n) → load_param a s = Done n s.
Proof.
  intros Ha He. unfold load_param.
  rewrite (bind_Done _ _ _ _ _ (deref_eq _ _ _ Ha He)). reflexivity.
Qed.

Lemma load_particle_eq a s p :
  a ≠ NULL → heap s !! a = Some (CParticle p) → load_particle a s = Done p s.
Proof.
  intros Ha He. unfold load_particle.
  rewrite (bind_Done _ _ _ _ _ (deref_eq _ _ _ Ha He)). reflexivity.
Qed.

(** ** The view of an object as a particle *)

Lemma load_particle_ap_Done object s w s' :
  load_particle_ap object s = Done w s' → kind_word s object = Some w ∧ s' = s.
Proof.
  unfold load_particle_ap, kind_word. intros H.
  apply bind_Done_inv in H as (c & s1 & E & H).
  apply deref_Done in E as (Ho & Hc & ->).
  destruct (decide (object = 0)); [done |]. rewrite Hc.
  destruct c; try discriminate; injection H as <- <-; done.
Qed.

Lemma load_particle_ap_eq object s w :
  kind_word s object = Some w → load_particle_ap object s = Done w s.
Proof.
  unfold load_particle_ap, kind_word.
  destruct (decide (object = 0)) as [| Ho]; [done |].
  destruct (heap s !! object) as [c |] eqn:Hc; [| done].
  intros H. rewrite (bind_Done _ _ _ _ _ (deref_eq _ _ _ Ho Hc)).
  destruct c; try discriminate; injection H as <-; reflexivity.
Qed.

Lemma store_particle_ap_Done object v s u s' :
  store_particle_ap object v s = Done u s' →
  object ≠ NULL ∧ ∃ c, heap s !! object = Some c ∧
    match c with
    | CParticle p => s' = written object (CParticle (set_pt_ap v p)) s
    | CEffect e => s' = written object (CEffect (set_effect_view_ap v e)) s
    | _ => False
    end.
Proof. unfold store_particle_ap. intros H. inv_upd H. Qed.

Lemma rebx_get_object_type_Done object s t s' :
  rebx_get_object_type object s = Done t s' →
  s' = s ∧ ∃ w, kind_word s object = Some w ∧
    t = if decide (w = enum_EFFECT) then REBX_TYPE_EFFECT else REBX_TYPE_PARTICLE.
Proof.
  unfold rebx_get_object_type. intros H.
  apply bind_Done_inv in H as (w & s1 & E & H).
  apply load_particle_ap_Done in E as (Hw & ->).
  destruct (decide (w = enum_EFFECT)) as [Hw' | Hw'] eqn:Hd;
    injection H as <- <-; (split; [done |]); exists w; by rewrite Hd.
Qed.

Lemma rebx_get_object_type_eq object s w :
  kind_word s object = Some w →
  rebx_get_object_type object s =
  Done (if decide (w = enum_EFFECT) then REBX_TYPE_EFFECT else REBX_TYPE_PARTICLE) s.
Proof.
  intros H. unfold rebx_get_object_type.
  rewrite (bind_Done _ _ _ _ _ (load_particle_ap_eq _ _ _ H)).
  by destruct (decide (w = enum_EFFECT)).
Qed.

(** ** Symbolic execution *)

Ltac inv_prim E :=
  lazymatch type of E with
  | load_param _ _ = _ => apply load_param_Done in E as (? & ? & ->)
  | load_effect _ _ = _ => apply load_effect_Done in E as (? & ? & ->)
  | load_particle _ _ = _ => apply load_particle_Done in E as (? & ? & ->)
  | load_to_be_freed _ _ = _ => apply load_to_be_freed_Done in E as (? & ? & ->)
  | load_extras _ _ = _ => apply load_extras_Done in E as (? & ? & ->)
  | load_sim _ _ = _ => apply load_sim_Done in E as (? & ? & ->)
  | deref _ _ = _ => apply deref_Done in E as (? & ? & ->)
  | upd_param _ _ _ = _ => apply upd_param_Done in E as (? & ? & ? & E)
  | upd_effect _ _ _ = _ => apply upd_effect_Done in E as (? & ? & ? & E)
  | upd_to_be_freed _ _ _ = _ => apply upd_to_be_freed_Done in E as (? & ? & ? & E)
  | upd_extras _ _ _ = _ => apply upd_extras_Done in E as (? & ? & ? & E)
  | upd_sim _ _ _ = _ => apply upd_sim_Done in E as (? & ? & ? & E)
  | put_cell _ _ _ = _ => apply put_cell_Done in E as ->
  | malloc _ _ = _ =>
      apply malloc_Done in E as (? & -> & ?)
  | free _ _ = _ =>
      apply free_Done in E as [(-> & ->) | (? & ? & ->)]
  | mret _ _ = _ => apply mret_Done in E as (-> & ->)
  | load_particle_ap _ _ = _ => apply load_particle_ap_Done in E as (? & ->)
  | store_particle_ap _ _ _ = _ => apply store_particle_ap_Done in E as (? & ? & ? & E)
  | rebx_get_object_type _ _ = _ => apply rebx_get_object_type_Done in E as (-> & ? & ? & ->)
  | reb_warning _ _ _ = _ => apply reb_warning_Done in E as ->
  | reb_error _ _ _ = _ => apply reb_error_Done in E as ->
  | _ => idtac
  end.

Ltac mstep H :=
  let E := fresh "E" in
  apply bind_Done_inv in H as (? & ? & E & H); inv_prim E.

Create HintDb fields.
#[local] Hint Unfold set_p_hash set_p_param_type set_p_ndim set_p_shape set_p_size
  set_p_contents set_p_next set_e_hash set_e_ap set_e_force set_e_ptm
  set_e_rebx set_e_next set_e_pad_ap set_pt_ap set_tbf_param set_tbf_next
  set_x_sim set_x_effects set_x_params_to_be_freed set_additional_forces
  set_post_timestep_modifications set_force_is_velocity_dependent
  set_sim_extras param0 effect0 to_be_freed0 extras0
  set_effect_view_ap effect_view_ap : fields.

Ltac fields :=
  autounfold with fields in *;
  cbn [set_p_hash set_p_param_type set_p_ndim set_p_shape set_p_size set_p_contents
       set_p_next p_hash p_param_type p_ndim p_shape p_size p_contents p_next param0
       set_e_hash set_e_ap set_e_force set_e_ptm set_e_rebx set_e_next set_e_pad_ap
       e_hash e_ap e_force e_ptm e_rebx e_next e_pad_ap effect0
       set_pt_ap pt_ap pt_sim set_tbf_param set_tbf_next tbf_param tbf_next to_be_freed0
       set_x_sim set_x_effects set_x_params_to_be_freed x_sim x_effects
       x_params_to_be_freed extras0
       set_additional_forces set_post_timestep_modifications
       set_force_is_velocity_dependent set_sim_extras additional_forces
       post_timestep_modifications force_is_velocity_dependent sim_extras] in *.

Lemma written_shadow a b c c' d s :
  a ≠ b → written a c (written b d (written a c' s)) = written a c (written b d s).
Proof.
  intros H. rewrite (written_comm b a) by congruence. by rewrite written_written.
Qed.

Ltac heap_type x :=
  let T := type of x in
  lazymatch T with
  | cell => idtac
  | state => idtac
  | rebx_param => idtac
  | rebx_effect => idtac
  | reb_particle => idtac
  | rebx_extras => idtac
  | reb_simulation => idtac
  | rebx_param_to_be_freed => idtac
  | csize => idtac
  | list value => idtac
  end.

(** Bring the state to the form [set_oracle o (written a c (written b d s))]
    and settle the lookups in it. *)
Ltac tidy :=
  repeat first
    [ progress rewrite ?written_set_oracle, ?set_oracle_set_oracle, ?written_written,
        ?heap_set_oracle, ?heap_set_messages in *
    | match goal with
      | Hn : ?a ≠ 0 |- _ =>
          progress rewrite (allocated_nonnull a _ _ Hn) in *
      | Hn : ?a ≠ ?b |- _ =>
          progress rewrite ?(written_shadow a b _ _ _ _ Hn),
            ?(written_shadow b a _ _ _ _ (not_eq_sym Hn)) in *
      end
    | match goal with
      | H : heap (written ?a _ _) !! ?a = _ |- _ =>
          rewrite heap_written, lookup_insert_eq in H
      | H : heap (written ?a _ _) !! ?b = _, Hne : ?a ≠ ?b |- _ =>
          rewrite heap_written, (lookup_insert_ne _ _ _ _ Hne) in H
      | H : heap (written ?a _ _) !! ?b = _, Hne : ?b ≠ ?a |- _ =>
          rewrite heap_written, (lookup_insert_ne _ a b) in H by congruence
      | H : Some _ = Some _ |- _ => injection H as H
      | H : ?x = ?y |- _ => is_var x; heap_type x; subst x
      | H : ?y = ?x |- _ => is_var x; heap_type x; subst x
      | H : CBlock _ _ = CBlock _ _ |- _ => injection H as ? ?
      | H : CParam _ = CParam _ |- _ => injection H as H
      | H : CEffect _ = CEffect _ |- _ => injection H as H
      | H : CParticle _ = CParticle _ |- _ => injection H as H
      | H : CToBeFreed _ = CToBeFreed _ |- _ => injection H as H
      | H : CExtras _ = CExtras _ |- _ => injection H as H
      | H : CSim _ = CSim _ |- _ => injection H as H
      | H : Some _ = None |- _ => discriminate H
      | H : @eq cell _ _ |- _ => discriminate H
      | H : None = Some _ |- _ => discriminate H
      | H : False |- _ => destruct H
      | H : ?a ≠ ?a |- _ => destruct (H eq_refl)
      | H1 : ?x = Some _, H2 : ?x = Some _ |- _ => rewrite H1 in H2
      | H1 : ?x = None, H2 : ?x = Some _ |- _ => rewrite H1 in H2
      | H : match ?c with _ => _ end |- _ => is_var c; destruct c; try contradiction
      | H : heap (written ?a _ _) !! ?b = None |- _ =>
          rewrite lookup_written in H; destruct (decide (a = b)) as [<- | ?]
      | H : heap (written ?a _ _) !! ?b = Some _ |- _ =>
          rewrite lookup_written in H; destruct (decide (a = b)) as [<- | ?]
      end
    ].

Lemma allocated_null sz s : allocated NULL sz s = s.
Proof. reflexivity. Qed.

Lemma upd_param_Done_any a f s u s' :
  upd_param a f s = Done u s' →
  a ≠ NULL ∧ ∃ n, s' = written a (CParam (f n)) s.
Proof.
  intros H. apply upd_param_Done in H as (Ha & c & Hc & H).
  split; [done |]. destruct c as [[] | | | | | |]; try done; eauto.
Qed.

Ltac exec H := mstep H; tidy.

(** A step that is a [malloc]: either it failed or it gave a fresh block. *)
Ltac exec_malloc H a :=
  let E := fresh "E" in
  let Hfr := fresh "Hfresh" in
  apply bind_Done_inv in H as (a & ? & E & H);
  apply malloc_Done in E as (? & -> & Hfr);
  destruct (decide (a = 0)) as [-> | ?];
  [ rewrite allocated_null in *; clear Hfr
  | rewrite allocated_nonnull in * by assumption;
    match goal with Hn : a ≠ 0 |- _ => specialize (Hfr Hn) end ];
  tidy.
Ltac last_step H := inv_prim H; tidy.

(** ** Detaching the hooks *)

(** C9. [rebx_remove_from_simulation] on a simulation stores [NULL] in its
    two callback slots, [additional_forces] and
    [post_timestep_modifications], and changes nothing else: every other
    cell of the heap (the effects of the registry, the parameter nodes of
    every store, the entries of the ledger, the extras) is as before, no
    address is freed, and the messages, the allocator and the trace are
    untouched. *)
Theorem rebx_remove_from_simulation_frame (sim : Z) (r : reb_simulation) (s : state) :
  sim ≠ NULL →
  heap s !! sim = Some (CSim r) →
  ∃ s',
    rebx_remove_from_simulation sim s = Done () s' ∧
    heap s' !! sim =
      Some (CSim (mk_sim fn_NULL fn_NULL (force_is_velocity_dependent r) (sim_extras r))) ∧
    (∀ a, a ≠ sim → heap s' !! a = heap s !! a) ∧
    dom (heap s') = dom (heap s) ∧
    oracle s' = oracle s ∧ messages s' = messages s ∧
    stderr s' = stderr s ∧ trace s' = trace s.
Proof.
  intros Hsim Hr. unfold rebx_remove_from_simulation.
  erewrite bind_Done by (apply upd_sim_eq; eassumption).
  erewrite upd_sim_eq; [| assumption | rewrite heap_written; apply lookup_insert_eq].
  rewrite written_written. eexists. split; [reflexivity |].
  rewrite heap_written. split; [by rewrite lookup_insert_eq |].
  split; [intros a Ha; by rewrite lookup_insert_ne |].
  split; [| done].
  apply dom_insert_lookup_L. eauto.
Qed.

(** ** The validator of node addresses *)

Lemma collision_spec a : collision a = true ↔ enum_EFFECT ≤ a ≤ enum_PARTICLE.
Proof.
  unfold collision. rewrite existsb_exists. split.
  - intros (x & Hin & Heq). apply Z.eqb_eq in Heq as <-.
    apply list_elem_of_In, elem_of_seqZ in Hin. lia.
  - intros H. exists a. split; [| apply Z.eqb_refl].
    apply list_elem_of_In, elem_of_seqZ. lia.
Qed.

Lemma collision_false a : collision a = false ↔ ¬ (enum_EFFECT ≤ a ≤ enum_PARTICLE).
Proof. rewrite <- collision_spec. destruct (collision a); split; congruence. Qed.

Lemma array_store_Done address i a s r s' :
  array_store address i a s = Done r s' →
  (i < length address)%nat ∧ r = <[i := a]> address ∧ s' = s.
Proof.
  unfold array_store. destruct (decide (i < length address)%nat); [| discriminate].
  intros [= <- <-]. auto.
Qed.

Lemma array_load_Done address i s r s' :
  array_load address i s = Done r s' → address !! i = Some r ∧ s' = s.
Proof.
  unfold array_load. destruct (address !! i); [| discriminate].
  intros [= <- <-]. auto.
Qed.

(** A loop that returns left it through [break], at an index inside the
    array holding an address that collides with no tag. *)
Lemma validate_loop_Done todo i address s i' address' s' :
  validate_loop todo i address s = Done (i', address') s' →
  length address' = length address ∧
  ((i' = i + todo)%nat ∧ (todo = O ∨ (i + todo ≤ length address)%nat) ∨
   (i' < length address)%nat ∧ (i ≤ i')%nat ∧
     ∃ b, address' !! i' = Some b ∧ collision b = false).
Proof.
  revert i address s. induction todo as [| todo IH]; intros i address s; simpl.
  - intros [= <- <- <-]. split; [done |]. left. split; [lia | by left].
  - intros H. apply bind_Done_inv in H as (a & s1 & _ & H).
    apply bind_Done_inv in H as (ad & s2 & E & H).
    apply array_store_Done in E as (Hi & -> & ->).
    destruct (collision a) eqn:Hc.
    + apply IH in H as (Hlen & H). rewrite length_insert in Hlen, H.
      split; [done |]. destruct H as [(-> & H) | (? & ? & H)].
      * left. split; [lia |]. right. destruct H; lia.
      * right. split; [done |]. split; [lia | done].
    + injection H as <- <- <-. rewrite length_insert. split; [done |].
      right. split; [done |]. split; [done |]. exists a.
      split; [| done]. by apply list_lookup_insert_eq.
Qed.

Lemma validate_loop_no_exit todo i address s c s' :
  validate_loop todo i address s ≠ Exit c s'.
Proof.
  revert i address s. induction todo as [| todo IH]; intros i address s; simpl.
  - discriminate.
  - intros H. apply bind_Exit_inv in H as [H | (a & s1 & _ & H)].
    { destruct (malloc_total sizeof_param s) as (a & s1 & E). congruence. }
    apply bind_Exit_inv in H as [H | (ad & s2 & E & H)].
    { unfold array_store in H. destruct (decide _); discriminate. }
    destruct (collision a); [by apply IH in H | discriminate].
Qed.

Lemma free_first_no_exit j i address s c s' :
  free_first j i address s ≠ Exit c s'.
Proof.
  revert j s. induction i as [| i IH]; intros j s; simpl.
  - discriminate.
  - intros H. apply bind_Exit_inv in H as [H | (a & s1 & E & H)].
    { unfold array_load in H. destruct (address !! j); discriminate. }
    apply bind_Exit_inv in H as [H | (u & s2 & E2 & H)].
    { by apply free_no_exit in H. }
    by apply IH in H.
Qed.

(** A candidate that collides with no tag is returned as it is. *)
Lemma rebx_validate_ap_address_unchanged newparam s :
  collision newparam = false →
  rebx_validate_ap_address newparam s = Done newparam s.
Proof. intros H. unfold rebx_validate_ap_address. by rewrite H. Qed.

(** An address that is returned collides with no tag. *)
Lemma rebx_validate_ap_address_valid newparam s r s' :
  rebx_validate_ap_address newparam s = Done r s' → collision r = false.
Proof.
  unfold rebx_validate_ap_address.
  destruct (collision newparam) eqn:Hc.
  - intros H. apply bind_Done_inv in H as (u & s1 & _ & H).
    apply bind_Done_inv in H as ([i address] & s2 & E & H).
    apply validate_loop_Done in E as (Hlen & E).
    apply bind_Done_inv in H as (u2 & s3 & E3 & H).
    apply bind_Done_inv in H as (u3 & s4 & _ & H).
    apply array_load_Done in H as (H & _).
    destruct E as [(-> & E) | (_ & _ & b & Hb & Hcb)].
    + apply lookup_lt_Some in H. rewrite Hlen, length_replicate in H.
      simpl in H. lia.
    + congruence.
  - intros [= <- <-]. exact Hc.
Qed.

(** The call to [exit] is never reached: it is guarded by [i == 5], and
    the store into [address[5]] comes first. *)
Lemma rebx_validate_ap_address_no_exit newparam s c s' :
  rebx_validate_ap_address newparam s ≠ Exit c s'.
Proof.
  unfold rebx_validate_ap_address.
  destruct (collision newparam) eqn:Hc; [| discriminate].
  intros H. apply bind_Exit_inv in H as [H | (u & s1 & _ & H)].
  { by apply free_no_exit in H. }
  apply bind_Exit_inv in H as [H | ([i address] & s2 & E & H)].
  { by apply validate_loop_no_exit in H. }
  apply validate_loop_Done in E as (Hlen & E).
  rewrite length_replicate in Hlen, E.
  apply bind_Exit_inv in H as [H | (u2 & s3 & E3 & H)].
  - destruct (decide (i = 5%nat)) as [-> | Hi]; [| discriminate].
    destruct E as [(E & [E' | E']) | (E & _)]; simpl in *; lia.
  - apply bind_Exit_inv in H as [H | (u3 & s4 & _ & H)].
    { by apply free_first_no_exit in H. }
    unfold array_load in H. destruct (address !! i); discriminate.
Qed.

(** ** The effect registry *)

(** A registration takes a fresh address from the allocator, fills the
    effect and makes it the head of the registry; nothing else changes. *)
Lemma rebx_add_effect_Done rebx name s e s' :
  rebx_add_effect rebx name s = Done e s' →
  ∃ x o',
    e ≠ NULL ∧ rebx ≠ NULL ∧ e ≠ rebx ∧ heap s !! e = None ∧
    heap s !! rebx = Some (CExtras x) ∧
    s' = set_oracle o'
           (written e (CEffect (new_effect name rebx (x_effects x)))
              (written rebx (CExtras (set_x_effects e x)) s)).
Proof.
  unfold rebx_add_effect. intros H.
  exec_malloc H e0.
  { exec H. }
  do 8 exec H.
  apply bind_Done_inv in H as (u & s1 & E & H).
  apply mret_Done in H as (-> & ->).
  apply store_particle_ap_Done in E as (_ & c & Hc & E).
  tidy.
  eexists _, _. split_and!; eauto.
Qed.
Lemma effect_seg_frame h h' a l :
  effect_seg h a l →
  (∀ b e, h !! b = Some (CEffect e) → h' !! b = Some (CEffect e)) →
  effect_seg h' a l.
Proof.
  intros H Hf. revert a H. induction l as [| [b e] l IH]; intros a; simpl.
  - done.
  - intros (-> & Hb & Hc & Hl). split_and!; auto.
Qed.

(** Settle a lookup in a state given by the stores that led to it. *)
Ltac look :=
  cbn [heap written set_heap set_oracle set_messages set_stderr set_trace];
  repeat first [ rewrite lookup_insert_eq
               | rewrite lookup_insert_ne by congruence ];
  try done.

Lemma rebx_init_Done sim s rebx s0 :
  rebx_init sim s = Done rebx s0 → registry s0 sim rebx [].
Proof.
  unfold rebx_init. intros H.
  exec H. apply bind_Done_inv in H as (u & s1 & E & H).
  apply mret_Done in H as (-> & ->).
  unfold rebx_initialize in E.
  do 3 exec E.
  apply bind_Done_inv in E as (u1 & s2 & Ew & E).
  destruct (decide _); last_step Ew; do 3 exec E; last_step E.
  all: split; [done |]; split; [done |]; eexists _, _.
  all: split_and!; [look | | look | |]; done.
Qed.

Lemma effect_seg_written s a c hd l :
  effect_seg (heap s) hd l →
  (∀ e, heap s !! a ≠ Some (CEffect e)) →
  effect_seg (heap (written a c s)) hd l.
Proof.
  intros H Ha. eapply effect_seg_frame; [exact H |].
  intros b e Hb. rewrite lookup_written.
  destruct (decide (a = b)) as [-> | _]; [by apply Ha in Hb | done].
Qed.

Lemma registry_push s s' sim rebx l e eff x :
  registry s sim rebx l →
  heap s !! rebx = Some (CExtras x) →
  e ≠ NULL →
  heap s' !! e = Some (CEffect eff) →
  e_next eff = x_effects x →
  heap s' !! rebx = Some (CExtras (set_x_effects e x)) →
  (∃ r', heap s' !! sim = Some (CSim r') ∧ sim_extras r' = rebx) →
  (∀ b e0, heap s !! b = Some (CEffect e0) → heap s' !! b = Some (CEffect e0)) →
  registry s' sim rebx ((e, eff) :: l).
Proof.
  intros (Hsim & Hrebx & r0 & x0 & Hr0 & Hext & Hx0 & Hxs & Hseg) Hx He Heff Hnext
    Hx' (r' & Hr' & Hext') Hframe.
  assert (x0 = x) as -> by congruence.
  split; [done |]. split; [done |]. exists r', (set_x_effects e x).
  split_and!; try done. simpl. split_and!; try done.
  rewrite Hnext. eapply effect_seg_frame; eauto.
Qed.

Lemma registry_sim s sim rebx l :
  registry s sim rebx l →
  ∃ r x, sim ≠ NULL ∧ rebx ≠ NULL ∧ heap s !! sim = Some (CSim r) ∧
         sim_extras r = rebx ∧ heap s !! rebx = Some (CExtras x) ∧ x_sim x = sim.
Proof. intros (? & ? & r & x & ? & ? & ? & ? & ?). exists r, x. done. Qed.

(** A lookup that a store at another kind of cell leaves alone. *)
Ltac look_frame :=
  cbn [heap written set_heap set_oracle set_messages set_stderr set_trace];
  repeat (rewrite lookup_insert_ne; [| intros ->; congruence]);
  try done.

Ltac by_layout :=
  autounfold with fields; unfold new_effect; autounfold with fields;
  destruct layout; done.

Ltac pushed :=
  eexists; split;
  [ eapply registry_push; eauto;
    [ look | by_layout | look
    | eexists; split; [look; look_frame | by fields]
    | intros ? ? ?; look_frame ]
  | by_layout ].

(** A registration puts the new effect in front of the registry. *)
Lemma register_Done rebx r s e s' sim l :
  registry s sim rebx l →
  register rebx r s = Done e s' →
  ∃ eff,
    registry s' sim rebx ((e, eff) :: l) ∧
    e_hash eff = reb_hash (reg_name r) ∧
    e_force eff = reg_force r ∧ e_ptm eff = reg_ptm r ∧
    trace s' = trace s ∧ messages s' = messages s ∧ stderr s' = stderr s.
Proof.
  intros Hreg H.
  destruct (registry_sim _ _ _ _ Hreg) as (r0 & x & Hsim & Hrebx & Hr0 & Hext & Hx & Hxs).
  assert (sim ≠ rebx) as Hsr by (intros ->; congruence).
  destruct r as [name | name f v | name f]; simpl in H.
  - unfold rebx_add in H.
    apply bind_Done_inv in H as (e0 & s1 & E & H).
    apply rebx_add_effect_Done in E as (x' & o' & He & _ & Hne & Hfresh & Hx' & ->).
    exec H. last_step H.
    pushed.
  - unfold rebx_add_custom_force in H.
    apply bind_Done_inv in H as (e0 & s1 & E & H).
    apply rebx_add_effect_Done in E as (x' & o' & He & _ & Hne & Hfresh & Hx' & ->).
    do 2 exec H. apply bind_Done_inv in H as (u & s2 & E & H).
    apply mret_Done in H as (-> & ->).
    destruct (decide (v = 0)); last_step E.
    + pushed.
    + change (x_sim (set_x_effects e0 x)) with (x_sim x) in *.
      rewrite Hxs in *. tidy. pushed.
  - unfold rebx_add_custom_post_timestep_modification in H.
    apply bind_Done_inv in H as (e0 & s1 & E & H).
    apply rebx_add_effect_Done in E as (x' & o' & He & _ & Hne & Hfresh & Hx' & ->).
    exec H. last_step H.
    pushed.
Qed.

Lemma dispatched_cons sel a e l :
  dispatched sel ((a, e) :: l) =
  (if decide (sel e = fn_NULL) then [] else [e_hash e]) ++ dispatched sel l.
Proof.
  unfold dispatched. rewrite filter_cons. simpl.
  destruct (decide (sel e ≠ fn_NULL)), (decide (sel e = fn_NULL)); done.
Qed.

Lemma present_cons sel r rs :
  present sel (r :: rs) =
  (if decide (sel r = fn_NULL) then [] else [reb_hash (reg_name r)]) ++ present sel rs.
Proof.
  unfold present. rewrite filter_cons. simpl.
  destruct (decide (sel r ≠ fn_NULL)), (decide (sel r = fn_NULL)); done.
Qed.

(** After the registrations [rs] the registry holds them in reverse order,
    in front of what it held. *)
Lemma register_all_Done rebx rs s s' sim l0 :
  registry s sim rebx l0 →
  register_all rebx rs s = Done () s' →
  ∃ l,
    registry s' sim rebx l ∧
    dispatched e_force l = reverse (present reg_force rs) ++ dispatched e_force l0 ∧
    dispatched e_ptm l = reverse (present reg_ptm rs) ++ dispatched e_ptm l0 ∧
    length l = (length rs + length l0)%nat ∧
    trace s' = trace s.
Proof.
  revert s l0. induction rs as [| r rs IH]; intros s l0 Hreg; simpl.
  - intros [= <-]. exists l0. done.
  - intros H. apply bind_Done_inv in H as (e & s1 & E & H).
    destruct (register_Done _ _ _ _ _ _ _ Hreg E)
      as (eff & Hreg1 & Hh & Hf & Hp & Htr & _).
    destruct (IH _ _ Hreg1 H) as (l & Hl & Hdf & Hdp & Hlen & Htr').
    exists l. split; [done |].
    rewrite Hdf, Hdp, !dispatched_cons, !present_cons, !reverse_app, Hh, Hf, Hp.
    split_and!.
    + rewrite <- app_assoc. f_equal. by destruct (decide (reg_force r = fn_NULL)).
    + rewrite <- app_assoc. f_equal. by destruct (decide (reg_ptm r = fn_NULL)).
    + rewrite Hlen. simpl. lia.
    + congruence.
Qed.

Section Dispatch.

(** Every callback is a tracer. *)
Hypothesis call_tracer :
  ∀ f sim effect s, f ≠ fn_NULL → call f sim effect s = append_identity effect s.

Lemma append_identity_eq a e s :
  a ≠ NULL → heap s !! a = Some (CEffect e) →
  append_identity a s = Done () (set_trace (trace s ++ [e_hash e]) s).
Proof.
  intros Ha He. unfold append_identity.
  rewrite (bind_Done _ _ _ _ _ (load_effect_eq _ _ _ Ha He)). reflexivity.
Qed.

Lemma set_trace_set_trace t t' s : set_trace t (set_trace t' s) = set_trace t s.
Proof. reflexivity. Qed.

Lemma set_trace_same s : set_trace (trace s) s = s.
Proof. by destruct s. Qed.

(** One pass of [rebx_forces] over a registry, front to back. *)
Lemma rebx_forces_loop_eq fuel sim a l s :
  effect_seg (heap s) a l →
  (length l < fuel)%nat →
  rebx_forces_loop fuel sim a s =
  Done () (set_trace (trace s ++ dispatched e_force l) s).
Proof.
  revert fuel a s. induction l as [| [b e] l IH]; intros fuel a s; simpl.
  - intros -> Hfuel. destruct fuel; [lia |]. simpl.
    unfold dispatched. simpl. by rewrite app_nil_r, set_trace_same.
  - intros (-> & Hb & He & Hl) Hfuel. destruct fuel as [| fuel]; [lia |]. simpl.
    destruct (decide (b = 0)); [done |].
    rewrite (bind_Done _ _ _ _ _ (load_effect_eq _ _ _ Hb He)).
    rewrite dispatched_cons.
    destruct (decide (e_force e = fn_NULL)) as [Hf | Hf].
    + rewrite (bind_Done _ _ s () s) by reflexivity.
      rewrite (bind_Done _ _ _ _ _ (load_effect_eq _ _ _ Hb He)).
      apply IH; [done | lia].
    + rewrite (bind_Done _ _ s () (set_trace (trace s ++ [e_hash e]) s)).
      2:{ rewrite call_tracer by done. by apply append_identity_eq. }
      rewrite (bind_Done _ _ _ e (set_trace (trace s ++ [e_hash e]) s)).
      2:{ by apply load_effect_eq. }
      rewrite IH; [| done | lia].
      simpl. by rewrite set_trace_set_trace, <- app_assoc.
Qed.

Lemma rebx_post_timestep_modifications_loop_eq fuel sim a l s :
  effect_seg (heap s) a l →
  (length l < fuel)%nat →
  rebx_post_timestep_modifications_loop fuel sim a s =
  Done () (set_trace (trace s ++ dispatched e_ptm l) s).
Proof.
  revert fuel a s. induction l as [| [b e] l IH]; intros fuel a s; simpl.
  - intros -> Hfuel. destruct fuel; [lia |]. simpl.
    unfold dispatched. simpl. by rewrite app_nil_r, set_trace_same.
  - intros (-> & Hb & He & Hl) Hfuel. destruct fuel as [| fuel]; [lia |]. simpl.
    destruct (decide (b = 0)); [done |].
    rewrite (bind_Done _ _ _ _ _ (load_effect_eq _ _ _ Hb He)).
    rewrite dispatched_cons.
    destruct (decide (e_ptm e = fn_NULL)) as [Hf | Hf].
    + rewrite (bind_Done _ _ s () s) by reflexivity.
      rewrite (bind_Done _ _ _ _ _ (load_effect_eq _ _ _ Hb He)).
      apply IH; [done | lia].
    + rewrite (bind_Done _ _ s () (set_trace (trace s ++ [e_hash e]) s)).
      2:{ rewrite call_tracer by done. by apply append_identity_eq. }
      rewrite (bind_Done _ _ _ e (set_trace (trace s ++ [e_hash e]) s)).
      2:{ by apply load_effect_eq. }
      rewrite IH; [| done | lia].
      simpl. by rewrite set_trace_set_trace, <- app_assoc.
Qed.

(** C1 (as amended). For every sequence of registrations made in order on a
    freshly initialised extras structure, with every callback a tracer that
    appends the identity of its effect to the shared trace, one pass of
    [rebx_forces] appends the identities of the effects that have a force
    callback in the reverse of the registration order (the effect
    registered last runs first), and one pass of
    [rebx_post_timestep_modifications] does the same for the effects that
    have a post-timestep callback; effects whose callback is null are
    skipped.  Any number of steps above the number of registrations
    suffices for the walk. *)
Theorem dispatch_reverse_registration_order sim rs s rebx s0 s1 fuel :
  rebx_init sim s = Done rebx s0 →
  register_all rebx rs s0 = Done () s1 →
  (length rs < fuel)%nat →
  rebx_forces fuel sim s1 =
    Done () (set_trace (trace s1 ++ reverse (present reg_force rs)) s1) ∧
  rebx_post_timestep_modifications fuel sim s1 =
    Done () (set_trace (trace s1 ++ reverse (present reg_ptm rs)) s1).
Proof.
  intros Hinit Hregs Hfuel.
  apply rebx_init_Done in Hinit.
  destruct (register_all_Done _ _ _ _ _ _ Hinit Hregs)
    as (l & (Hsim & Hrebx & r & x & Hr & Hext & Hx & _ & Hseg) & Hdf & Hdp & Hlen & _).
  unfold dispatched at 2 in Hdf. unfold dispatched at 2 in Hdp.
  simpl in Hdf, Hdp, Hlen. rewrite app_nil_r in Hdf, Hdp.
  unfold rebx_forces, rebx_post_timestep_modifications.
  rewrite !(bind_Done _ _ _ _ _ (load_sim_eq _ _ _ Hsim Hr)), Hext.
  rewrite !(bind_Done _ _ _ _ _ (load_extras_eq _ _ _ Hrebx Hx)).
  rewrite <- Hdf, <- Hdp.
  split; [apply rebx_forces_loop_eq | apply rebx_post_timestep_modifications_loop_eq];
    (done || lia).
Qed.

End Dispatch.

(** C6 (as amended). [rebx_add] resolves no builtin name (that code is
    commented out): for every name, recognised or not, a call that returns
    has put a new effect with the hash of the name at the head of the
    registry, with both callbacks null; every simulation, and with it the
    velocity-dependence flag, is as before, and nothing is reported on the
    host's error channel or on [stderr]. *)
Theorem rebx_add_registers_unwired rebx name s e s' :
  rebx_add rebx name s = Done e s' →
  (∃ x eff,
     heap s !! rebx = Some (CExtras x) ∧
     heap s' !! rebx = Some (CExtras (set_x_effects e x)) ∧
     heap s' !! e = Some (CEffect eff) ∧
     e_hash eff = reb_hash name ∧ e_next eff = x_effects x ∧
     e_force eff = fn_NULL ∧ e_ptm eff = fn_NULL) ∧
  (∀ a r, heap s !! a = Some (CSim r) → heap s' !! a = Some (CSim r)) ∧
  messages s' = messages s ∧ stderr s' = stderr s.
Proof.
  unfold rebx_add. intros H.
  apply bind_Done_inv in H as (e0 & s1 & E & H).
  apply rebx_add_effect_Done in E as (x & o' & He & Hrebx & Hne & Hfresh & Hx & ->).
  exec H. last_step H.
  split_and!; try done.
  - exists x, (new_effect name rebx (x_effects x)).
    split_and!; try by_layout; look.
  - intros a r Ha. look_frame.
Qed.

(** ** Parameter stores as lists *)

Lemma list_seg_functional h a l1 l2 :
  list_seg h a l1 → list_seg h a l2 → l1 = l2.
Proof.
  revert a l2. induction l1 as [| [b n] l1 IH]; intros a [| [b' n'] l2]; simpl.
  - done.
  - intros -> (<- & ? & _). done.
  - intros (<- & ? & _) ->. done.
  - intros (<- & _ & Hn & H1) (<- & _ & Hn' & H2).
    assert (n' = n) as -> by congruence. f_equal. eauto.
Qed.

Lemma list_seg_suffix h a l b n :
  list_seg h a l → (b, n) ∈ l → ∃ l1 l2, l = l1 ++ (b, n) :: l2 ∧ list_seg h b ((b, n) :: l2).
Proof.
  revert a. induction l as [| [c m] l IH]; intros a; simpl.
  - intros _ H. by apply elem_of_nil in H.
  - intros (-> & Hc & Hm & Hl) Hin. apply elem_of_cons in Hin as [[= -> ->] | Hin].
    + exists [], l. done.
    + destruct (IH _ Hl Hin) as (l1 & l2 & -> & H2).
      exists ((c, m) :: l1), l2. done.
Qed.

Lemma list_seg_NoDup h a l : list_seg h a l → NoDup l.*1.
Proof.
  revert a. induction l as [| [b n] l IH]; intros a; simpl.
  - intros _. constructor.
  - intros (-> & Hb & Hn & Hl). constructor; [| eauto].
    intros Hin. apply list_elem_of_fmap in Hin as ([b' n'] & Heq & Hin).
    simpl in Heq. subst b'.
    destruct (list_seg_suffix _ _ _ _ _ Hl Hin) as (l1 & l2 & -> & H2).
    assert (list_seg h b ((b, n) :: l1 ++ (b, n') :: l2)) as H1 by done.
    pose proof (list_seg_functional _ _ _ _ H1 H2) as Heq.
    apply (f_equal length) in Heq. simpl in Heq. rewrite length_app in Heq.
    simpl in Heq. lia.
Qed.

Lemma list_seg_lookup h a l b n :
  list_seg h a l → (b, n) ∈ l → b ≠ NULL ∧ h !! b = Some (CParam n).
Proof.
  revert a. induction l as [| [c m] l IH]; intros a; simpl.
  - intros _ H. by apply elem_of_nil in H.
  - intros (-> & Hc & Hm & Hl) Hin. apply elem_of_cons in Hin as [[= -> ->] | Hin]; eauto.
Qed.

Lemma list_seg_length h a l : list_seg h a l → (length l ≤ size h)%nat.
Proof.
  intros H. pose proof (list_seg_NoDup _ _ _ H) as Hnd.
  rewrite <- (length_fmap fst), <- (size_list_to_set (C := gset Z)) by done.
  rewrite <- size_dom. apply subseteq_size.
  intros b Hb. apply elem_of_list_to_set, list_elem_of_fmap in Hb as ([b' n] & -> & Hin).
  apply (list_seg_lookup _ _ _ _ _ H) in Hin as (_ & Hin).
  by apply elem_of_dom_2 in Hin.
Qed.

Lemma list_seg_frame h h' a l :
  list_seg h a l →
  (∀ b n, (b, n) ∈ l → h' !! b = Some (CParam n)) →
  list_seg h' a l.
Proof.
  revert a. induction l as [| [b n] l IH]; intros a; simpl.
  - done.
  - intros (-> & Hb & Hn & Hl) Hf. split_and!; try done.
    + apply Hf. left.
    + apply IH; [done |]. intros b' n' Hin. apply Hf. by right.
Qed.

(** ** Lookup *)

Lemma rebx_get_param_node_loop_eq fuel h a l s :
  list_seg (heap s) a l →
  (length l ≤ fuel)%nat →
  rebx_get_param_node_loop fuel h a s = Done (find_node h l) s.
Proof.
  revert fuel a. induction l as [| [b n] l IH]; intros fuel a; simpl.
  - intros -> _. by destruct fuel.
  - intros (-> & Hb & Hn & Hl) Hfuel. destruct fuel as [| fuel]; [lia |]. simpl.
    destruct (decide (b = 0)); [done |].
    rewrite (bind_Done _ _ _ _ _ (load_param_eq _ _ _ Hb Hn)).
    destruct (decide (p_hash n = h)); [done |].
    apply IH; [done | lia].
Qed.

Lemma store_head_Some s o a :
  store_head s o = Some a →
  ∃ w, kind_word s o = Some w ∧
    (w = enum_EFFECT ∧ (∃ e, o ≠ NULL ∧ heap s !! o = Some (CEffect e) ∧ e_ap e = a) ∨
     w ≠ enum_EFFECT ∧ a = w).
Proof.
  unfold store_head. destruct (kind_word s o) as [w |] eqn:Hw; [| done].
  intros H. exists w. split; [done |].
  destruct (decide (w = enum_EFFECT)) as [-> | Hne].
  - left. split; [done |]. unfold kind_word in Hw.
    destruct (decide (o = 0)); [done |].
    destruct (heap s !! o) as [[] |]; try done. injection H as <-. eauto.
  - right. injection H as <-. done.
Qed.

(** The switch on the kind of the object, common to the three functions:
    it yields the head of the store. *)
Lemma rebx_get_param_node_eq o name s a :
  store_head s o = Some a →
  rebx_get_param_node o name s =
  rebx_get_param_node_loop (walk_bound s) (reb_hash name) a s.
Proof.
  intros H. apply store_head_Some in H as (w & Hw & H).
  unfold rebx_get_param_node.
  rewrite (bind_Done _ _ _ _ _ (rebx_get_object_type_eq _ _ _ Hw)).
  destruct H as [(-> & e & Ho & He & <-) | (Hne & ->)].
  - destruct (decide (enum_EFFECT = enum_EFFECT)); [| done].
    rewrite (bind_Done _ _ s (e_ap e) s); [done |].
    by rewrite (bind_Done _ _ _ _ _ (load_effect_eq _ _ _ Ho He)).
  - destruct (decide (w = enum_EFFECT)); [done |].
    by rewrite (bind_Done _ _ _ _ _ (load_particle_ap_eq _ _ _ Hw)).
Qed.

Lemma rebx_get_param_node_Done o name s r s' :
  rebx_get_param_node o name s = Done r s' →
  ∃ a, store_head s o = Some a ∧
       rebx_get_param_node_loop (walk_bound s) (reb_hash name) a s = Done r s'.
Proof.
  unfold rebx_get_param_node. intros H.
  exec H. unfold store_head.
  match goal with Hk : kind_word _ _ = Some ?w |- _ => rename Hk into Hw; rewrite Hw end.
  destruct (decide (_ = enum_EFFECT)).
  - apply bind_Done_inv in H as (a & s1 & E & H).
    exec E. last_step E.
    match goal with He : heap _ !! _ = Some (CEffect _) |- _ => rewrite He end.
    subst. eauto.
  - apply bind_Done_inv in H as (a & s1 & E & H). last_step E. subst. eauto.
Qed.

(** ** Removal *)

Lemma upd_param_eq a f s n :
  a ≠ NULL → heap s !! a = Some (CParam n) →
  upd_param a f s = Done () (written a (CParam (f n)) s).
Proof.
  intros Ha Hn. unfold upd_param.
  rewrite (bind_Done _ _ _ _ _ (deref_eq _ _ _ Ha Hn)). reflexivity.
Qed.

Lemma same_output_refl s : same_output s s.
Proof. done. Qed.

Lemma remove_node_skip h b n b' n' l :
  p_hash n ≠ h →
  remove_node h ((b, n) :: (b', n') :: l) =
  if decide (p_hash n' = h) then (b, set_p_next (p_next n') n) :: l
  else (b, n) :: remove_node h ((b', n') :: l).
Proof. intros H. cbn [remove_node]. by destruct (decide (p_hash n = h)). Qed.

Lemma remove_node_head h b n l :
  p_hash n ≠ h → ∃ m l', remove_node h ((b, n) :: l) = (b, m) :: l'.
Proof.
  intros H. destruct l as [| [b' n'] l].
  - cbn [remove_node]. destruct (decide (p_hash n = h)); [done | eauto].
  - rewrite remove_node_skip by done. destruct (decide (p_hash n' = h)); eauto.
Qed.

(** The scan of [rebx_remove_param] behind a head that does not match. *)
Lemma rebx_remove_param_loop_eq fuel h b n l s :
  list_seg (heap s) b ((b, n) :: l) →
  p_hash n ≠ h →
  (length l < fuel)%nat →
  ∃ s',
    rebx_remove_param_loop fuel h b s =
      Done (if decide (find_node h l = NULL) then 0 else 1) s' ∧
    list_seg (heap s') b (remove_node h ((b, n) :: l)) ∧
    (∀ a, a ∉ ((b, n) :: l).*1 → heap s' !! a = heap s !! a) ∧
    same_output s s' ∧ oracle s' = oracle s.
Proof.
  revert fuel b n s. induction l as [| [b' n'] l IH]; intros fuel b n s Hseg Hh Hfuel.
  - destruct Hseg as (_ & Hb & Hn & Hnext). simpl in Hnext.
    destruct fuel as [| fuel]; [simpl in Hfuel; lia |]. simpl.
    rewrite (bind_Done _ _ _ _ _ (load_param_eq _ _ _ Hb Hn)).
    destruct (decide (p_next n = 0)); [| done].
    exists s. destruct (decide (p_hash n = h)); [done |].
    split_and!; done.
  - pose proof (list_seg_NoDup _ _ _ Hseg) as Hnd.
    destruct Hseg as (_ & Hb & Hn & Hnext).
    pose proof Hnext as (Hb' & Hb'0 & Hn' & Hrest).
    destruct fuel as [| fuel]; [simpl in Hfuel; lia |].
    cbn [rebx_remove_param_loop].
    rewrite (bind_Done _ _ _ _ _ (load_param_eq _ _ _ Hb Hn)).
    destruct (decide (p_next n = 0)) as [Hz | _]; [congruence |].
    rewrite Hb'.
    rewrite (bind_Done _ _ _ _ _ (load_param_eq _ _ _ Hb'0 Hn')).
    simpl in Hnd. apply NoDup_cons in Hnd as (Hnotin & Hnd).
    apply not_elem_of_cons in Hnotin as (Hbb' & Hnotin).
    cbn [find_node]. rewrite remove_node_skip by done.
    destruct (decide (p_hash n' = h)) as [Hm | Hm].
    + rewrite (bind_Done _ _ _ _ _ (upd_param_eq _ _ _ _ Hb Hn)).
      eexists. split.
      { destruct (decide (b' = 0)); [done | reflexivity]. }
      split_and!; try done.
      * simpl. split_and!; try done; [look |].
        eapply list_seg_frame; [exact Hrest |].
        intros c m Hin. pose proof (list_seg_lookup _ _ _ _ _ Hrest Hin) as (_ & Hc).
        cbn [heap written set_heap]. rewrite lookup_insert.
        destruct (decide (b = c)) as [-> | _]; [| done].
        exfalso. apply Hnotin. apply list_elem_of_fmap. by exists (c, m).
      * intros a Ha. cbn [heap written set_heap]. rewrite lookup_insert.
        destruct (decide (b = a)) as [-> | _]; [| done].
        exfalso. apply Ha. simpl. left.
    + destruct (IH fuel b' n' s) as (s' & Heq & Hseg' & Hframe & Hout & Hor);
        [done | done | simpl in Hfuel; lia |].
      exists s'. split; [exact Heq |].
      split_and!; try done.
      * assert (heap s' !! b = Some (CParam n)) as Hn1.
        { rewrite Hframe; [done |]. simpl. by apply not_elem_of_cons. }
        destruct (remove_node_head h b' n' l Hm) as (m & l2 & Hrm).
        rewrite Hrm in Hseg' |- *.
        destruct Hseg' as (_ & ? & ? & ?).
        cbn [list_seg]. split_and!; done.
      * intros a Ha. apply Hframe. intros Hin. apply Ha. simpl. by right.
Qed.

Lemma upd_effect_eq a f s e :
  a ≠ NULL → heap s !! a = Some (CEffect e) →
  upd_effect a f s = Done () (written a (CEffect (f e)) s).
Proof.
  intros Ha He. unfold upd_effect.
  rewrite (bind_Done _ _ _ _ _ (deref_eq _ _ _ Ha He)). reflexivity.
Qed.

Lemma kind_word_Some s o w :
  kind_word s o = Some w →
  o ≠ NULL ∧ ∃ c, heap s !! o = Some c ∧
    match c with
    | CParticle p => w = pt_ap p
    | CEffect e => w = effect_view_ap e
    | _ => False
    end.
Proof.
  unfold kind_word. destruct (decide (o = 0)); [done |].
  destruct (heap s !! o) as [c |]; [| done].
  intros H. split; [done |]. exists c. split; [done |].
  destruct c; try done; by injection H.
Qed.

Lemma store_particle_ap_eq o v s w :
  kind_word s o = Some w →
  w ≠ enum_EFFECT →
  ∃ c, heap s !! o = Some c ∧
       store_particle_ap o v s = Done () (written o (set_head v c) s).
Proof.
  intros Hw Hne. apply kind_word_Some in Hw as (Ho & c & Hc & Hw).
  exists c. split; [done |]. unfold store_particle_ap.
  rewrite (bind_Done _ _ _ _ _ (deref_eq _ _ _ Ho Hc)).
  destruct c; try done. simpl.
  destruct (decide (effect_view_ap e = enum_EFFECT)); [congruence | done].
Qed.

Lemma list_seg_not_object (s : state) a l o w :
  list_seg (heap s) a l → kind_word s o = Some w → o ∉ l.*1.
Proof.
  intros Hseg Hw Hin. apply kind_word_Some in Hw as (_ & c & Hc & Hw).
  apply list_elem_of_fmap in Hin as ([b n] & -> & Hin).
  apply (list_seg_lookup _ _ _ _ _ Hseg) in Hin as (_ & Hin).
  simpl in Hc. rewrite Hin in Hc. injection Hc as <-. done.
Qed.

Lemma list_seg_written s a l o c :
  list_seg (heap s) a l → o ∉ l.*1 → list_seg (heap (written o c s)) a l.
Proof.
  intros Hseg Ho. eapply list_seg_frame; [exact Hseg |].
  intros b n Hin. rewrite lookup_written.
  destruct (decide (o = b)) as [-> | _].
  - exfalso. apply Ho. apply list_elem_of_fmap. by exists (b, n).
  - by apply (list_seg_lookup _ _ _ _ _ Hseg) in Hin as (_ & Hin).
Qed.

(** [rebx_remove_param] on a store that is not empty: it returns, with 1
    when a node has the hash of the name and 0 otherwise, and the store is
    left without the first such node. *)
Lemma rebx_remove_param_eq o name s b n l :
  store_head s o = Some b →
  list_seg (heap s) b ((b, n) :: l) →
  ∃ s',
    rebx_remove_param o name s =
      Done (if decide (find_node (reb_hash name) ((b, n) :: l) = NULL) then 0 else 1) s' ∧
    (∃ c, heap s !! o = Some c ∧
          heap s' !! o =
            Some (if decide (p_hash n = reb_hash name) then set_head (p_next n) c else c)) ∧
    list_seg (heap s') (if decide (p_hash n = reb_hash name) then p_next n else b)
      (remove_node (reb_hash name) ((b, n) :: l)) ∧
    (∀ a, a ≠ o → a ∉ ((b, n) :: l).*1 → heap s' !! a = heap s !! a) ∧
    same_output s s' ∧ oracle s' = oracle s.
Proof.
  intros Hhead Hseg.
  pose proof (list_seg_length _ _ _ Hseg) as Hlen.
  pose proof Hseg as (_ & Hb & Hn & Hrest).
  apply store_head_Some in Hhead as (w & Hw & Hhead).
  pose proof (list_seg_not_object _ _ _ _ _ Hseg Hw) as Hnotin.
  pose proof (kind_word_Some _ _ _ Hw) as (Ho & c & Hc & Hcw).
  unfold rebx_remove_param.
  rewrite (bind_Done _ _ _ _ _ (rebx_get_object_type_eq _ _ _ Hw)).
  destruct (decide (p_hash n = reb_hash name)) as [Hm | Hm].
  - (* the head is the node *)
    assert (find_node (reb_hash name) ((b, n) :: l) = b) as ->.
    { cbn [find_node]. by destruct (decide (p_hash n = reb_hash name)). }
    assert (remove_node (reb_hash name) ((b, n) :: l) = l) as ->.
    { cbn [remove_node]. by destruct (decide (p_hash n = reb_hash name)). }
    destruct (decide (b = 0)); [done |].
    exists (written o (set_head (p_next n) c) s).
    split_and!; try done.
    + rewrite (bind_Done _ _ s (b, true) (written o (set_head (p_next n) c) s));
        [reflexivity |].
      { destruct Hhead as [(-> & e & _ & He & Hap) | (Hwne & Hbw)]; [| subst w].
        * destruct (decide (enum_EFFECT = enum_EFFECT)); [| done].
          assert (c = CEffect e) as -> by congruence.
          rewrite (bind_Done _ _ _ _ _ (load_effect_eq _ _ _ Ho He)), Hap.
          rewrite (bind_Done _ _ _ _ _ (load_param_eq _ _ _ Hb Hn)).
          destruct (decide (p_hash n = reb_hash name)); [| done].
          rewrite (bind_Done _ _ _ _ _ (upd_effect_eq _ _ _ _ Ho He)).
          simpl. by destruct (decide (effect_view_ap e = enum_EFFECT)).
        * destruct (decide (b = enum_EFFECT)); [done |].
          rewrite (bind_Done _ _ _ _ _ (load_particle_ap_eq _ _ _ Hw)).
          rewrite (bind_Done _ _ _ _ _ (load_param_eq _ _ _ Hb Hn)).
          destruct (decide (p_hash n = reb_hash name)); [| done].
          destruct (store_particle_ap_eq o (p_next n) s b Hw Hwne) as (c' & Hc' & Hst).
          rewrite (bind_Done _ _ _ _ _ Hst).
          by assert (c' = c) as -> by congruence. }
    + exists c. split; [done |]. by rewrite lookup_written, decide_True.
    + apply list_seg_written; [done |].
      simpl in Hnotin. by apply not_elem_of_cons in Hnotin as (_ & ?).
    + intros a Ha _. by rewrite lookup_written, decide_False.
  - (* the scan *)
    assert (find_node (reb_hash name) ((b, n) :: l) = find_node (reb_hash name) l) as ->.
    { cbn [find_node]. by destruct (decide (p_hash n = reb_hash name)). }
    destruct (rebx_remove_param_loop_eq (walk_bound s) (reb_hash name) b n l s)
      as (s' & Heq & Hseg' & Hframe & Hout & Hor);
      [done | done | unfold walk_bound; simpl in Hlen; lia |].
    exists s'. split_and!; try done.
    + erewrite (bind_Done _ _ s (b, false) s); [exact Heq |].
      destruct Hhead as [(-> & e & _ & He & Hap) | (Hwne & Hbw)]; [| subst w].
      * destruct (decide (enum_EFFECT = enum_EFFECT)); [| done].
        rewrite (bind_Done _ _ _ _ _ (load_effect_eq _ _ _ Ho He)), Hap.
        rewrite (bind_Done _ _ _ _ _ (load_param_eq _ _ _ Hb Hn)).
        by destruct (decide (p_hash n = reb_hash name)).
      * destruct (decide (b = enum_EFFECT)); [done |].
        rewrite (bind_Done _ _ _ _ _ (load_particle_ap_eq _ _ _ Hw)).
        rewrite (bind_Done _ _ _ _ _ (load_param_eq _ _ _ Hb Hn)).
        by destruct (decide (p_hash n = reb_hash name)).
    + exists c. split; [done |]. by rewrite Hframe.
    + intros a _ Ha. by apply Hframe.
Qed.

(** On an empty store the head that is inspected is [NULL]. *)
Lemma rebx_remove_param_empty o name s :
  store_head s o = Some NULL →
  rebx_remove_param o name s = Undefined NullDeref.
Proof.
  intros Hhead. apply store_head_Some in Hhead as (w & Hw & Hhead).
  unfold rebx_remove_param.
  rewrite (bind_Done _ _ _ _ _ (rebx_get_object_type_eq _ _ _ Hw)).
  apply bind_Undefined.
  destruct Hhead as [(-> & e & Ho & He & Hap) | (Hwne & Hbw)]; [| subst w].
  - destruct (decide (enum_EFFECT = enum_EFFECT)); [| done].
    rewrite (bind_Done _ _ _ _ _ (load_effect_eq _ _ _ Ho He)), Hap. reflexivity.
  - destruct (decide (0 = enum_EFFECT)); [done |].
    rewrite (bind_Done _ _ _ _ _ (load_particle_ap_eq _ _ _ Hw)). reflexivity.
Qed.

Lemma lookup_restrict X s a :
  a ∈ X → heap (restrict X s) !! a = heap s !! a.
Proof.
  intros Ha. unfold restrict. rewrite heap_set_heap.
  destruct (heap s !! a) as [c |] eqn:Hc.
  - by apply map_lookup_filter_Some_2.
  - apply map_lookup_filter_None_2. by left.
Qed.

Lemma store_head_restrict X s o :
  o ∈ X → store_head (restrict X s) o = store_head s o.
Proof.
  intros Ho. unfold store_head, kind_word. by rewrite lookup_restrict.
Qed.

Lemma list_seg_restrict X s a l :
  list_seg (heap s) a l → list_to_set l.*1 ⊆ X → list_seg (heap (restrict X s)) a l.
Proof.
  intros Hseg HX. eapply list_seg_frame; [exact Hseg |].
  intros b n Hin. rewrite lookup_restrict.
  - by apply (list_seg_lookup _ _ _ _ _ Hseg) in Hin as (_ & Hin).
  - apply HX, elem_of_list_to_set, list_elem_of_fmap. by exists (b, n).
Qed.

(** C10. [rebx_remove_param] reads the hash of the head node without a test
    of the head against [NULL]: on an object whose store is empty the call
    dereferences [NULL]; on every object whose store holds at least one
    node it returns (0 or 1), and it does so reading nothing but the object
    and the nodes of that store, since it returns the same value on the
    heap cut down to these cells. *)
Theorem rebx_remove_param_needs_nonempty_store o name s a l :
  store_head s o = Some a →
  list_seg (heap s) a l →
  (l = [] → rebx_remove_param o name s = Undefined NullDeref) ∧
  (l ≠ [] →
   ∃ r s' s'',
     rebx_remove_param o name s = Done r s' ∧ (r = 0 ∨ r = 1) ∧
     rebx_remove_param o name (restrict ({[o]} ∪ list_to_set l.*1) s) = Done r s'').
Proof.
  intros Hhead Hseg. split.
  - intros ->. simpl in Hseg. subst a. by apply rebx_remove_param_empty.
  - intros Hne. destruct l as [| [b n] l]; [done |].
    pose proof Hseg as (-> & _).
    destruct (rebx_remove_param_eq o name s b n l Hhead Hseg) as (s' & Heq & _).
    set (X := ({[o]} ∪ list_to_set ((b, n) :: l).*1 : gset Z)).
    destruct (rebx_remove_param_eq o name (restrict X s) b n l) as (s'' & Heq' & _).
    { rewrite store_head_restrict; [done |].
      apply elem_of_union_l. by apply elem_of_singleton. }
    { apply list_seg_restrict; [done | apply union_subseteq_r]. }
    eexists _, s', s''. split; [exact Heq |]. split; [| exact Heq'].
    destruct (decide _); auto.
Qed.

(** ** What an attachment leaves alone *)

Lemma extends_refl s : extends s s.
Proof. by intros a c. Qed.

Lemma extends_unused s0 s a : extends s0 s → heap s !! a = None → unused s0 a.
Proof.
  intros Hext Ha. right. destruct (heap s0 !! a) as [c |] eqn:Hc; [| done].
  apply Hext in Hc. congruence.
Qed.

Lemma extends_written s0 s a c : extends s0 s → unused s0 a → a ≠ NULL → extends s0 (written a c s).
Proof.
  intros Hext [-> | Ha] Hnz; [done |]. intros b d Hb.
  rewrite lookup_written. destruct (decide (a = b)) as [-> | _]; [congruence |].
  by apply Hext.
Qed.

Lemma same_output_trans s1 s2 s3 : same_output s1 s2 → same_output s2 s3 → same_output s1 s3.
Proof. intros (? & ? & ?) (? & ? & ?). split_and!; congruence. Qed.

Lemma malloc_extends sz s a s' s0 :
  malloc sz s = Done a s' →
  extends s0 s →
  extends s0 s' ∧ unused s0 a ∧ same_output s s'.
Proof.
  intros H Hext. apply malloc_Done in H as (o' & -> & Ha).
  unfold allocated. destruct (decide (a = 0)) as [-> | Hnz].
  - split_and!; [done | by left | done].
  - pose proof (extends_unused _ _ _ Hext (Ha Hnz)) as Hu.
    split_and!; [| done | done].
    rewrite <- written_set_oracle. by apply extends_written.
Qed.

Lemma free_extends a s u s' s0 :
  free a s = Done u s' →
  extends s0 s → unused s0 a →
  extends s0 s' ∧ same_output s s'.
Proof.
  intros H Hext Hu. apply free_Done in H as [(-> & ->) | (Hnz & _ & ->)]; [done |].
  split; [| done]. destruct Hu as [-> | Hu]; [done |].
  intros b d Hb. rewrite heap_set_heap, lookup_delete_ne; [by apply Hext | congruence].
Qed.

Lemma validate_loop_extends todo i address s i' address' s' s0 :
  validate_loop todo i address s = Done (i', address') s' →
  extends s0 s → Forall (unused s0) address →
  extends s0 s' ∧ Forall (unused s0) address' ∧ same_output s s'.
Proof.
  revert i address s. induction todo as [| todo IH]; intros i address s; simpl.
  - intros [= <- <- <-]. done.
  - intros H Hext Hall. apply bind_Done_inv in H as (a & s1 & E & H).
    destruct (malloc_extends _ _ _ _ _ E Hext) as (Hext1 & Hu & Hout1).
    apply bind_Done_inv in H as (ad & s2 & E2 & H).
    apply array_store_Done in E2 as (Hi & -> & ->).
    assert (Forall (unused s0) (<[i:=a]> address)) as Hall'.
    { apply Forall_insert; done. }
    destruct (collision a).
    + destruct (IH _ _ _ H Hext1 Hall') as (? & ? & ?).
      split_and!; try done. by eapply same_output_trans.
    + injection H as <- <- <-. done.
Qed.

Lemma free_first_extends j i address s u s' s0 :
  free_first j i address s = Done u s' →
  extends s0 s → Forall (unused s0) address →
  extends s0 s' ∧ same_output s s'.
Proof.
  revert j s. induction i as [| i IH]; intros j s; simpl.
  - intros H Hext _. apply mret_Done in H as (_ & ->). done.
  - intros H Hext Hall. apply bind_Done_inv in H as (a & s1 & E & H).
    apply array_load_Done in E as (Ha & ->).
    apply bind_Done_inv in H as (u1 & s2 & E2 & H).
    assert (unused s0 a) as Hu.
    { eapply Forall_lookup_1; eauto. }
    destruct (free_extends _ _ _ _ _ E2 Hext Hu) as (Hext2 & Hout2).
    destruct (IH _ _ H Hext2 Hall) as (? & ?).
    split; [done |]. by eapply same_output_trans.
Qed.

(** The validator frees and allocates fresh memory only. *)
Lemma rebx_validate_ap_address_extends newparam s r s' s0 :
  rebx_validate_ap_address newparam s = Done r s' →
  extends s0 s → unused s0 newparam →
  extends s0 s' ∧ unused s0 r ∧ collision r = false ∧ same_output s s'.
Proof.
  intros H Hext Hu.
  pose proof (rebx_validate_ap_address_valid _ _ _ _ H) as Hvalid.
  unfold rebx_validate_ap_address in H.
  destruct (collision newparam).
  - apply bind_Done_inv in H as (u & s1 & E & H).
    destruct (free_extends _ _ _ _ _ E Hext Hu) as (Hext1 & Hout1).
    apply bind_Done_inv in H as ([i address] & s2 & E2 & H).
    destruct (validate_loop_extends _ _ _ _ _ _ _ _ E2 Hext1) as (Hext2 & Hall & Hout2).
    { apply Forall_replicate. by left. }
    apply bind_Done_inv in H as (u2 & s3 & E3 & H).
    assert (s3 = s2) as ->.
    { destruct (decide (i = 5%nat)); [discriminate E3 | by injection E3]. }
    apply bind_Done_inv in H as (u3 & s4 & E4 & H).
    destruct (free_first_extends _ _ _ _ _ _ _ E4 Hext2 Hall) as (Hext4 & Hout4).
    apply array_load_Done in H as (Hr & ->).
    split_and!; try done.
    + eapply Forall_lookup_1; eauto.
    + eauto using same_output_trans.
  - injection H as <- <-. done.
Qed.

Lemma rebx_get_param_node_loop_readonly fuel h a s r s' :
  rebx_get_param_node_loop fuel h a s = Done r s' → s' = s.
Proof.
  revert a. induction fuel as [| fuel IH]; intros a; simpl.
  - destruct (decide (a = 0)); [by intros [= <- <-] | done].
  - destruct (decide (a = 0)); [by intros [= <- <-] |].
    intros H. exec H. destruct (decide (_ = h)); [by injection H | eauto].
Qed.

Lemma rebx_get_param_Done o name s r s' :
  rebx_get_param o name s = Done r s' →
  s' = s ∧ ∃ head, store_head s o = Some head.
Proof.
  unfold rebx_get_param. intros H.
  apply bind_Done_inv in H as (node & s1 & E & H).
  apply rebx_get_param_node_Done in E as (head & Hhead & E).
  apply rebx_get_param_node_loop_readonly in E as ->.
  split; [| eauto].
  destruct (decide (node = 0)); [by injection H |].
  exec H. by last_step H.
Qed.

Lemma size_loop_Done todo i shape size s r s' :
  size_loop todo i shape size s = Done r s' →
  s' = s ∧
  r = foldl (λ acc extent, wrap_int (acc * extent)) size (take todo (drop i shape)).
Proof.
  revert i size. induction todo as [| todo IH]; intros i size; simpl.
  - intros [= <- <-]. done.
  - destruct (shape !! i) as [extent |] eqn:Hi; [| done].
    intros H. apply IH in H as (-> & ->).
    split; [done |].
    rewrite (drop_S _ _ _ Hi). done.
Qed.

Lemma memcpy_ints_Done dst src n s u s' :
  memcpy_ints dst src n s = Done u s' →
  dst ≠ NULL ∧ ∃ sz d, heap s !! dst = Some (CBlock sz d) ∧
    s' = written dst (CBlock sz (VInt <$> take (Z.to_nat (n / sizeof_int)) src)) s.
Proof.
  unfold memcpy_ints. intros H.
  apply bind_Done_inv in H as (c & s1 & E & H).
  apply deref_Done in E as (Hd & Hc & ->).
  split; [done |]. destruct c; try done.
  destruct (decide _); [| done]. apply put_cell_Done in H. eauto.
Qed.

Lemma unused_None s0 a : unused s0 a → a ≠ NULL → heap s0 !! a = None.
Proof. by intros [-> | H]. Qed.

Lemma unused_ne s0 a b d : unused s0 a → a ≠ NULL → heap s0 !! b = Some d → b ≠ a.
Proof. intros [-> | H] Ha Hb; congruence. Qed.

Lemma store_head_effect s o head e :
  store_head s o = Some head → heap s !! o = Some (CEffect e) →
  effect_view_ap e = enum_EFFECT → e_ap e = head.
Proof.
  unfold store_head, kind_word. destruct (decide (o = 0)); [done |].
  intros H He Hv. rewrite He in H. rewrite Hv in H.
  destruct (decide (enum_EFFECT = enum_EFFECT)); [| done]. by injection H.
Qed.

Lemma store_head_effect_other s o head e :
  store_head s o = Some head → heap s !! o = Some (CEffect e) →
  effect_view_ap e ≠ enum_EFFECT → effect_view_ap e = head.
Proof.
  unfold store_head, kind_word. destruct (decide (o = 0)); [done |].
  intros H He Hv. rewrite He in H.
  destruct (decide (effect_view_ap e = enum_EFFECT)); [done |]. by injection H.
Qed.

Lemma store_head_particle s o head p :
  store_head s o = Some head → heap s !! o = Some (CParticle p) → pt_ap p = head.
Proof.
  unfold store_head, kind_word. destruct (decide (o = 0)); [done |].
  intros H He. rewrite He in H.
  destruct (decide (pt_ap p = enum_EFFECT)); [done |]. by injection H.
Qed.

Lemma rebx_get_sim_Done o s sim s' : rebx_get_sim o s = Done sim s' → s' = s.
Proof.
  unfold rebx_get_sim. intros H.
  apply bind_Done_inv in H as (t & ? & E & H).
  apply rebx_get_object_type_Done in E as (-> & _).
  destruct t; exec H; try exec H; by last_step H.
Qed.

Lemma sprintf_Done size text s r s' :
  sprintf size text s = Done r s' → (String.length text < size)%nat ∧ r = text ∧ s' = s.
Proof.
  unfold sprintf. destruct (decide _); [| done]. intros H.
  apply mret_Done in H as (-> & ->). done.
Qed.

Lemma sprintf_eq size text s :
  (String.length text < size)%nat → sprintf size text s = Done text s.
Proof. intros H. unfold sprintf. by destruct (decide _). Qed.

Lemma string_length_app (s1 s2 : string) :
  String.length (s1 +:+ s2) = (String.length s1 + String.length s2)%nat.
Proof. induction s1 as [| c s1 IH]; simpl; [done | by rewrite IH]. Qed.

Lemma already_exists_length name :
  String.length (already_exists name) = (70 + String.length name)%nat.
Proof.
  unfold already_exists. rewrite !string_length_app. simpl. lia.
Qed.

(** What a call of [rebx_add_param_] that returns has done.  Either the
    name was there, with storage: an error is reported and nothing else
    changes.  Or a fresh node, with the hash of the name, is the head of the
    store of the object, in front of the former head, with the storage that
    is returned as its contents; every cell that existed, the object apart,
    is as before. *)
Lemma rebx_add_param__Done o name ty ndim shape s h s1 :
  rebx_add_param_ o name ty ndim shape s = Done h s1 →
  (h = NULL ∧ ∃ sim ptr,
     rebx_get_param o name s = Done ptr s ∧ ptr ≠ NULL ∧
     s1 = set_messages (messages s ++ [(sim, Error, already_exists name)]) s) ∨
  ∃ np n c head,
    store_head s o = Some head ∧
    heap s !! o = Some c ∧
    np ≠ NULL ∧ heap s !! np = None ∧ collision np = false ∧
    heap s1 !! o = Some (set_head np c) ∧
    heap s1 !! np = Some (CParam n) ∧
    p_hash n = reb_hash name ∧ p_param_type n = ty ∧ p_ndim n = ndim ∧
    p_size n = foldl (λ acc extent, wrap_int (acc * extent)) 1 (take (Z.to_nat ndim) shape) ∧
    p_contents n = h ∧ p_next n = head ∧
    (h ≠ NULL →
     heap s !! h = None ∧
     heap s1 !! h =
       Some (CBlock (bytes (to_size_t (element_size ty * to_size_t (p_size n)))) [])) ∧
    (∀ a d, heap s !! a = Some d → a ≠ o → heap s1 !! a = Some d) ∧
    same_output s s1.
Proof.
  intros H. unfold rebx_add_param_ in H.
  apply bind_Done_inv in H as (ptr & s' & E & H).
  pose proof E as Eptr.
  apply rebx_get_param_Done in E as (-> & head & Hhead).
  destruct (decide (ptr ≠ 0)) as [Hptr | _].
  { left. apply bind_Done_inv in H as (str & ? & E & H).
    apply sprintf_Done in E as (_ & -> & ->).
    apply bind_Done_inv in H as (sim & ? & E & H).
    apply rebx_get_sim_Done in E as ->.
    exec H. last_step H. eauto 10. }
  right. clear Eptr.
  apply bind_Done_inv in H as (np0 & sa & Ea & H).
  destruct (malloc_extends _ _ _ _ _ Ea (extends_refl s)) as (Hexta & Hua & Houta).
  apply bind_Done_inv in H as (np & sv & Ev & H).
  destruct (rebx_validate_ap_address_extends _ _ _ _ _ Ev Hexta Hua)
    as (Hextv & Hunp & Hcol & Houtv).
  pose proof (same_output_trans _ _ _ Houta Houtv) as Hout.
  clear Ea Ev Hexta Hua Houta Houtv sa np0.
  apply bind_Done_inv in H as (u & s2 & E & H).
  apply upd_param_Done_any in E as (Hnp & n0 & ->).
  do 2 exec H.
  exec_malloc H sh.
  { exec H. apply bind_Done_inv in H as (? & ? & E & H).
    by apply memcpy_ints_Done in E as (? & _). }
  exec H.
  apply bind_Done_inv in H as (? & ? & E & H).
  apply memcpy_ints_Done in E as (_ & sz & d & Hd & ->). tidy.
  apply bind_Done_inv in H as (size & ? & E & H).
  apply size_loop_Done in E as (-> & Hsize). rewrite drop_0 in Hsize.
  exec H.
  apply bind_Done_inv in H as (contents & sc & E & H).
  match type of E with _ ?st = _ =>
    assert (malloc (bytes (to_size_t (element_size ty * to_size_t size))) st
            = Done contents sc) as E' by (by destruct ty)
  end.
  clear E. apply malloc_Done in E' as (oc & -> & Hfc).
  destruct (decide (contents = 0)) as [-> | Hcz];
    [ rewrite allocated_null in *
    | rewrite allocated_nonnull in * by done; specialize (Hfc Hcz) ]; tidy.
  all: exec H.
  all: pose proof Hhead as Hhead'.
  all: apply store_head_Some in Hhead' as (w0 & Hw0 & Hcases).
  all: apply kind_word_Some in Hw0 as (Ho & c0 & Hc0 & Hcw0).
  all: pose proof (Hextv _ _ Hc0) as Hcv.
  all: apply bind_Done_inv in H as (t & ? & E & H).
  all: apply rebx_get_object_type_Done in E as (-> & w & Hw & ->).
  all: apply kind_word_Some in Hw as (_ & c & Hc & Hcw).
  all: tidy.
  all: apply bind_Done_inv in H as (? & ? & E & H).
  all: destruct (decide (w = enum_EFFECT)) as [-> | Hwne].
  all: try (exec E; exec E; last_step E).
  all: try (exec E; exec E; apply store_particle_ap_Done in E as (_ & ? & ? & E); tidy).
  all: exec H; last_step H.
  all: assert (heap s !! np = None) as Hnps by (by apply unused_None).
  all: eexists np, _, _, head.
  all: split_and!; try done; try reflexivity.
  all: try (by fields).
  all: try (look; simpl; try destruct (decide _); congruence).
  all: try (intros Hh; split;
            [ eapply unused_None; [eapply extends_unused |]; eassumption
            | fields; look ]; fail).
  all: try (intros Hh; fields; done).
  all: try (intros a' d' Ha' Hao'; pose proof (Hextv _ _ Ha'); look).
  all: try (destruct Hout as (? & ? & ?); split_and!; assumption).
  all: try (subst; cbn; first [ eapply store_head_effect | eapply store_head_effect_other
                               | eapply store_head_particle ]; eauto; congruence).
  all: match goal with
       | Hk : kind_word _ _ = Some _ |- _ =>
           apply kind_word_Some in Hk as (_ & ? & ? & ?); tidy
       end.
  all: subst; cbn;
    first [ eapply store_head_effect_other | eapply store_head_particle ]; eauto;
    congruence.
Qed.


(** ** Attach, then look up *)

Lemma store_head_set_head s o np c w :
  kind_word s o = Some w →
  heap s !! o = Some (set_head np c) →
  (∃ p, c = CParticle p) ∨ (∃ e, c = CEffect e) →
  np ≠ enum_EFFECT →
  store_head s o = Some np.
Proof.
  intros Hw Ho Hc Hnp. unfold store_head. rewrite Hw.
  apply kind_word_Some in Hw as (Hoz & c' & Hc' & Hw).
  rewrite Ho in Hc'. injection Hc' as <-.
  destruct Hc as [(p & ->) | (e & ->)]; simpl in *.
  - subst w. simpl. by destruct (decide (np = enum_EFFECT)).
  - rewrite Ho. revert Hw.
    destruct (decide (effect_view_ap e = enum_EFFECT)) as [He | He]; intros ->.
    + destruct (decide (effect_view_ap (set_e_ap np e) = enum_EFFECT)) as [_ | Hne]; [done |].
      f_equal. unfold effect_view_ap in *. by destruct layout.
    + assert (effect_view_ap (set_effect_view_ap np e) = np) as Hv.
      { unfold effect_view_ap, set_effect_view_ap. by destruct layout. }
      rewrite Hv. by destruct (decide (np = enum_EFFECT)).
Qed.

Lemma collision_not_tag a :
  enum_EFFECT ≤ enum_PARTICLE → collision a = false → a ≠ enum_EFFECT.
Proof. intros Hle Hc ->. apply collision_false in Hc. lia. Qed.

(** The lookup finds a node that is the head of the store. *)
Lemma rebx_get_param_head o name s a n :
  store_head s o = Some a → a ≠ NULL →
  heap s !! a = Some (CParam n) → p_hash n = reb_hash name →
  rebx_get_param_node o name s = Done a s ∧
  rebx_get_param o name s = Done (p_contents n) s.
Proof.
  intros Hhead Ha Hn Hh.
  assert (rebx_get_param_node o name s = Done a s) as Hnode.
  { rewrite (rebx_get_param_node_eq _ _ _ _ Hhead). unfold walk_bound. simpl.
    destruct (decide (a = 0)); [done |].
    rewrite (bind_Done _ _ _ _ _ (load_param_eq _ _ _ Ha Hn)).
    by destruct (decide (p_hash n = reb_hash name)). }
  split; [done |]. unfold rebx_get_param.
  rewrite (bind_Done _ _ _ _ _ Hnode).
  destruct (decide (a = 0)); [done |].
  by rewrite (bind_Done _ _ _ _ _ (load_param_eq _ _ _ Ha Hn)).
Qed.

Lemma kind_word_set_head s o np c c' :
  o ≠ NULL → heap s !! o = Some c' → c' = set_head np c →
  (∃ p, c = CParticle p) ∨ (∃ e, c = CEffect e) →
  ∃ w, kind_word s o = Some w.
Proof.
  intros Ho Hc -> Hk. unfold kind_word. destruct (decide (o = 0)); [done |].
  rewrite Hc. destruct Hk as [(p & ->) | (e & ->)]; simpl; [eauto |].
  destruct (decide _); eauto.
Qed.

(** After an attachment that returned storage, the node is the head of the
    store and the lookup of the name returns that storage. *)
Lemma rebx_add_param__then_get o name ty ndim shape s h s1 :
  enum_EFFECT ≤ enum_PARTICLE →
  rebx_add_param_ o name ty ndim shape s = Done h s1 →
  h ≠ NULL →
  ∃ np n,
    store_head s1 o = Some np ∧ np ≠ NULL ∧
    heap s1 !! np = Some (CParam n) ∧
    p_hash n = reb_hash name ∧ p_contents n = h ∧ p_param_type n = ty ∧
    p_size n = foldl (λ acc extent, wrap_int (acc * extent)) 1 (take (Z.to_nat ndim) shape) ∧
    heap s1 !! h =
      Some (CBlock (bytes (to_size_t (element_size ty * to_size_t (p_size n)))) []) ∧
    is_Some (heap s1 !! o) ∧ h ≠ o ∧ h ≠ np ∧
    rebx_get_param_node o name s1 = Done np s1 ∧
    rebx_get_param o name s1 = Done h s1.
Proof.
  intros Henum H Hh.
  apply rebx_add_param__Done in H as [(-> & _) | H]; [done |].
  destruct H as (np & n & c & head & Hhead & Hc & Hnp & Hfresh & Hcol & Ho1 & Hn1 &
                 Hhash & Hty & Hndim & Hsize & Hcont & Hnext & Hblock & Hframe & Hout).
  destruct (Hblock Hh) as (Hhfresh & Hh1).
  pose proof (collision_not_tag _ Henum Hcol) as Hnt.
  apply store_head_Some in Hhead as (w & Hw & _).
  pose proof (kind_word_Some _ _ _ Hw) as (Hoz & c' & Hc' & Hcw).
  assert (c' = c) as -> by congruence.
  assert ((∃ p, c = CParticle p) ∨ (∃ e, c = CEffect e)) as Hk.
  { destruct c; try done; eauto. }
  destruct (kind_word_set_head _ _ _ _ _ Hoz Ho1 eq_refl Hk) as (w1 & Hw1).
  pose proof (store_head_set_head _ _ _ _ _ Hw1 Ho1 Hk Hnt) as Hhead1.
  destruct (rebx_get_param_head _ _ _ _ _ Hhead1 Hnp Hn1 Hhash) as (Hnode & Hget).
  exists np, n. rewrite Hcont in Hget.
  split_and!; try done; congruence.
Qed.

Lemma store_head_same_heap s s' o : heap s' = heap s → store_head s' o = store_head s o.
Proof. intros H. unfold store_head, kind_word. by rewrite H. Qed.

(** ** Sizes *)

Lemma wrap_int_in_int z : in_int (wrap_int z).
Proof. unfold in_int, wrap_int. pose proof (Z.mod_pos_bound (z + 2 ^ 31) (2 ^ 32)). lia. Qed.

Lemma wrap_int_id z : in_int z → wrap_int z = z.
Proof. unfold in_int, wrap_int. intros H. rewrite Z.mod_small; lia. Qed.

Lemma wrap_int_mul a b : wrap_int (wrap_int a * b) = wrap_int (a * b).
Proof.
  unfold wrap_int. f_equal.
  rewrite <- (Zplus_mod_idemp_l (_ * b)).
  rewrite <- (Zplus_mod_idemp_l (a * b)).
  f_equal. f_equal.
  rewrite <- Zmult_mod_idemp_l.
  replace ((a + 2 ^ 31) mod 2 ^ 32 - 2 ^ 31) with ((a + 2 ^ 31) mod 2 ^ 32 + (- 1) * 2 ^ 31) by lia.
  rewrite <- Zplus_mod_idemp_l, Zmod_mod, Zplus_mod_idemp_l.
  replace (a + 2 ^ 31 + -1 * 2 ^ 31) with a by lia.
  by rewrite Zmult_mod_idemp_l.
Qed.

Lemma size_loop_product shape acc :
  wrap_int (foldl (λ acc extent, wrap_int (acc * extent)) acc shape) =
  wrap_int (acc * extents_product shape).
Proof.
  revert acc. induction shape as [| e shape IH]; intros acc; simpl.
  - f_equal. unfold extents_product. simpl. lia.
  - rewrite IH, wrap_int_mul. f_equal. unfold extents_product. simpl. lia.
Qed.

Lemma size_loop_in_int shape acc :
  in_int acc → in_int (foldl (λ acc extent, wrap_int (acc * extent)) acc shape).
Proof.
  revert acc. induction shape as [| e shape IH]; intros acc Hacc; simpl; [done |].
  apply IH, wrap_int_in_int.
Qed.

(** In range, the size computed in [int] is the product of the extents. *)
Lemma size_loop_exact shape :
  0 ≤ extents_product shape ≤ INT_MAX →
  foldl (λ acc extent, wrap_int (acc * extent)) 1 shape = extents_product shape.
Proof.
  intros H.
  rewrite <- (wrap_int_id (foldl _ _ _)) by (apply size_loop_in_int; unfold in_int; lia).
  rewrite size_loop_product, Z.mul_1_l. apply wrap_int_id.
  unfold in_int, INT_MAX in *. lia.
Qed.

Lemma storage_bytes_exact t n :
  0 ≤ n ≤ INT_MAX → to_size_t (element_size t * to_size_t n) = n * element_size t.
Proof.
  intros H. unfold to_size_t, INT_MAX in *.
  rewrite (Z.mod_small n) by lia.
  rewrite Z.mod_small; [lia |].
  destruct t; unfold element_size, sizeof_double, sizeof_int; lia.
Qed.

(** ** Round trip *)

Lemma store_head_written s o a c :
  a ≠ o → store_head (written a c s) o = store_head s o.
Proof.
  intros H. unfold store_head, kind_word.
  rewrite !lookup_written. by destruct (decide (a = o)).
Qed.

Lemma write_values_Done ptr vs s u s' :
  write_values ptr vs s = Done u s' →
  ptr ≠ NULL ∧ ∃ n d, heap s !! ptr = Some (CBlock (bytes n) d) ∧ values_size vs ≤ n ∧
    s' = written ptr (CBlock (bytes n) vs) s.
Proof.
  unfold write_values. intros H.
  apply bind_Done_inv in H as (c & s1 & E & H).
  apply deref_Done in E as (Hp & Hc & ->). split; [done |].
  destruct c as [[] | | | | | |]; try done.
  destruct (decide _); [| done]. apply put_cell_Done in H. eauto 10.
Qed.

Lemma read_values_eq ptr n vs s :
  ptr ≠ NULL → heap s !! ptr = Some (CBlock (bytes n) vs) →
  read_values ptr s = Done vs s.
Proof.
  intros Hp Hc. unfold read_values.
  by rewrite (bind_Done _ _ _ _ _ (deref_eq _ _ _ Hp Hc)).
Qed.

(** C8 (as amended). For every name, kind and shape whose extents have a
    product between 0 and [INT_MAX], an attachment that returns storage has
    recorded that product as the element count of the node and has
    allocated, for the contents, that count times the element size of the
    kind, in bytes; values written into the storage are the values read
    from the storage that a later lookup of the name on the object
    returns, element for element.  The shape is passed with its length as
    [ndim], and [enum_EFFECT] is at most [enum_PARTICLE]. *)
Theorem rebx_add_param__round_trip o name ty shape s h s1 :
  enum_EFFECT ≤ enum_PARTICLE →
  0 ≤ extents_product shape ≤ INT_MAX →
  rebx_add_param_ o name ty (Z.of_nat (length shape)) shape s = Done h s1 →
  h ≠ NULL →
  (∃ node n,
     rebx_get_param_node o name s1 = Done node s1 ∧
     heap s1 !! node = Some (CParam n) ∧
     p_param_type n = ty ∧ p_size n = extents_product shape ∧ p_contents n = h) ∧
  heap s1 !! h = Some (CBlock (bytes (extents_product shape * element_size ty)) []) ∧
  ∀ vs s2,
    write_values h vs s1 = Done () s2 →
    rebx_get_param o name s2 = Done h s2 ∧ read_values h s2 = Done vs s2.
Proof.
  intros Henum Hrange H Hh.
  destruct (rebx_add_param__then_get _ _ _ _ _ _ _ _ Henum H Hh)
    as (np & n & Hhead & Hnp & Hn & Hhash & Hcont & Hty & Hsize & Hblock & Ho & Hho & Hhnp &
        Hnode & Hget).
  rewrite Nat2Z.id, firstn_all, size_loop_exact in Hsize by done.
  rewrite Hsize, storage_bytes_exact in Hblock by done.
  split_and!.
  - exists np, n. done.
  - done.
  - intros vs s2 Hw.
    apply write_values_Done in Hw as (_ & m & d & Hd & _ & ->).
    split.
    + destruct (rebx_get_param_head o name (written h (CBlock (bytes m) vs) s1) np n)
        as (_ & Hg); try done.
      * by rewrite store_head_written.
      * rewrite lookup_written. by destruct (decide (h = np)).
      * by rewrite Hcont in Hg.
    + eapply read_values_eq; [done |]. rewrite lookup_written.
      by destruct (decide (h = h)).
Qed.

(** ** Kind stability *)

Lemma tagged_effect_type s e :
  tagged_effect s e → rebx_get_object_type e s = Done REBX_TYPE_EFFECT s.
Proof.
  intros (He & eff & Heff & Hv).
  rewrite (rebx_get_object_type_eq e s enum_EFFECT).
  - by destruct (decide (enum_EFFECT = enum_EFFECT)).
  - unfold kind_word. destruct (decide (e = 0)); [done |]. by rewrite Heff, Hv.
Qed.

Lemma register_tagged rebx r s e s1 :
  register rebx r s = Done e s1 →
  tagged_effect s1 e ∧
  (∀ a n, heap s1 !! a = Some (CParam n) → heap s !! a = Some (CParam n)).
Proof.
  intros H.
  assert (effect_view_ap (new_effect (reg_name r) rebx 0) = enum_EFFECT) as Hnew
    by (unfold new_effect, set_effect_view_ap, effect_view_ap; by destruct layout).
  destruct r as [name | name f v | name f]; simpl in H.
  - unfold rebx_add in H.
    apply bind_Done_inv in H as (e0 & s' & E & H).
    apply rebx_add_effect_Done in E as (x & o' & He & Hrebx & Hne & Hfresh & Hx & ->).
    exec H. last_step H. split.
    + split; [done |]. eexists. split; [look | by_layout].
    + intros ? ?. cbn [heap written set_heap set_oracle].
      rewrite !lookup_insert. repeat destruct (decide _); congruence.
  - unfold rebx_add_custom_force in H.
    apply bind_Done_inv in H as (e0 & s' & E & H).
    apply rebx_add_effect_Done in E as (x & o' & He & Hrebx & Hne & Hfresh & Hx & ->).
    do 2 exec H. apply bind_Done_inv in H as (u & s2 & E & H).
    apply mret_Done in H as (-> & ->).
    destruct (decide (v = 0)); last_step E.
    all: split;
      [ split; [done |]; eexists; split; [look | by_layout]
      | intros ? ?; cbn [heap written set_heap set_oracle];
        rewrite !lookup_insert; repeat destruct (decide _); congruence ].
  - unfold rebx_add_custom_post_timestep_modification in H.
    apply bind_Done_inv in H as (e0 & s' & E & H).
    apply rebx_add_effect_Done in E as (x & o' & He & Hrebx & Hne & Hfresh & Hx & ->).
    exec H. last_step H. split.
    + split; [done |]. eexists. split; [look | by_layout].
    + intros ? ?. cbn [heap written set_heap set_oracle].
      rewrite !lookup_insert. repeat destruct (decide _); congruence.
Qed.

Lemma rebx_remove_param_loop_keeps fuel h cur s r s' a c :
  rebx_remove_param_loop fuel h cur s = Done r s' →
  heap s !! a = Some c → (∀ n, c ≠ CParam n) →
  heap s' !! a = Some c.
Proof.
  revert cur s. induction fuel as [| fuel IH]; intros cur s; simpl; [done |].
  intros H Ha Hc. exec H.
  destruct (decide (_ = 0)); [by last_step H |].
  exec H. destruct (decide (_ = h)).
  - exec H. last_step H. rewrite lookup_written.
    destruct (decide (cur = a)) as [-> | _]; [| done].
    exfalso.
    match goal with
    | Hn : heap _ !! _ = Some (CParam ?n) |- _ => apply (Hc n); congruence
    end.
  - eauto.
Qed.

Lemma tagged_effect_kind_word s e :
  tagged_effect s e → kind_word s e = Some enum_EFFECT.
Proof.
  intros (He & eff & Heff & Hv). unfold kind_word.
  destruct (decide (e = 0)); [done |]. by rewrite Heff, Hv.
Qed.

(** With the tag in the padding, the stores to the head leave it alone. *)
Lemma run_op_keeps_tag e op s r s' :
  layout = ApPadded →
  tagged_effect s e →
  run_op e op s = Done r s' →
  tagged_effect s' e.
Proof.
  intros Hl Htag H. pose proof Htag as (He & eff & Heff & Hv).
  destruct op as [name ty ndim shape | name]; simpl in H.
  - apply rebx_add_param__Done in H as [(_ & sim & ptr & _ & _ & ->) | H]; [done |].
    destruct H as (np & n & c & head & _ & Hc & _ & _ & _ & Ho1 & _).
    assert (c = CEffect eff) as -> by congruence.
    simpl in Ho1. destruct (decide (effect_view_ap eff = enum_EFFECT)); [| done].
    split; [done |]. eexists. split; [exact Ho1 |].
    revert Hv. unfold effect_view_ap. by rewrite Hl.
  - unfold rebx_remove_param in H.
    apply bind_Done_inv in H as (t & ? & E & H).
    apply rebx_get_object_type_Done in E as (-> & w & Hw & ->).
    rewrite (tagged_effect_kind_word _ _ Htag) in Hw. injection Hw as <-.
    destruct (decide (enum_EFFECT = enum_EFFECT)); [| done].
    apply bind_Done_inv in H as (cr & s1 & E & H).
    exec E. exec E.
    destruct (decide (_ = reb_hash name)).
    + exec E. last_step E. apply mret_Done in H as (_ & ->).
      split; [done |]. eexists. split; [look |].
      revert Hv. unfold effect_view_ap. by rewrite Hl.
    + last_step E. unfold bounded in H.
      split; [done |]. exists eff. split; [| done].
      eapply rebx_remove_param_loop_keeps; [exact H | eassumption | done].
Qed.

(** With the tag in the head itself, the store of a fresh effect cannot be
    walked: its head is the tag, which is not a node. *)
Lemma run_op_shared_stuck e op s r s' :
  layout = ApShared →
  enum_EFFECT ≠ NULL →
  (∀ n, heap s !! enum_EFFECT ≠ Some (CParam n)) →
  tagged_effect s e →
  run_op e op s = Done r s' → False.
Proof.
  intros Hl Hnz Hnone Htag H. pose proof Htag as (He & eff & Heff & Hv).
  assert (e_ap eff = enum_EFFECT) as Hap
    by (revert Hv; unfold effect_view_ap; by rewrite Hl).
  assert (store_head s e = Some enum_EFFECT) as Hhead.
  { unfold store_head. rewrite (tagged_effect_kind_word _ _ Htag).
    destruct (decide (enum_EFFECT = enum_EFFECT)); [| done]. by rewrite Heff, Hap. }
  destruct op as [name ty ndim shape | name]; simpl in H.
  - unfold rebx_add_param_ in H.
    apply bind_Done_inv in H as (ptr & s1 & E & _).
    unfold rebx_get_param in E.
    apply bind_Done_inv in E as (node & s2 & E & _).
    rewrite (rebx_get_param_node_eq _ _ _ _ Hhead) in E.
    unfold walk_bound in E. simpl in E.
    destruct (decide (enum_EFFECT = 0)); [done |].
    exec E. by eapply Hnone.
  - unfold rebx_remove_param in H.
    apply bind_Done_inv in H as (t & ? & E & H).
    apply rebx_get_object_type_Done in E as (-> & w & Hw & ->).
    rewrite (tagged_effect_kind_word _ _ Htag) in Hw. injection Hw as <-.
    destruct (decide (enum_EFFECT = enum_EFFECT)); [| done].
    apply bind_Done_inv in H as (cr & s1 & E & H).
    exec E. exec E. rewrite Hap in *. by eapply Hnone.
Qed.

(** C2. An object constructed as an effect by a registration is classified
    as an effect by [rebx_get_object_type] right after the registration and
    after any sequence of attachments to and removals from its own store
    that returns.  The tag is taken to be different from [NULL] and from the
    address of every parameter node, as tags must be. *)
Theorem effect_kind_is_stable rebx r s e s1 ops s2 :
  enum_EFFECT ≠ NULL →
  (∀ n, heap s !! enum_EFFECT ≠ Some (CParam n)) →
  register rebx r s = Done e s1 →
  run_ops e ops s1 = Done () s2 →
  rebx_get_object_type e s1 = Done REBX_TYPE_EFFECT s1 ∧
  rebx_get_object_type e s2 = Done REBX_TYPE_EFFECT s2.
Proof.
  intros Hnz Hnone Hreg Hops.
  apply register_tagged in Hreg as (Htag & Hparams).
  split; [by apply tagged_effect_type |].
  apply tagged_effect_type.
  destruct layout eqn:Hl.
  - destruct ops as [| op ops]; simpl in Hops.
    + by injection Hops as <-.
    + apply bind_Done_inv in Hops as (r1 & s' & E & _). exfalso.
      eapply (run_op_shared_stuck e op s1); eauto.
      intros n Hn. eapply Hnone. eauto.
  - clear Hparams Hnone. revert s1 Htag Hops.
    induction ops as [| op ops IH]; intros s1 Htag Hops; simpl in Hops.
    + by injection Hops as <-.
    + apply bind_Done_inv in Hops as (r1 & s' & E & Hops).
      eapply IH; [| exact Hops]. eapply run_op_keeps_tag; eauto.
Qed.

(** ** The ledger *)

(** An attach stores to the new node, to its blocks and to the object;
    [rebx_add_param_to_be_freed] is not called, so the extras structure and
    the entries of its ledger keep their contents. *)
Lemma rebx_add_param__ledger_untouched o name ty ndim shape s h s1 a :
  rebx_add_param_ o name ty ndim shape s = Done h s1 →
  (∀ x, heap s !! a = Some (CExtras x) → heap s1 !! a = Some (CExtras x)) ∧
  (∀ t, heap s !! a = Some (CToBeFreed t) → heap s1 !! a = Some (CToBeFreed t)).
Proof.
  intros H.
  apply rebx_add_param__Done in H as [(_ & sim & ptr & _ & _ & ->) | H]; [done |].
  destruct H as (np & n & c & head & Hhead & Hc & _ & _ & _ & _ & _ & _ & _ & _ & _
                 & _ & _ & _ & Hframe & _).
  apply store_head_Some in Hhead as (w & Hw & _).
  apply kind_word_Some in Hw as (_ & c' & Hc' & Hkind).
  assert (c' = c) as -> by congruence.
  split; intros x Hx; apply Hframe; try done; intros ->;
    rewrite Hc in Hx; injection Hx as ->; done.
Qed.

(** ** Further properties of the stores *)

Lemma find_node_spec h a l k :
  list_seg h a l →
  find_node k l = NULL ∧ find_contents k l = NULL ∧ Forall (λ bn, p_hash bn.2 ≠ k) l ∨
  ∃ n, (find_node k l, n) ∈ l ∧ find_node k l ≠ NULL ∧
       h !! find_node k l = Some (CParam n) ∧
       p_hash n = k ∧ p_contents n = find_contents k l.
Proof.
  revert a. induction l as [| [b n] l IH]; intros a Hseg; simpl.
  - left. split_and!; [done | done | constructor].
  - destruct Hseg as (-> & Hb & Hn & Hrest).
    destruct (decide (p_hash n = k)) as [Hk | Hk].
    + right. exists n. split_and!; try done. by left.
    + destruct (IH _ Hrest) as [(H1 & H2 & H3) | (m & Hin & H1 & H2 & H3 & H4)].
      * left. split_and!; try done. by constructor.
      * right. exists m. split_and!; try done. by right.
Qed.

Lemma rebx_get_param_eq o name s a l :
  store_head s o = Some a →
  list_seg (heap s) a l →
  rebx_get_param_node o name s = Done (find_node (reb_hash name) l) s ∧
  rebx_get_param o name s = Done (find_contents (reb_hash name) l) s.
Proof.
  intros Hhead Hseg.
  assert (rebx_get_param_node o name s = Done (find_node (reb_hash name) l) s) as Hnode.
  { rewrite (rebx_get_param_node_eq _ _ _ _ Hhead).
    apply rebx_get_param_node_loop_eq; [done |].
    pose proof (list_seg_length _ _ _ Hseg). unfold walk_bound. lia. }
  split; [done |].
  unfold rebx_get_param. rewrite (bind_Done _ _ _ _ _ Hnode).
  destruct (find_node_spec _ _ _ (reb_hash name) Hseg)
    as [(H1 & H2 & _) | (n & _ & H1 & H2 & _ & H4)].
  - rewrite H1, H2. by destruct (decide (0 = 0)).
  - destruct (decide (find_node (reb_hash name) l = 0)); [done |].
    rewrite (bind_Done _ _ _ _ _ (load_param_eq _ _ _ H1 H2)). by rewrite H4.
Qed.

(** X1. A lookup walks the store of the object from its head and stops at
    the first node whose hash is the hash of the name: [rebx_get_param_node]
    returns that node and [rebx_get_param] its contents, and both return
    [NULL] when no node of the store has the hash, in particular on an
    empty store.  Neither changes the state. *)
Theorem rebx_get_param_first_match o name s a l :
  store_head s o = Some a →
  list_seg (heap s) a l →
  rebx_get_param_node o name s = Done (find_node (reb_hash name) l) s ∧
  rebx_get_param o name s = Done (find_contents (reb_hash name) l) s ∧
  (Forall (λ bn, p_hash bn.2 ≠ reb_hash name) l →
   rebx_get_param_node o name s = Done NULL s ∧ rebx_get_param o name s = Done NULL s).
Proof.
  intros Hhead Hseg.
  destruct (rebx_get_param_eq o name s a l Hhead Hseg) as (Hn & Hc).
  split_and!; try done.
  intros Hall. rewrite Hn, Hc.
  assert (find_node (reb_hash name) l = 0 ∧ find_contents (reb_hash name) l = 0) as (-> & ->);
    [| done].
  clear -Hall. induction Hall as [| [b n] l Hx Hall IH]; simpl; [done |].
  simpl in Hx. by destruct (decide (p_hash n = reb_hash name)).
Qed.

Lemma find_contents_remove_other h h' l :
  h' ≠ h → find_contents h' (remove_node h l) = find_contents h' l.
Proof.
  intros Hne. induction l as [| [b n] l IH]; [done |].
  cbn [remove_node]. destruct (decide (p_hash n = h)) as [Hn | Hn].
  - cbn [find_contents]. destruct (decide (p_hash n = h')); [congruence | done].
  - destruct l as [| [b' n'] l']; [done |].
    destruct (decide (p_hash n' = h)) as [Hn' | Hn'].
    + cbn [find_contents]. fields.
      destruct (decide (p_hash n = h')); [done |].
      destruct (decide (p_hash n' = h')); [congruence | done].
    + change (find_contents h' ((b, n) :: remove_node h ((b', n') :: l')) =
              find_contents h' ((b, n) :: (b', n') :: l')).
      cbn [find_contents] in *. destruct (decide (p_hash n = h')); [done |]. exact IH.
Qed.

Lemma find_contents_absent h l :
  Forall (λ bn, p_hash bn.2 ≠ h) l → find_contents h l = NULL ∧ find_node h l = NULL.
Proof.
  induction 1 as [| [b n] l Hx Hall IH]; simpl; [done |].
  simpl in Hx. by destruct (decide (p_hash n = h)).
Qed.

Lemma remove_node_absent h l :
  Forall (λ bn, p_hash bn.2 ≠ h) l → remove_node h l = l.
Proof.
  induction 1 as [| [b n] l Hx Hall IH]; [done |].
  simpl in Hx. cbn [remove_node]. destruct (decide (p_hash n = h)); [done |].
  destruct Hall as [| [b' n'] l' Hx' Hall']; [done |].
  simpl in Hx'. destruct (decide (p_hash n' = h)); [done |]. by rewrite IH.
Qed.

Lemma find_contents_remove_same h l :
  NoDup ((λ bn, p_hash bn.2) <$> l) → find_contents h (remove_node h l) = NULL.
Proof.
  induction l as [| [b n] l IH]; [done |].
  rewrite fmap_cons, NoDup_cons. intros (Hnotin & Hnd). simpl in Hnotin.
  cbn [remove_node]. destruct (decide (p_hash n = h)) as [Hn | Hn].
  - apply find_contents_absent. apply Forall_forall. intros [b' n'] Hin Heq.
    apply Hnotin. apply list_elem_of_fmap. exists (b', n'). simpl in *. split; [congruence | done].
  - destruct l as [| [b' n'] l'].
    + simpl. by destruct (decide (p_hash n = h)).
    + destruct (decide (p_hash n' = h)) as [Hn' | Hn'].
      * cbn [find_contents]. fields. destruct (decide (p_hash n = h)); [done |].
        apply find_contents_absent. apply Forall_forall. intros [b'' n''] Hin Heq.
        rewrite fmap_cons, NoDup_cons in Hnd. destruct Hnd as (Hnotin' & _).
        apply Hnotin'. apply list_elem_of_fmap. exists (b'', n''). simpl in *.
        split; [congruence | done].
      * change (find_contents h ((b, n) :: remove_node h ((b', n') :: l')) = 0).
        cbn [find_contents]. destruct (decide (p_hash n = h)); [done |]. by apply IH.
Qed.

Lemma find_node_absent_Forall h a l k :
  list_seg h a l → find_node k l = NULL → Forall (λ bn, p_hash bn.2 ≠ k) l.
Proof.
  intros Hseg Hnull.
  destruct (find_node_spec _ _ _ k Hseg) as [(_ & _ & H) | (n & _ & H & _)]; [done |].
  by rewrite Hnull in H.
Qed.

Lemma rebx_remove_param_loop_dom fuel h cur s r s' :
  rebx_remove_param_loop fuel h cur s = Done r s' → dom (heap s') = dom (heap s).
Proof.
  revert cur s. induction fuel as [| fuel IH]; intros cur s; simpl; [done |].
  intros H. exec H.
  destruct (decide (_ = 0)); [by last_step H |].
  exec H. destruct (decide (_ = h)).
  - exec H. last_step H. unfold written. simpl. by eapply dom_insert_lookup_L.
  - eauto.
Qed.

Lemma rebx_remove_param_dom o name s r s' :
  rebx_remove_param o name s = Done r s' → dom (heap s') = dom (heap s).
Proof.
  unfold rebx_remove_param. intros H.
  apply bind_Done_inv in H as (t & ? & E & H).
  apply rebx_get_object_type_Done in E as (-> & w & Hw & ->).
  apply bind_Done_inv in H as (cr & s1 & E & H).
  assert (dom (heap s1) = dom (heap s) ∧
          (cr.2 = false → s1 = s)) as (Hdom & Hsame).
  { destruct (decide (w = enum_EFFECT)).
    - exec E. exec E. destruct (decide (_ = reb_hash name)).
      + exec E. last_step E. split; [| done].
        unfold written. simpl. by eapply dom_insert_lookup_L.
      + by last_step E.
    - exec E. exec E. destruct (decide (_ = reb_hash name)).
      + apply bind_Done_inv in E as (? & ? & E1 & E).
        apply store_particle_ap_Done in E1 as (_ & c' & Hc' & E1).
        apply mret_Done in E as (-> & ->). split; [| done].
        destruct c'; try done; subst; unfold written; simpl;
          by eapply dom_insert_lookup_L.
      + by last_step E. }
  destruct cr as [current [|]]; simpl in *.
  - by apply mret_Done in H as (_ & ->).
  - unfold bounded in H. apply rebx_remove_param_loop_dom in H. congruence.
Qed.

Lemma store_head_cell s s' o :
  heap s' !! o = heap s !! o → store_head s' o = store_head s o.
Proof. intros H. unfold store_head, kind_word. by rewrite H. Qed.

Lemma list_seg_next_not_tag h b n l :
  enum_EFFECT ≠ NULL →
  (∀ m, h !! enum_EFFECT ≠ Some (CParam m)) →
  list_seg h b ((b, n) :: l) → p_next n ≠ enum_EFFECT.
Proof.
  intros Hnz Hnone (_ & _ & _ & Hrest) Heq.
  destruct l as [| [b1 n1] l1]; simpl in Hrest.
  - congruence.
  - destruct Hrest as (Hb1 & _ & Hn1 & _). eapply Hnone. rewrite <- Heq, Hb1. exact Hn1.
Qed.

Lemma rebx_remove_param_store o name s b n l :
  enum_EFFECT ≠ NULL →
  (∀ m, heap s !! enum_EFFECT ≠ Some (CParam m)) →
  store_head s o = Some b →
  list_seg (heap s) b ((b, n) :: l) →
  ∃ s' b',
    rebx_remove_param o name s =
      Done (if decide (find_node (reb_hash name) ((b, n) :: l) = NULL) then 0 else 1) s' ∧
    store_head s' o = Some b' ∧
    list_seg (heap s') b' (remove_node (reb_hash name) ((b, n) :: l)) ∧
    (p_hash n = reb_hash name → heap s' !! o = set_head (p_next n) <$> heap s !! o) ∧
    (∀ a, a ≠ o → a ∉ ((b, n) :: l).*1 → heap s' !! a = heap s !! a) ∧
    (find_node (reb_hash name) ((b, n) :: l) = NULL → heap s' = heap s) ∧
    same_output s s' ∧ oracle s' = oracle s.
Proof.
  intros Hnz Hnone Hhead Hseg.
  destruct (rebx_remove_param_eq o name s b n l Hhead Hseg)
    as (s' & Hrem & (c & Hc & Hc') & Hseg' & Hframe & Hout & Hor).
  exists s', (if decide (p_hash n = reb_hash name) then p_next n else b).
  pose proof Hhead as Hhead0.
  apply store_head_Some in Hhead as (w & Hw & _).
  pose proof (kind_word_Some _ _ _ Hw) as (Ho & c0 & Hc0 & Hkind).
  assert (c0 = c) as -> by congruence.
  split_and!; try done.
  - destruct (decide (p_hash n = reb_hash name)) as [Hm | Hm].
    + assert ((∃ p, c = CParticle p) ∨ (∃ e, c = CEffect e)) as Hshape
        by (destruct c; try done; eauto).
      destruct (kind_word_set_head s' o (p_next n) c _ Ho Hc' eq_refl Hshape) as (w' & Hw').
      eapply store_head_set_head; try done.
      by eapply list_seg_next_not_tag.
    + rewrite <- Hhead0. apply store_head_cell. congruence.
  - intros Hm. rewrite Hc, Hc'. simpl.
    by destruct (decide (p_hash n = reb_hash name)).
  - intros Habs.
    pose proof (find_node_absent_Forall _ _ _ _ Hseg Habs) as Hall.
    rewrite (remove_node_absent _ _ Hall) in Hseg'.
    assert (p_hash n ≠ reb_hash name) as Hm by (by inversion Hall).
    destruct (decide (p_hash n = reb_hash name)); [done |].
    apply map_eq. intros a.
    destruct (decide (a = o)) as [-> | Hao]; [congruence |].
    destruct (decide (a ∈ ((b, n) :: l).*1)) as [Hin | Hin]; [| by apply Hframe].
    apply list_elem_of_fmap in Hin as ([a' m] & -> & Hin). simpl.
    destruct (list_seg_lookup _ _ _ _ _ Hseg Hin) as (_ & ->).
    by destruct (list_seg_lookup _ _ _ _ _ Hseg' Hin) as (_ & ->).
Qed.

(** X2. On a store that holds at least one node, [rebx_remove_param]
    returns 1 when some node has the hash of the name and 0 when none has:
    it unlinks the first such node and no other, keeps the order of the
    rest, and frees nothing (the unlinked node stays allocated).  When no
    node has the hash the heap is as before.  Afterwards every other name
    is looked up as before the removal, and the removed name is no longer
    found when the hashes of the store were distinct.  The tag is taken to
    be different from [NULL] and from the address of every parameter
    node. *)
Theorem rebx_remove_param_unlinks_first o name s b n l :
  enum_EFFECT ≠ NULL →
  (∀ m, heap s !! enum_EFFECT ≠ Some (CParam m)) →
  store_head s o = Some b →
  list_seg (heap s) b ((b, n) :: l) →
  ∃ s' b',
    rebx_remove_param o name s =
      Done (if decide (find_node (reb_hash name) ((b, n) :: l) = NULL) then 0 else 1) s' ∧
    store_head s' o = Some b' ∧
    list_seg (heap s') b' (remove_node (reb_hash name) ((b, n) :: l)) ∧
    dom (heap s') = dom (heap s) ∧
    (find_node (reb_hash name) ((b, n) :: l) = NULL → heap s' = heap s) ∧
    (∀ name', reb_hash name' ≠ reb_hash name →
       rebx_get_param o name' s' =
         Done (find_contents (reb_hash name') ((b, n) :: l)) s') ∧
    (NoDup ((λ bn, p_hash bn.2) <$> (b, n) :: l) →
       rebx_get_param o name s' = Done NULL s').
Proof.
  intros Hnz Hnone Hhead Hseg.
  destruct (rebx_remove_param_store o name s b n l Hnz Hnone Hhead Hseg)
    as (s' & b' & Hrem & Hhead' & Hseg' & _ & _ & Habs & _).
  exists s', b'. split_and!; try done.
  - by eapply rebx_remove_param_dom.
  - intros name' Hne.
    destruct (rebx_get_param_eq o name' s' b' _ Hhead' Hseg') as (_ & ->).
    by rewrite find_contents_remove_other.
  - intros Hnd.
    destruct (rebx_get_param_eq o name s' b' _ Hhead' Hseg') as (_ & ->).
    by rewrite find_contents_remove_same.
Qed.

(** ** Further properties of attachments *)

Lemma rebx_add_param__linked o name ty ndim shape s h s1 a l :
  enum_EFFECT ≤ enum_PARTICLE →
  rebx_add_param_ o name ty ndim shape s = Done h s1 →
  h ≠ NULL →
  store_head s o = Some a →
  list_seg (heap s) a l →
  ∃ np n c,
    heap s !! o = Some c ∧ heap s1 !! o = Some (set_head np c) ∧
    ((∃ p, c = CParticle p) ∨ (∃ e, c = CEffect e)) ∧
    np ≠ NULL ∧ np ≠ enum_EFFECT ∧ heap s !! np = None ∧
    store_head s1 o = Some np ∧
    list_seg (heap s1) np ((np, n) :: l) ∧
    p_hash n = reb_hash name ∧ p_contents n = h ∧ p_next n = a ∧
    heap s !! h = None ∧ is_Some (heap s1 !! h) ∧
    (∀ b d, heap s !! b = Some d → b ≠ o → heap s1 !! b = Some d) ∧
    same_output s s1.
Proof.
  intros Henum H Hh Hhead0 Hseg.
  apply rebx_add_param__Done in H as [(-> & _) | H]; [done |].
  destruct H as (np & n & c & head & Hhead & Hc & Hnp & Hfresh & Hcol & Ho1 & Hn1 &
                 Hhash & Hty & Hndim & Hsize & Hcont & Hnext & Hblock & Hframe & Hout).
  destruct (Hblock Hh) as (Hhfresh & Hh1).
  assert (head = a) as -> by congruence.
  pose proof (collision_not_tag _ Henum Hcol) as Hnt.
  apply store_head_Some in Hhead as (w & Hw & _).
  pose proof (kind_word_Some _ _ _ Hw) as (Hoz & c' & Hc' & Hcw).
  assert (c' = c) as -> by congruence.
  assert ((∃ p, c = CParticle p) ∨ (∃ e, c = CEffect e)) as Hk.
  { destruct c; try done; eauto. }
  destruct (kind_word_set_head _ _ _ _ _ Hoz Ho1 eq_refl Hk) as (w1 & Hw1).
  pose proof (store_head_set_head _ _ _ _ _ Hw1 Ho1 Hk Hnt) as Hhead1.
  exists np, n, c. split_and!; try done.
  simpl. split_and!; try done. rewrite Hnext.
  eapply list_seg_frame; [exact Hseg |].
  intros b m Hin. destruct (list_seg_lookup _ _ _ _ _ Hseg Hin) as (_ & Hb).
  apply Hframe; [done |]. intros ->.
  apply (list_seg_not_object _ _ _ _ _ Hseg Hw).
  apply list_elem_of_fmap. by exists (o, m).
Qed.

(** X3. An attachment that returns storage puts the new node in front of
    the store of the object and leaves the nodes that were there in place
    and in order: every name with another hash is looked up on the object
    with the result it had before the attachment. *)
Theorem rebx_add_param__keeps_other_names o name ty ndim shape s h s1 a l :
  enum_EFFECT ≤ enum_PARTICLE →
  rebx_add_param_ o name ty ndim shape s = Done h s1 →
  h ≠ NULL →
  store_head s o = Some a →
  list_seg (heap s) a l →
  ∃ np n,
    store_head s1 o = Some np ∧
    list_seg (heap s1) np ((np, n) :: l) ∧
    p_hash n = reb_hash name ∧ p_contents n = h ∧
    ∀ name', reb_hash name' ≠ reb_hash name →
      ∃ v, rebx_get_param o name' s = Done v s ∧ rebx_get_param o name' s1 = Done v s1.
Proof.
  intros Henum H Hh Hhead Hseg.
  destruct (rebx_add_param__linked _ _ _ _ _ _ _ _ _ _ Henum H Hh Hhead Hseg)
    as (np & n & c & _ & _ & _ & _ & _ & _ & Hhead1 & Hseg1 & Hhash & Hcont & _).
  exists np, n. split_and!; try done.
  intros name' Hne. exists (find_contents (reb_hash name') l).
  destruct (rebx_get_param_eq o name' s a l Hhead Hseg) as (_ & ->).
  destruct (rebx_get_param_eq o name' s1 np _ Hhead1 Hseg1) as (_ & ->).
  split; [done |]. cbn [find_contents].
  destruct (decide (p_hash n = reb_hash name')); [congruence | done].
Qed.

(** X4. The stores of different objects are independent: an attachment to
    one object, successful or not, leaves the store of every other object
    as it was, and every lookup on the other object returns what it
    returned before. *)
Theorem rebx_add_param__other_objects o name ty ndim shape s h s1 o' a' l' :
  rebx_add_param_ o name ty ndim shape s = Done h s1 →
  o' ≠ o →
  store_head s o' = Some a' →
  list_seg (heap s) a' l' →
  store_head s1 o' = Some a' ∧
  list_seg (heap s1) a' l' ∧
  ∀ name', ∃ v,
    rebx_get_param o' name' s = Done v s ∧ rebx_get_param o' name' s1 = Done v s1.
Proof.
  intros H Hne Hhead Hseg.
  assert (store_head s1 o' = Some a' ∧ list_seg (heap s1) a' l') as (Hhead1 & Hseg1).
  { apply rebx_add_param__Done in H as [(_ & sim & ptr & _ & _ & ->) | H]; [done |].
    destruct H as (np & n & c & head & Hhead0 & Hc & _ & _ & _ & _ & _ & _ & _ & _ & _
                   & _ & _ & _ & Hframe & _).
    apply store_head_Some in Hhead0 as (w & Hw & _).
    pose proof Hhead as Hhead'.
    apply store_head_Some in Hhead' as (w' & Hw' & _).
    apply kind_word_Some in Hw' as (_ & c' & Hc' & _).
    split.
    - rewrite <- Hhead. apply store_head_cell. rewrite Hc'. by apply Hframe.
    - eapply list_seg_frame; [exact Hseg |].
      intros b m Hin. destruct (list_seg_lookup _ _ _ _ _ Hseg Hin) as (_ & Hb).
      apply Hframe; [done |]. intros ->.
      apply (list_seg_not_object _ _ _ _ _ Hseg Hw).
      apply list_elem_of_fmap. by exists (o, m). }
  split_and!; try done.
  intros name'. exists (find_contents (reb_hash name') l').
  destruct (rebx_get_param_eq o' name' s a' l' Hhead Hseg) as (_ & ->).
  by destruct (rebx_get_param_eq o' name' s1 a' l' Hhead1 Hseg1) as (_ & ->).
Qed.

Lemma set_head_set_head s o a np c :
  store_head s o = Some a →
  heap s !! o = Some c →
  np ≠ enum_EFFECT →
  set_head a (set_head np c) = c.
Proof.
  intros Hhead Hc Hnt.
  destruct c as [| | e | p | | |]; try done.
  - simpl. destruct (decide (effect_view_ap e = enum_EFFECT)) as [Hv | Hv].
    + pose proof (store_head_effect _ _ _ _ Hhead Hc Hv) as Hap.
      destruct e as [eh eap ef ep er en epad]; simpl in *; subst.
      revert Hv Hnt. unfold effect_view_ap, set_effect_view_ap.
      destruct layout; simpl; intros Hv Hnt.
      * destruct (decide (np = enum_EFFECT)); [done |]. by rewrite Hv.
      * by destruct (decide (epad = enum_EFFECT)).
    + pose proof (store_head_effect_other _ _ _ _ Hhead Hc Hv) as Hap.
      destruct e as [eh eap ef ep er en epad]; simpl in *.
      revert Hv Hap. unfold effect_view_ap, set_effect_view_ap.
      destruct layout; simpl; intros Hv Hap; subst;
        by destruct (decide (np = enum_EFFECT)).
  - simpl. pose proof (store_head_particle _ _ _ _ Hhead Hc).
    by destruct p; simpl in *; subst.
Qed.

(** X5. An attachment that returns storage, followed by the removal of the
    same name, returns 1 and puts every cell of the heap back as it was
    before the attachment, the object included, so every lookup on the
    object returns what it returned before.  The removal frees nothing: the
    node and its storage stay allocated, and nothing points to them any
    more. *)
Theorem rebx_add_param__then_remove o name ty ndim shape s h s1 a l :
  enum_EFFECT ≤ enum_PARTICLE →
  rebx_add_param_ o name ty ndim shape s = Done h s1 →
  h ≠ NULL →
  store_head s o = Some a →
  list_seg (heap s) a l →
  ∃ s2 np,
    rebx_remove_param o name s1 = Done 1 s2 ∧
    extends s s2 ∧
    store_head s2 o = Some a ∧ list_seg (heap s2) a l ∧
    (∀ name', ∃ v,
       rebx_get_param o name' s = Done v s ∧ rebx_get_param o name' s2 = Done v s2) ∧
    heap s !! np = None ∧ is_Some (heap s2 !! np) ∧
    heap s !! h = None ∧ is_Some (heap s2 !! h).
Proof.
  intros Henum H Hh Hhead Hseg.
  destruct (rebx_add_param__linked _ _ _ _ _ _ _ _ _ _ Henum H Hh Hhead Hseg)
    as (np & n & c & Hc & Hc1 & Hk & Hnp & Hnt & Hnpfresh & Hhead1 & Hseg1 & Hhash &
        Hcont & Hnext & Hhfresh & Hh1 & Hframe & _).
  destruct (rebx_remove_param_eq o name s1 np n l Hhead1 Hseg1)
    as (s2 & Hrem & (c1 & Hc1' & Hc2) & Hseg2 & Hframe2 & _ & _).
  assert (c1 = set_head np c) as -> by congruence.
  revert Hrem Hc2 Hseg2. cbn [find_node remove_node].
  destruct (decide (p_hash n = reb_hash name)); [| done].
  destruct (decide (np = 0)); [done |].
  rewrite Hnext. intros Hrem Hc2 Hseg2.
  rewrite (set_head_set_head s o a np c Hhead Hc Hnt) in Hc2.
  pose proof Hhead as Hhead'.
  apply store_head_Some in Hhead' as (w & Hw & _).
  pose proof (list_seg_not_object _ _ _ _ _ Hseg Hw) as Hnotin.
  assert (extends s s2) as Hext.
  { intros b d Hb.
    destruct (decide (b = o)) as [-> | Hbo]; [congruence |].
    destruct (decide (b ∈ l.*1)) as [Hin | Hin].
    - apply list_elem_of_fmap in Hin as ([b' m] & -> & Hin). simpl in *.
      destruct (list_seg_lookup _ _ _ _ _ Hseg Hin) as (_ & Hb1).
      destruct (list_seg_lookup _ _ _ _ _ Hseg2 Hin) as (_ & Hb2). congruence.
    - rewrite Hframe2; [by apply Hframe | done |].
      simpl. rewrite not_elem_of_cons. split; [congruence | done]. }
  assert (store_head s2 o = Some a) as Hhead2.
  { rewrite <- Hhead. apply store_head_cell. congruence. }
  assert (dom (heap s2) = dom (heap s1)) as Hdom by (by eapply rebx_remove_param_dom).
  exists s2, np. split_and!; try done.
  - intros name'. exists (find_contents (reb_hash name') l).
    destruct (rebx_get_param_eq o name' s a l Hhead Hseg) as (_ & ->).
    by destruct (rebx_get_param_eq o name' s2 a l Hhead2 Hseg2) as (_ & ->).
  - apply elem_of_dom. rewrite Hdom. apply elem_of_dom.
    destruct Hseg1 as (_ & _ & Hn1 & _). eauto.
  - apply elem_of_dom. rewrite Hdom. by apply elem_of_dom.
Qed.

(** X6. An attachment never turns a particle into an effect: the address
    of the new head has passed the validator, so the particle is still
    classified as a particle afterwards, whether the attachment succeeded
    or reported a duplicate. *)
Theorem rebx_add_param__keeps_particle o name ty ndim shape s h s1 p :
  enum_EFFECT ≤ enum_PARTICLE →
  heap s !! o = Some (CParticle p) →
  pt_ap p ≠ enum_EFFECT →
  rebx_add_param_ o name ty ndim shape s = Done h s1 →
  rebx_get_object_type o s = Done REBX_TYPE_PARTICLE s ∧
  rebx_get_object_type o s1 = Done REBX_TYPE_PARTICLE s1.
Proof.
  intros Henum Hp Hap H.
  assert (∀ s' q, o ≠ NULL → heap s' !! o = Some (CParticle q) → pt_ap q ≠ enum_EFFECT →
                  rebx_get_object_type o s' = Done REBX_TYPE_PARTICLE s') as Hty.
  { intros s' q Ho Hq Hne.
    rewrite (rebx_get_object_type_eq o s' (pt_ap q)).
    - by destruct (decide (pt_ap q = enum_EFFECT)).
    - unfold kind_word. destruct (decide (o = 0)); [done |]. by rewrite Hq. }
  apply rebx_add_param__Done in H as [(_ & sim & ptr & Hget & _ & ->) | H].
  - apply rebx_get_param_Done in Hget as (_ & head & Hhead).
    apply store_head_Some in Hhead as (w & Hw & _).
    apply kind_word_Some in Hw as (Ho & _). split; eapply Hty; eauto.
  - destruct H as (np & n & c & head & Hhead & Hc & _ & _ & Hcol & Ho1 & _).
    assert (c = CParticle p) as -> by congruence.
    apply store_head_Some in Hhead as (w & Hw & _).
    apply kind_word_Some in Hw as (Ho & _).
    split; [by eapply Hty |].
    eapply Hty; [done | exact Ho1 |]. simpl. by apply collision_not_tag.
Qed.

(** ** Further properties of the registry *)

(** X7. [rebx_init] takes a fresh extras structure from the allocator,
    links it with the simulation in both directions, stores [rebx_forces]
    and [rebx_post_timestep_modifications] in the two callback slots of the
    simulation whatever they held, and leaves the registry and the ledger
    empty.  It warns through [reb_warning], once, exactly when one of the
    two slots was already set; nothing else changes. *)
Theorem rebx_init_installs_hooks sim s rebx s0 :
  rebx_init sim s = Done rebx s0 →
  ∃ r,
    heap s !! sim = Some (CSim r) ∧
    rebx ≠ NULL ∧ heap s !! rebx = None ∧
    heap s0 !! sim =
      Some (CSim (mk_sim fn_rebx_forces fn_rebx_post_timestep_modifications
                    (force_is_velocity_dependent r) rebx)) ∧
    heap s0 !! rebx = Some (CExtras (mk_extras sim NULL NULL)) ∧
    (∀ a, a ≠ sim → a ≠ rebx → heap s0 !! a = heap s !! a) ∧
    messages s0 =
      messages s ++
      (if decide (additional_forces r ≠ fn_NULL ∨ post_timestep_modifications r ≠ fn_NULL)
       then [(sim, Warning, already_set)] else []) ∧
    stderr s0 = stderr s ∧ trace s0 = trace s.
Proof.
  unfold rebx_init. intros H.
  exec H. apply bind_Done_inv in H as (u & s1 & E & H).
  apply mret_Done in H as (-> & ->).
  unfold rebx_initialize in E.
  do 3 exec E.
  apply bind_Done_inv in E as (u1 & s2 & Ew & E).
  destruct (decide _); last_step Ew; do 3 exec E; last_step E.
  all: exists r; fields; simpl.
  all: split_and!; try done; try (by auto); try (look; fail).
  all: try (intros a Ha1 Ha2; look).
  all: destruct (decide _) as [Hd | Hd]; try done; by rewrite ?app_nil_r.
Qed.

Lemma register_cells rebx r s e s' sim l :
  registry s sim rebx l →
  register rebx r s = Done e s' →
  ∃ r0 x eff,
    e ≠ NULL ∧ heap s !! e = None ∧
    heap s !! sim = Some (CSim r0) ∧
    heap s' !! sim =
      Some (CSim (if reg_velocity_dependent r
                  then set_force_is_velocity_dependent 1 r0 else r0)) ∧
    heap s !! rebx = Some (CExtras x) ∧
    heap s' !! rebx = Some (CExtras (set_x_effects e x)) ∧
    heap s' !! e = Some (CEffect eff) ∧
    e_rebx eff = rebx ∧ effect_view_ap eff = enum_EFFECT ∧
    (layout = ApPadded → e_ap eff = NULL) ∧
    (∀ a, a ≠ sim → a ≠ rebx → a ≠ e → heap s' !! a = heap s !! a).
Proof.
  intros Hreg H.
  destruct (registry_sim _ _ _ _ Hreg) as (r0 & x & Hsim & Hrebx & Hr0 & Hext & Hx & Hxs).
  assert (sim ≠ rebx) as Hsr by (intros ->; congruence).
  assert (∀ a, heap s !! a = None → sim ≠ a) as Hfr by (intros a Ha ->; congruence).
  exists r0, x.
  destruct r as [name | name f v | name f]; simpl in H.
  - unfold rebx_add in H.
    apply bind_Done_inv in H as (e0 & s1 & E & H).
    apply rebx_add_effect_Done in E as (x' & o' & He & _ & Hne & Hfresh & Hx' & ->).
    exec H. last_step H.
    pose proof (Hfr _ Hfresh).
    eexists. split_and!; try done; try (look; fail); try by_layout.
    intros a ? ? ?. look.
  - unfold rebx_add_custom_force in H.
    apply bind_Done_inv in H as (e0 & s1 & E & H).
    apply rebx_add_effect_Done in E as (x' & o' & He & _ & Hne & Hfresh & Hx' & ->).
    do 2 exec H. apply bind_Done_inv in H as (u & s2 & E & H).
    apply mret_Done in H as (-> & ->).
    pose proof (Hfr _ Hfresh).
    destruct (decide (v = 0)) as [Hv | Hv]; last_step E.
    + cbn [reg_velocity_dependent].
      rewrite bool_decide_eq_false_2 by (intros Hn; by apply Hn).
      eexists. split_and!; try done; try (look; fail); try by_layout.
      intros a ? ? ?. look.
    + change (x_sim (set_x_effects e0 x)) with (x_sim x) in *.
      rewrite Hxs in *. tidy.
      cbn [reg_velocity_dependent]. rewrite bool_decide_eq_true_2 by done.
      eexists. split_and!; try done; try (look; fail); try by_layout.
      intros a ? ? ?. look.
  - unfold rebx_add_custom_post_timestep_modification in H.
    apply bind_Done_inv in H as (e0 & s1 & E & H).
    apply rebx_add_effect_Done in E as (x' & o' & He & _ & Hne & Hfresh & Hx' & ->).
    exec H. last_step H.
    pose proof (Hfr _ Hfresh).
    eexists. split_and!; try done; try (look; fail); try by_layout.
    intros a ? ? ?. look.
Qed.

(** X8. Registrations raise the velocity-dependence flag of the simulation
    and never clear it: after a sequence of registrations the flag is 1 when
    one of them was a custom force registered as velocity dependent, and is
    as before otherwise; the callback slots of the simulation and its link
    to the extras structure are as before. *)
Theorem register_all_velocity_flag rebx rs s s' sim l0 r :
  registry s sim rebx l0 →
  heap s !! sim = Some (CSim r) →
  register_all rebx rs s = Done () s' →
  heap s' !! sim =
    Some (CSim (if existsb reg_velocity_dependent rs
                then set_force_is_velocity_dependent 1 r else r)).
Proof.
  revert s l0 r. induction rs as [| r1 rs IH]; intros s l0 r Hreg Hr H; simpl in H.
  - apply mret_Done in H as (_ & ->). done.
  - apply bind_Done_inv in H as (e & s1 & E & H).
    destruct (register_cells _ _ _ _ _ _ _ Hreg E)
      as (r0 & x & eff & _ & _ & Hr0 & Hr1 & _).
    assert (r0 = r) as -> by congruence.
    destruct (register_Done _ _ _ _ _ _ _ Hreg E) as (eff' & Hreg1 & _).
    rewrite (IH _ _ _ Hreg1 Hr1 H). simpl.
    by destruct (reg_velocity_dependent r1), (existsb reg_velocity_dependent rs).
Qed.

(** X9. The simulation of an effect is the simulation of the extras
    structure it was registered with: [rebx_get_sim] on the effect that a
    registration has returned follows [effect->rebx->sim] to the simulation
    the extras were initialised on.  With the tag in the padding the store
    of the new effect is empty, and every lookup on it returns [NULL]. *)
Theorem rebx_get_sim_of_new_effect rebx r s e s' sim l :
  registry s sim rebx l →
  register rebx r s = Done e s' →
  rebx_get_sim e s' = Done sim s' ∧
  (layout = ApPadded → ∀ name, rebx_get_param e name s' = Done NULL s').
Proof.
  intros Hreg H.
  destruct (registry_sim _ _ _ _ Hreg) as (r0 & x & Hsim & Hrebx & Hr0 & Hext & Hx & Hxs).
  destruct (register_cells _ _ _ _ _ _ _ Hreg H)
    as (r0' & x' & eff & He & _ & _ & _ & Hx' & Hx1 & Heff & Hrx & Hview & Hap & _).
  assert (x' = x) as -> by congruence.
  assert (tagged_effect s' e) as Htag by (split; eauto).
  split.
  - unfold rebx_get_sim.
    rewrite (bind_Done _ _ _ _ _ (tagged_effect_type _ _ Htag)).
    rewrite (bind_Done _ _ _ _ _ (load_effect_eq _ _ _ He Heff)), Hrx.
    rewrite (bind_Done _ _ _ _ _ (load_extras_eq _ _ _ Hrebx Hx1)).
    by rewrite <- Hxs.
  - intros Hl name.
    assert (store_head s' e = Some NULL) as Hhead.
    { unfold store_head. rewrite (tagged_effect_kind_word _ _ Htag).
      destruct (decide (enum_EFFECT = enum_EFFECT)); [| done].
      by rewrite Heff, (Hap Hl). }
    by destruct (rebx_get_param_eq e name s' NULL [] Hhead eq_refl) as (_ & ->).
Qed.

Lemma effect_seg_lookup h a l b e :
  effect_seg h a l → (b, e) ∈ l → b ≠ NULL ∧ h !! b = Some (CEffect e).
Proof.
  revert a. induction l as [| [c m] l IH]; intros a; simpl.
  - intros _ H. by apply elem_of_nil in H.
  - intros (-> & Hc & Hm & Hl) Hin. apply elem_of_cons in Hin as [[= -> ->] | Hin]; eauto.
Qed.

Lemma effect_seg_functional h a l1 l2 :
  effect_seg h a l1 → effect_seg h a l2 → l1 = l2.
Proof.
  revert a l2. induction l1 as [| [b n] l1 IH]; intros a [| [b' n'] l2]; simpl.
  - done.
  - intros -> (<- & ? & _). done.
  - intros (<- & ? & _) ->. done.
  - intros (<- & _ & Hn & H1) (<- & _ & Hn' & H2).
    assert (n' = n) as -> by congruence. f_equal. eauto.
Qed.

Lemma effect_seg_suffix h a l b e :
  effect_seg h a l → (b, e) ∈ l →
  ∃ l1 l2, l = l1 ++ (b, e) :: l2 ∧ effect_seg h b ((b, e) :: l2).
Proof.
  revert a. induction l as [| [c m] l IH]; intros a; simpl.
  - intros _ H. by apply elem_of_nil in H.
  - intros (-> & Hc & Hm & Hl) Hin. apply elem_of_cons in Hin as [[= -> ->] | Hin].
    + exists [], l. done.
    + destruct (IH _ Hl Hin) as (l1 & l2 & -> & H2).
      exists ((c, m) :: l1), l2. done.
Qed.

Lemma effect_seg_NoDup h a l : effect_seg h a l → NoDup l.*1.
Proof.
  revert a. induction l as [| [b n] l IH]; intros a; simpl.
  - intros _. constructor.
  - intros (-> & Hb & Hn & Hl). constructor; [| eauto].
    intros Hin. apply list_elem_of_fmap in Hin as ([b' n'] & Heq & Hin).
    simpl in Heq. subst b'.
    destruct (effect_seg_suffix _ _ _ _ _ Hl Hin) as (l1 & l2 & -> & H2).
    assert (effect_seg h b ((b, n) :: l1 ++ (b, n') :: l2)) as H1 by done.
    pose proof (effect_seg_functional _ _ _ _ H1 H2) as Heq.
    apply (f_equal length) in Heq. simpl in Heq. rewrite length_app in Heq.
    simpl in Heq. lia.
Qed.

Lemma effect_seg_length h a l : effect_seg h a l → (length l ≤ size h)%nat.
Proof.
  intros H. pose proof (effect_seg_NoDup _ _ _ H) as Hnd.
  rewrite <- (length_fmap fst), <- (size_list_to_set (C := gset Z)) by done.
  rewrite <- size_dom. apply subseteq_size.
  intros b Hb. apply elem_of_list_to_set, list_elem_of_fmap in Hb as ([b' n] & -> & Hin).
  apply (effect_seg_lookup _ _ _ _ _ H) in Hin as (_ & Hin).
  by apply elem_of_dom_2 in Hin.
Qed.

Lemma effect_seg_frame_in h h' a l :
  effect_seg h a l →
  (∀ b e, (b, e) ∈ l → h' !! b = Some (CEffect e)) →
  effect_seg h' a l.
Proof.
  revert a. induction l as [| [b n] l IH]; intros a; simpl.
  - done.
  - intros (-> & Hb & Hn & Hl) Hf. split_and!; try done.
    + apply Hf. left.
    + apply IH; [done |]. intros b' n' Hin. apply Hf. by right.
Qed.

Lemma free_eq a s c :
  a ≠ NULL → heap s !! a = Some c → free a s = Done () (set_heap (delete a (heap s)) s).
Proof.
  intros Ha Hc. unfold free. destruct (decide (a = 0)); [done |]. by rewrite Hc.
Qed.

Lemma rebx_free_effects_loop_eq fuel a l s :
  effect_seg (heap s) a l →
  (length l ≤ fuel)%nat →
  ∃ s',
    rebx_free_effects_loop fuel a s = Done () s' ∧
    (∀ b, heap s' !! b = if decide (b ∈ l.*1) then None else heap s !! b) ∧
    same_output s s' ∧ oracle s' = oracle s.
Proof.
  revert fuel a s. induction l as [| [b e] l IH]; intros fuel a s Hseg Hfuel.
  - simpl in Hseg. subst a. exists s. split_and!; try done; try (by destruct fuel).
  - pose proof (effect_seg_NoDup _ _ _ Hseg) as Hnd.
    rewrite fmap_cons in Hnd. apply NoDup_cons in Hnd as (Hnotin & _). simpl in Hnotin.
    destruct Hseg as (-> & Hb & He & Hrest).
    destruct fuel as [| fuel]; [simpl in Hfuel; lia |].
    set (s1 := set_heap (delete b (heap s)) s).
    assert (effect_seg (heap s1) (e_next e) l) as Hrest1.
    { eapply effect_seg_frame_in; [exact Hrest |]. intros b' e' Hin.
      destruct (effect_seg_lookup _ _ _ _ _ Hrest Hin) as (_ & Hb').
      subst s1. simpl. rewrite lookup_delete_ne; [done |].
      intros ->. apply Hnotin. apply list_elem_of_fmap. by exists (b', e'). }
    assert (length l ≤ fuel)%nat as Hfuel' by (simpl in Hfuel; lia).
    destruct (IH fuel _ s1 Hrest1 Hfuel') as (s' & Hrun & Hheap & Hout & Hor).
    assert (same_output s s') as Hout' by exact Hout.
    exists s'. split_and!; try done.
    + simpl. destruct (decide (b = 0)); [done |].
      rewrite (bind_Done _ _ _ _ _ (load_effect_eq _ _ _ Hb He)).
      rewrite (bind_Done _ _ _ _ _ (free_eq _ _ _ Hb He)). exact Hrun.
    + intros a. rewrite Hheap. rewrite fmap_cons. simpl.
      destruct (decide (a ∈ l.*1)) as [Hin | Hin].
      * rewrite decide_True; [done |]. by right.
      * destruct (decide (a = b)) as [-> | Hab].
        -- rewrite decide_True by left. by rewrite lookup_delete_eq.
        -- rewrite decide_False; [by rewrite lookup_delete_ne |].
           rewrite not_elem_of_cons. done.
Qed.

(** X10. Teardown with an empty ledger: [rebx_free] frees every effect of
    the registry and the extras structure, and nothing else.  It does not
    detach the hooks: the simulation still names [rebx_forces] and
    [rebx_post_timestep_modifications] and still points to the freed
    extras, so a pass that runs afterwards reads freed memory. *)
Theorem rebx_free_leaves_hooks sim rebx l s :
  registry s sim rebx l →
  (∀ x, heap s !! rebx = Some (CExtras x) → x_params_to_be_freed x = NULL) →
  ∃ s',
    rebx_free rebx s = Done () s' ∧
    (∀ a, heap s' !! a = if decide (a = rebx ∨ a ∈ l.*1) then None else heap s !! a) ∧
    heap s' !! sim = heap s !! sim ∧
    ∀ fuel,
      rebx_forces fuel sim s' = Undefined (Dangling rebx) ∧
      rebx_post_timestep_modifications fuel sim s' = Undefined (Dangling rebx).
Proof.
  intros (Hsim & Hrebx & r & x & Hr & Hext & Hx & Hxs & Hseg) Hledger.
  pose proof (Hledger _ Hx) as Hnull.
  destruct (rebx_free_effects_loop_eq (walk_bound s) _ _ _ Hseg)
    as (s1 & Hrun & Hheap & _ & _).
  { pose proof (effect_seg_length _ _ _ Hseg). unfold walk_bound. lia. }
  assert (rebx ∉ l.*1) as Hnotin.
  { intros Hin. apply list_elem_of_fmap in Hin as ([b e] & -> & Hin).
    destruct (effect_seg_lookup _ _ _ _ _ Hseg Hin) as (_ & Hb). simpl in *. congruence. }
  assert (sim ∉ l.*1) as Hnotin'.
  { intros Hin. apply list_elem_of_fmap in Hin as ([b e] & -> & Hin).
    destruct (effect_seg_lookup _ _ _ _ _ Hseg Hin) as (_ & Hb). simpl in *. congruence. }
  assert (heap s1 !! rebx = Some (CExtras x)) as Hx1.
  { rewrite Hheap. by rewrite decide_False. }
  exists (set_heap (delete rebx (heap s1)) s1).
  assert (∀ a, heap (set_heap (delete rebx (heap s1)) s1) !! a =
               if decide (a = rebx ∨ a ∈ l.*1) then None else heap s !! a) as Hall.
  { intros a. simpl. destruct (decide (a = rebx)) as [-> | Ha].
    - rewrite lookup_delete_eq. rewrite decide_True; [done | by left].
    - rewrite lookup_delete_ne by done. rewrite Hheap.
      destruct (decide (a ∈ l.*1)).
      + rewrite decide_True; [done | by right].
      + rewrite decide_False; [done |]. by intros [? | ?]. }
  assert (sim ≠ rebx) as Hsr by (intros ->; congruence).
  assert (heap (set_heap (delete rebx (heap s1)) s1) !! sim = heap s !! sim) as Hsim'.
  { rewrite Hall. rewrite decide_False; [done |]. by intros [? | ?]. }
  split_and!; try done.
  - unfold rebx_free, rebx_free_params, rebx_free_effects.
    rewrite (bind_Done _ _ s () s).
    + rewrite (bind_Done _ _ s () s1).
      * by apply (free_eq _ _ _ Hrebx Hx1).
      * rewrite (bind_Done _ _ _ _ _ (load_extras_eq _ _ _ Hrebx Hx)). exact Hrun.
    + rewrite (bind_Done _ _ _ _ _ (load_extras_eq _ _ _ Hrebx Hx)).
      unfold bounded, walk_bound. rewrite Hnull. reflexivity.
  - intros fuel.
    assert (load_sim sim (set_heap (delete rebx (heap s1)) s1) =
            Done r (set_heap (delete rebx (heap s1)) s1)) as Hload.
    { apply load_sim_eq; [done |]. by rewrite Hsim'. }
    assert (heap (set_heap (delete rebx (heap s1)) s1) !! rebx = None) as Hgone.
    { rewrite Hall. rewrite decide_True; [done | by left]. }
    unfold rebx_forces, rebx_post_timestep_modifications.
    rewrite !(bind_Done _ _ _ _ _ Hload), Hext.
    split; apply bind_Undefined; unfold load_extras; apply bind_Undefined;
      unfold deref; (destruct (decide (rebx = 0)); [done |]); by rewrite Hgone.
Qed.

(** ** The ledger *)

Lemma load_to_be_freed_eq a s t :
  a ≠ NULL → heap s !! a = Some (CToBeFreed t) → load_to_be_freed a s = Done t s.
Proof.
  intros Ha Ht. unfold load_to_be_freed.
  rewrite (bind_Done _ _ _ _ _ (deref_eq _ _ _ Ha Ht)). reflexivity.
Qed.

(** X11. The ledger, used by hand: [rebx_add_param_to_be_freed] puts a
    fresh entry for the node at the head of an empty ledger, and
    [rebx_free_params] then frees the contents of the node, the node and
    the entry, and nothing else.  The shape array of the node is not freed,
    and the extras structure keeps pointing to the freed entry. *)
Theorem rebx_free_params_frees_entry rebx param s s1 ex n :
  heap s !! rebx = Some (CExtras ex) →
  x_params_to_be_freed ex = NULL →
  param ≠ NULL → heap s !! param = Some (CParam n) →
  p_contents n ≠ NULL → is_Some (heap s !! p_contents n) →
  p_contents n ≠ param → p_contents n ≠ rebx →
  rebx_add_param_to_be_freed rebx param s = Done () s1 →
  ∃ entry s2,
    entry ≠ NULL ∧ heap s !! entry = None ∧
    heap s1 !! entry = Some (CToBeFreed (mk_to_be_freed param NULL)) ∧
    heap s1 !! rebx = Some (CExtras (set_x_params_to_be_freed entry ex)) ∧
    rebx_free_params rebx s1 = Done () s2 ∧
    (∀ a, heap s2 !! a =
          if decide (a = entry ∨ a = param ∨ a = p_contents n) then None
          else heap s1 !! a) ∧
    heap s2 !! rebx = Some (CExtras (set_x_params_to_be_freed entry ex)) ∧
    (p_shape n ≠ param → p_shape n ≠ p_contents n → p_shape n ≠ rebx →
     heap s2 !! p_shape n = heap s !! p_shape n).
Proof.
  intros Hx Hnull Hpz Hn Hcz (cc & Hcc) Hcp Hcr H.
  unfold rebx_add_param_to_be_freed in H.
  exec_malloc H entry.
  { exec H. }
  do 3 exec H. last_step H.
  rewrite Hnull in *.
  match goal with
  | Hr : rebx ≠ 0 |- _ => rename Hr into Hrebx
  end.
  match goal with
  | Hx' : heap s !! rebx = Some (CExtras ?y) |- _ => rename y into xx
  end.
  assert (entry ≠ param) as Hep by (intros ->; congruence).
  assert (entry ≠ p_contents n) as Hec by (intros Heq; rewrite Heq in *; congruence).
  assert (rebx ≠ param) as Hrp by (intros ->; congruence).
  match goal with
  | |- context [rebx_free_params rebx ?st] => set (sA := st)
  end.
  assert (heap sA !! entry = Some (CToBeFreed (mk_to_be_freed param NULL))) as HA1
    by (subst sA; look).
  assert (heap sA !! rebx = Some (CExtras (set_x_params_to_be_freed entry xx))) as HA2
    by (subst sA; look).
  assert (∀ a, a ≠ entry → a ≠ rebx → heap sA !! a = heap s !! a) as HA3
    by (intros a ? ?; subst sA; look).
  exists entry, (set_heap (delete entry (delete param (delete (p_contents n) (heap sA)))) sA).
  change (heap (written rebx (CExtras (set_x_params_to_be_freed entry xx))
                  (written entry
                     (CToBeFreed (set_tbf_next 0 (set_tbf_param param to_be_freed0))) s)))
    with (heap sA).
  assert (∀ a, heap (set_heap (delete entry (delete param (delete (p_contents n) (heap sA))))
                       sA) !! a =
               if decide (a = entry ∨ a = param ∨ a = p_contents n) then None
               else heap sA !! a) as Hall.
  { intros a. simpl.
    destruct (decide (a = entry)) as [-> | ?].
    { rewrite lookup_delete_eq. rewrite decide_True; [done | by left]. }
    rewrite lookup_delete_ne by done.
    destruct (decide (a = param)) as [-> | ?].
    { rewrite lookup_delete_eq. rewrite decide_True; [done | right; by left]. }
    rewrite lookup_delete_ne by done.
    destruct (decide (a = p_contents n)) as [-> | ?].
    { rewrite lookup_delete_eq. rewrite decide_True; [done | right; by right]. }
    rewrite lookup_delete_ne by done.
    rewrite decide_False; [done |]. by intros [? | [? | ?]]. }
  split_and!; try done.
  - unfold rebx_free_params.
    rewrite (bind_Done _ _ _ _ _ (load_extras_eq _ _ _ Hrebx HA2)).
    unfold bounded, walk_bound. cbn [rebx_free_params_loop x_params_to_be_freed
                                      set_x_params_to_be_freed].
    destruct (decide (entry = 0)); [done |].
    rewrite (bind_Done _ _ _ _ _ (load_to_be_freed_eq _ _ _ H0 HA1)).
    cbn [tbf_param tbf_next].
    assert (heap sA !! param = Some (CParam n)) as HAp by (by rewrite HA3).
    assert (heap sA !! p_contents n = Some cc) as HAc by (by rewrite HA3).
    rewrite (bind_Done _ _ _ _ _ (load_param_eq _ _ _ Hpz HAp)).
    rewrite (bind_Done _ _ _ _ _ (free_eq _ _ _ Hcz HAc)).
    rewrite (bind_Done _ _ (set_heap (delete (p_contents n) (heap sA)) sA) ()
               (set_heap (delete param (delete (p_contents n) (heap sA))) sA)).
    2:{ erewrite free_eq; [done | done |]. simpl. rewrite lookup_delete_ne by done. exact HAp. }
    rewrite (bind_Done _ _ (set_heap (delete param (delete (p_contents n) (heap sA))) sA) ()
               (set_heap (delete entry (delete param (delete (p_contents n) (heap sA)))) sA)).
    2:{ erewrite free_eq; [done | done |]. simpl. rewrite !lookup_delete_ne by done. exact HA1. }
    by destruct (size (heap sA)).
  - rewrite Hall. rewrite decide_False; [done |].
    intros [? | [? | ?]]; congruence.
  - intros Hs1 Hs2 Hs3. rewrite Hall.
    destruct (decide (p_shape n = entry)) as [Heq | Hne].
    + rewrite decide_True by (by left). by rewrite Heq.
    + rewrite decide_False by (intros [? | [? | ?]]; congruence).
      by apply HA3.
Qed.

(** ** The validator and the allocator *)

(** X12. [rebx_validate_ap_address] returns no reserved value: an address
    it returns lies outside [REBX_TYPE_EFFECT..REBX_TYPE_PARTICLE].  A
    candidate outside that range is returned as it is, with the state
    untouched, and a return never writes a diagnostic. *)
Theorem rebx_validate_ap_address_result newparam s r s' :
  rebx_validate_ap_address newparam s = Done r s' →
  ¬ (enum_EFFECT ≤ r ≤ enum_PARTICLE) ∧
  (¬ (enum_EFFECT ≤ newparam ≤ enum_PARTICLE) → r = newparam ∧ s' = s) ∧
  same_output s s'.
Proof.
  intros H. split_and!.
  - apply collision_false. by eapply rebx_validate_ap_address_valid.
  - intros Hout. apply collision_false in Hout.
    rewrite (rebx_validate_ap_address_unchanged _ s Hout) in H. by injection H as <- <-.
  - eapply (rebx_validate_ap_address_extends newparam s r s' (set_heap ∅ s)); [done | |].
    + intros a c Ha. simpl in Ha. by rewrite lookup_empty in Ha.
    + right. simpl. apply lookup_empty.
Qed.

(** X13. The validator never terminates the process.  Its test [i==5]
    can only hold after the sixth attempt has been stored in [address[5]],
    which lies past the end of the array of five: an execution either returns or
    is undefined before it reaches [exit(1)]. *)
Theorem rebx_validate_ap_address_never_exits newparam s :
  match rebx_validate_ap_address newparam s with
  | Exit _ _ => False
  | _ => True
  end.
Proof.
  destruct (rebx_validate_ap_address newparam s) as [r s' | c s' | u |] eqn:E; try done.
  by apply rebx_validate_ap_address_no_exit in E.
Qed.

Lemma malloc_failed sz s o' :
  pick (heap s) (oracle s) = (NULL, o') → malloc sz s = Done NULL (set_oracle o' s).
Proof. intros H. unfold malloc. by rewrite H. Qed.

(** X14. No result of [malloc] is tested.  When the allocator fails,
    [rebx_init] and the registrations store through the null pointer, and so
    does an attachment of a name that is not in the store yet (the null
    pointer passes the validator when 0 is not a reserved value). *)
Theorem failed_malloc_is_dereferenced s o' :
  pick (heap s) (oracle s) = (NULL, o') →
  (∀ sim r, sim ≠ NULL → heap s !! sim = Some (CSim r) →
     rebx_init sim s = Undefined NullDeref) ∧
  (∀ rebx r, register rebx r s = Undefined NullDeref) ∧
  (∀ o name ty ndim shape,
     ¬ (enum_EFFECT ≤ NULL ≤ enum_PARTICLE) →
     rebx_get_param o name s = Done NULL s →
     rebx_add_param_ o name ty ndim shape s = Undefined NullDeref).
Proof.
  intros Hpick. split_and!.
  - intros sim r Hsim Hr. unfold rebx_init.
    rewrite (bind_Done _ _ _ _ _ (malloc_failed sizeof_extras _ _ Hpick)).
    apply bind_Undefined. unfold rebx_initialize.
    rewrite (bind_Done _ _ _ () (written sim (CSim (set_sim_extras NULL r)) (set_oracle o' s))).
    + by apply bind_Undefined.
    + by apply upd_sim_eq.
  - intros rebx r.
    assert (∀ name, rebx_add_effect rebx name s = Undefined NullDeref) as Hadd.
    { intros name. unfold rebx_add_effect.
      rewrite (bind_Done _ _ _ _ _ (malloc_failed sizeof_effect _ _ Hpick)).
      by apply bind_Undefined. }
    destruct r; simpl; unfold rebx_add, rebx_add_custom_force,
      rebx_add_custom_post_timestep_modification; by apply bind_Undefined.
  - intros o name ty ndim shape Hzero Hget. unfold rebx_add_param_.
    rewrite (bind_Done _ _ _ _ _ Hget).
    destruct (decide (NULL ≠ NULL)); [done |].
    rewrite (bind_Done _ _ _ _ _ (malloc_failed sizeof_param _ _ Hpick)).
    apply collision_false in Hzero.
    rewrite (bind_Done _ _ _ _ _ (rebx_validate_ap_address_unchanged _ _ Hzero)).
    by apply bind_Undefined.
Qed.

(** X15. A null result of an attachment does not always mean that nothing
    was attached.  When the name was not in the store and the attachment
    returns [NULL], the allocation of the contents has failed: a node with
    the hash of the name and no contents has been put at the head of the
    store, and no error has been reported. *)
Theorem rebx_add_param__null_contents o name ty ndim shape s s1 :
  enum_EFFECT ≤ enum_PARTICLE →
  rebx_get_param o name s = Done NULL s →
  rebx_add_param_ o name ty ndim shape s = Done NULL s1 →
  ∃ np n,
    np ≠ NULL ∧ heap s !! np = None ∧
    store_head s1 o = Some np ∧
    heap s1 !! np = Some (CParam n) ∧
    p_hash n = reb_hash name ∧ p_contents n = NULL ∧
    rebx_get_param_node o name s1 = Done np s1 ∧
    rebx_get_param o name s1 = Done NULL s1 ∧
    messages s1 = messages s.
Proof.
  intros Henum Hget H.
  apply rebx_add_param__Done in H as [(_ & sim & ptr & Hget' & Hptr & _) | H].
  { congruence. }
  destruct H as (np & n & c & head & Hhead & Hc & Hnp & Hfresh & Hcol & Ho1 & Hn1 &
                 Hhash & Hty & Hndim & Hsize & Hcont & Hnext & Hblock & Hframe & Hout).
  pose proof (collision_not_tag _ Henum Hcol) as Hnt.
  apply store_head_Some in Hhead as (w & Hw & _).
  pose proof (kind_word_Some _ _ _ Hw) as (Hoz & c' & Hc' & Hcw).
  assert (c' = c) as -> by congruence.
  assert ((∃ p, c = CParticle p) ∨ (∃ e, c = CEffect e)) as Hk.
  { destruct c; try done; eauto. }
  destruct (kind_word_set_head _ _ _ _ _ Hoz Ho1 eq_refl Hk) as (w1 & Hw1).
  pose proof (store_head_set_head _ _ _ _ _ Hw1 Ho1 Hk Hnt) as Hhead1.
  destruct (rebx_get_param_head _ _ _ _ _ Hhead1 Hnp Hn1 Hhash) as (Hnode & Hget1).
  rewrite Hcont in Hget1.
  exists np, n. split_and!; try done. by destruct Hout.
Qed.

(** X16. [rebx_add_param2d] attaches a parameter of [ncols] by [nrows]
    elements: when that product lies between 0 and [INT_MAX] and storage is
    returned, the storage holds [ncols * nrows] elements of the kind, and
    the lookup of the name returns it. *)
Theorem rebx_add_param2d_storage o name ty ncols nrows s h s1 :
  enum_EFFECT ≤ enum_PARTICLE →
  0 ≤ ncols * nrows ≤ INT_MAX →
  rebx_add_param2d o name ty ncols nrows s = Done h s1 →
  h ≠ NULL →
  heap s1 !! h = Some (CBlock (bytes (ncols * nrows * element_size ty)) []) ∧
  rebx_get_param o name s1 = Done h s1 ∧
  ∃ node n,
    rebx_get_param_node o name s1 = Done node s1 ∧
    heap s1 !! node = Some (CParam n) ∧
    p_param_type n = ty ∧ p_size n = ncols * nrows.
Proof.
  intros Henum Hprod H Hh. unfold rebx_add_param2d in H.
  destruct (rebx_add_param__then_get _ _ _ _ _ _ _ _ Henum H Hh)
    as (np & n & _ & _ & Hn & _ & _ & Hty & Hsize & Hblock & _ & _ & _ & Hnode & Hget).
  assert (extents_product [ncols; nrows] = ncols * nrows) as Hep
    by (unfold extents_product; simpl; lia).
  change (take (Z.to_nat 2) [ncols; nrows]) with [ncols; nrows] in Hsize.
  rewrite size_loop_exact in Hsize by (by rewrite Hep).
  rewrite Hep in Hsize.
  rewrite Hsize, storage_bytes_exact in Hblock by done.
  split_and!; [exact Hblock | exact Hget |].
  exists np, n. split_and!; done.
Qed.

(** ** A whole step *)

Section Steps.

(** Every callback is a tracer. *)
Hypothesis call_tracer :
  ∀ f sim effect s, f ≠ fn_NULL → call f sim effect s = append_identity effect s.

(** X18. One step on any registry: the pass of [rebx_forces] calls the
    force callbacks of the effects from the head of the registry to its
    end, the pass of [rebx_post_timestep_modifications] that follows calls
    the post-timestep callbacks in the same order, effects without the
    callback are skipped, and the two passes change nothing but the trace
    the callbacks write, so the next step walks the same registry. *)
Theorem rebx_step_walks_registry sim rebx l s fuel :
  registry s sim rebx l →
  (length l < fuel)%nat →
  (rebx_forces fuel sim;; rebx_post_timestep_modifications fuel sim) s =
    Done () (set_trace (trace s ++ dispatched e_force l ++ dispatched e_ptm l) s).
Proof.
  intros (Hsim & Hrebx & r & x & Hr & Hext & Hx & _ & Hseg) Hfuel.
  assert (rebx_forces fuel sim s =
          Done () (set_trace (trace s ++ dispatched e_force l) s)) as Hf.
  { unfold rebx_forces.
    rewrite (bind_Done _ _ _ _ _ (load_sim_eq _ _ _ Hsim Hr)), Hext.
    rewrite (bind_Done _ _ _ _ _ (load_extras_eq _ _ _ Hrebx Hx)).
    by apply rebx_forces_loop_eq. }
  rewrite (bind_Done _ _ _ _ _ Hf).
  unfold rebx_post_timestep_modifications.
  set (s1 := set_trace (trace s ++ dispatched e_force l) s).
  assert (heap s1 = heap s) as Hh by reflexivity.
  rewrite (bind_Done _ _ s1 r s1) by (apply load_sim_eq; [done | by rewrite Hh]).
  rewrite Hext.
  rewrite (bind_Done _ _ s1 x s1) by (apply load_extras_eq; [done | by rewrite Hh]).
  rewrite (rebx_post_timestep_modifications_loop_eq call_tracer fuel sim _ l s1);
    [| by rewrite Hh | done].
  subst s1. simpl. by rewrite app_assoc.
Qed.

End Steps.

(** ** Refused attachments *)

(** The lookup that an attachment starts with, and what a name that is
    found with storage leads to. *)
Lemma rebx_add_param__lookup o name ty ndim shape s h s1 :
  rebx_add_param_ o name ty ndim shape s = Done h s1 →
  ∃ ptr, rebx_get_param o name s = Done ptr s ∧ (ptr ≠ NULL → heap s1 = heap s).
Proof.
  intros H. unfold rebx_add_param_ in H.
  apply bind_Done_inv in H as (ptr & s' & E & H).
  pose proof E as Eptr.
  apply rebx_get_param_Done in E as (-> & _).
  exists ptr. split; [done |]. intros Hptr.
  destruct (decide (ptr ≠ 0)); [| done].
  apply bind_Done_inv in H as (str & ? & E & H).
  apply sprintf_Done in E as (_ & -> & ->).
  apply bind_Done_inv in H as (sim & ? & E & H).
  apply rebx_get_sim_Done in E as ->.
  exec H. by last_step H.
Qed.

(** An attachment of a name that the store holds with storage is refused. *)
Lemma rebx_add_param__refused o name ty ndim shape s a l sim :
  store_head s o = Some a →
  list_seg (heap s) a l →
  find_contents (reb_hash name) l ≠ NULL →
  (String.length name < 230)%nat →
  rebx_get_sim o s = Done sim s →
  rebx_add_param_ o name ty ndim shape s =
    Done NULL (set_messages (messages s ++ [(sim, Error, already_exists name)]) s).
Proof.
  intros Hhead Hseg Hfound Hlen Hsim.
  destruct (rebx_get_param_eq o name s a l Hhead Hseg) as (_ & Hget).
  unfold rebx_add_param_. rewrite (bind_Done _ _ _ _ _ Hget).
  destruct (decide (find_contents (reb_hash name) l ≠ 0)); [| done].
  rewrite (bind_Done _ _ s (already_exists name) s).
  - by rewrite (bind_Done _ _ _ _ _ Hsim).
  - apply sprintf_eq. rewrite already_exists_length. lia.
Qed.

(** An attachment that returns either changes no cell or puts one node
    in front of the store. *)
Lemma rebx_add_param__cases o name ty ndim shape s h s1 a l :
  enum_EFFECT ≤ enum_PARTICLE →
  rebx_add_param_ o name ty ndim shape s = Done h s1 →
  store_head s o = Some a →
  list_seg (heap s) a l →
  heap s1 = heap s ∨
  ∃ np n,
    np ≠ NULL ∧ heap s !! np = None ∧
    store_head s1 o = Some np ∧
    list_seg (heap s1) np ((np, n) :: l) ∧
    p_hash n = reb_hash name ∧ p_contents n = h ∧
    rebx_get_param o name s = Done NULL s.
Proof.
  intros Henum H Hhead0 Hseg.
  destruct (rebx_add_param__lookup _ _ _ _ _ _ _ _ H) as (ptr & Hget & Hsame).
  apply rebx_add_param__Done in H as [(_ & sim & ptr' & _ & _ & ->) | H]; [by left |].
  destruct H as (np & n & c & head & Hhead & Hc & Hnp & Hfresh & Hcol & Ho1 & Hn1 &
                 Hhash & Hty & Hndim & Hsize & Hcont & Hnext & Hblock & Hframe & Hout).
  right.
  assert (ptr = NULL) as ->.
  { destruct (decide (ptr = 0)) as [| Hptr]; [done |].
    rewrite (Hsame Hptr) in Hn1. congruence. }
  assert (head = a) as -> by congruence.
  pose proof (collision_not_tag _ Henum Hcol) as Hnt.
  apply store_head_Some in Hhead as (w & Hw & _).
  pose proof (kind_word_Some _ _ _ Hw) as (Hoz & c' & Hc' & Hcw).
  assert (c' = c) as -> by congruence.
  assert ((∃ p, c = CParticle p) ∨ (∃ e, c = CEffect e)) as Hk.
  { destruct c; try done; eauto. }
  destruct (kind_word_set_head _ _ _ _ _ Hoz Ho1 eq_refl Hk) as (w1 & Hw1).
  pose proof (store_head_set_head _ _ _ _ _ Hw1 Ho1 Hk Hnt) as Hhead1.
  exists np, n. split_and!; try done.
  simpl. split_and!; try done. rewrite Hnext.
  eapply list_seg_frame; [exact Hseg |].
  intros b m Hin. destruct (list_seg_lookup _ _ _ _ _ Hseg Hin) as (_ & Hb).
  apply Hframe; [done |]. intros ->.
  apply (list_seg_not_object _ _ _ _ _ Hseg Hw).
  apply list_elem_of_fmap. by exists (o, m).
Qed.

(** The store of [o] is a list in which the hash [k] is first met at node
    [np], whose contents are [h]. *)
Lemma rebx_add_param__keeps_found o name ty ndim shape s h' s1 a l k :
  enum_EFFECT ≤ enum_PARTICLE →
  rebx_add_param_ o name ty ndim shape s = Done h' s1 →
  store_head s o = Some a →
  list_seg (heap s) a l →
  find_contents k l ≠ NULL →
  ∃ a1 l1,
    store_head s1 o = Some a1 ∧ list_seg (heap s1) a1 l1 ∧
    find_node k l1 = find_node k l ∧ find_contents k l1 = find_contents k l.
Proof.
  intros Henum H Hhead Hseg Hfound.
  destruct (rebx_add_param__cases _ _ _ _ _ _ _ _ _ _ Henum H Hhead Hseg)
    as [Hsame | (np & n & _ & _ & Hhead1 & Hseg1 & Hhash & _ & Hget)].
  - exists a, l. split_and!; try done.
    + rewrite <- Hhead. by apply store_head_same_heap.
    + by rewrite Hsame.
  - exists np, ((np, n) :: l). split_and!; try done.
    all: destruct (rebx_get_param_eq o name s a l Hhead Hseg) as (_ & Hget').
    all: rewrite Hget' in Hget; injection Hget as Hnull.
    all: cbn [find_node find_contents].
    all: destruct (decide (p_hash n = k)) as [Hk | Hk]; [| done].
    all: exfalso; apply Hfound; congruence.
Qed.

Lemma run_ops_keeps_found o ops s s' a l k :
  enum_EFFECT ≤ enum_PARTICLE →
  forallb is_attach ops = true →
  run_ops o ops s = Done () s' →
  store_head s o = Some a →
  list_seg (heap s) a l →
  find_contents k l ≠ NULL →
  ∃ a' l',
    store_head s' o = Some a' ∧ list_seg (heap s') a' l' ∧
    find_node k l' = find_node k l ∧ find_contents k l' = find_contents k l.
Proof.
  intros Henum. revert s a l.
  induction ops as [| op ops IH]; intros s a l Hall H Hhead Hseg Hfound; simpl in H.
  - apply mret_Done in H as (_ & ->). exists a, l. split_and!; done.
  - simpl in Hall. apply andb_prop in Hall as (Hop & Hall).
    apply bind_Done_inv in H as (r & s1 & E & H).
    destruct op as [name ty ndim shape | name]; [| done]. simpl in E.
    destruct (rebx_add_param__keeps_found _ _ _ _ _ _ _ _ _ _ k Henum E Hhead Hseg Hfound)
      as (a1 & l1 & Hhead1 & Hseg1 & Hn1 & Hc1).
    destruct (IH s1 a1 l1 Hall H Hhead1 Hseg1) as (a' & l' & ? & ? & Hn' & Hc');
      [congruence |].
    exists a', l'. split_and!; try done; congruence.
Qed.

(** After an attachment that returned storage, and any further attachments
    to the object, the name is found where the first attachment put it. *)
Lemma rebx_add_param__stays_found o name ty ndim shape ops s a l h s1 s2 :
  enum_EFFECT ≤ enum_PARTICLE →
  store_head s o = Some a →
  list_seg (heap s) a l →
  rebx_add_param_ o name ty ndim shape s = Done h s1 →
  h ≠ NULL →
  forallb is_attach ops = true →
  run_ops o ops s1 = Done () s2 →
  ∃ np a2 l2,
    np ≠ NULL ∧ heap s !! np = None ∧
    rebx_get_param_node o name s1 = Done np s1 ∧
    store_head s2 o = Some a2 ∧ list_seg (heap s2) a2 l2 ∧
    find_node (reb_hash name) l2 = np ∧ find_contents (reb_hash name) l2 = h.
Proof.
  intros Henum Hhead Hseg H Hh Hall Hops.
  destruct (rebx_add_param__cases _ _ _ _ _ _ _ _ _ _ Henum H Hhead Hseg)
    as [Hsame | (np & n & Hnp & Hfresh & Hhead1 & Hseg1 & Hhash & Hcont & _)].
  { apply rebx_add_param__Done in H as [(-> & _) | H]; [done |].
    destruct H as (np & n & _ & _ & _ & _ & _ & Hfresh & _ & _ & Hn1 & _).
    rewrite Hsame in Hn1. congruence. }
  assert (find_node (reb_hash name) ((np, n) :: l) = np ∧
          find_contents (reb_hash name) ((np, n) :: l) = h) as (Hfn & Hfc).
  { cbn [find_node find_contents]. by destruct (decide (p_hash n = reb_hash name)). }
  destruct (run_ops_keeps_found o ops s1 s2 np _ (reb_hash name) Henum Hall Hops Hhead1 Hseg1)
    as (a2 & l2 & Hhead2 & Hseg2 & Hn2 & Hc2); [congruence |].
  exists np, a2, l2. split_and!; try done; try congruence.
  destruct (rebx_get_param_eq o name s1 np _ Hhead1 Hseg1) as (-> & _). by rewrite Hfn.
Qed.


(** X17. Names are compared by their hash alone.  After an attachment of
    a name has returned storage, and whatever other attachments were made
    to the object since, a second name with the same hash is the same
    parameter: its lookup returns the storage of the first, and its
    attachment is refused as a duplicate and changes nothing in the heap.
    The message is formatted into [char str[300]], which holds it for
    names of up to 229 characters. *)
Theorem rebx_add_param__hash_clash
    o name name' ty ndim shape ops ty' ndim' shape' s a l h s1 s2 sim :
  enum_EFFECT ≤ enum_PARTICLE →
  reb_hash name' = reb_hash name →
  (String.length name' < 230)%nat →
  store_head s o = Some a →
  list_seg (heap s) a l →
  rebx_add_param_ o name ty ndim shape s = Done h s1 →
  h ≠ NULL →
  forallb is_attach ops = true →
  run_ops o ops s1 = Done () s2 →
  rebx_get_sim o s2 = Done sim s2 →
  rebx_get_param o name' s2 = Done h s2 ∧
  rebx_add_param_ o name' ty' ndim' shape' s2 =
    Done NULL (set_messages (messages s2 ++ [(sim, Error, already_exists name')]) s2).
Proof.
  intros Henum Hclash Hlen Hhead Hseg H Hh Hall Hops Hsim.
  destruct (rebx_add_param__stays_found _ _ _ _ _ _ _ _ _ _ _ _
              Henum Hhead Hseg H Hh Hall Hops)
    as (np & a2 & l2 & Hnp & Hfresh & Hnode1 & Hhead2 & Hseg2 & Hfn & Hfc).
  destruct (rebx_get_param_eq o name' s2 a2 l2 Hhead2 Hseg2) as (_ & Hget).
  rewrite Hclash, Hfc in Hget.
  split; [done |].
  apply (rebx_add_param__refused o name' ty' ndim' shape' s2 a2 l2 sim); try done.
  rewrite Hclash. congruence.
Qed.

(** ** The validator with at most four reserved values *)








End Core.


(** * The development at a concrete setting

    The hash, the enumerators, the padded layout and the tracing callbacks
    of [Example], on a simulation at 100 with one particle at 200. *)

Section Scenarios.

Import Example.

Local Abbreviation rebx_add_param_ := (rebx_add_param_ hash EFFECT PARTICLE ApPadded).
Local Abbreviation rebx_add_param := (rebx_add_param hash EFFECT PARTICLE ApPadded).
Local Abbreviation rebx_get_param := (rebx_get_param hash EFFECT ApPadded).
Local Abbreviation rebx_get_param_node := (rebx_get_param_node hash EFFECT ApPadded).
Local Abbreviation rebx_remove_param := (rebx_remove_param hash EFFECT ApPadded).
Local Abbreviation rebx_get_object_type := (rebx_get_object_type EFFECT ApPadded).
Local Abbreviation rebx_get_sim := (rebx_get_sim EFFECT ApPadded).
Local Abbreviation rebx_add := (rebx_add hash EFFECT ApPadded).
Local Abbreviation register := (register hash EFFECT ApPadded).
Local Abbreviation register_all := (register_all hash EFFECT ApPadded).
Local Abbreviation run_ops := (run_ops hash EFFECT PARTICLE ApPadded).
Local Abbreviation rebx_forces := (rebx_forces tracer).
Local Abbreviation rebx_post_timestep_modifications := (rebx_post_timestep_modifications tracer).

(** ** Hooks *)

(** C9 on the simulation that [rebx_init] has just hooked. *)
Lemma rebx_remove_from_simulation_frame_witness :
  let s := state_after (rebx_init 100) initial in
  let r := mk_sim fn_rebx_forces fn_rebx_post_timestep_modifications 0 1000 in
  (100 ≠ NULL ∧ heap s !! 100 = Some (CSim r)) ∧
  ∃ s', rebx_remove_from_simulation 100 s = Done () s' ∧
    heap s' !! 100 = Some (CSim (mk_sim fn_NULL fn_NULL 0 1000)) ∧
    (∀ a, a ≠ 100 → heap s' !! a = heap s !! a) ∧
    dom (heap s') = dom (heap s) ∧
    oracle s' = oracle s ∧ messages s' = messages s ∧
    stderr s' = stderr s ∧ trace s' = trace s.
Proof.
  intros s r.
  assert (heap s !! 100 = Some (CSim r)) as Hsim by (vm_compute; reflexivity).
  split; [split; [lia | exact Hsim] |].
  apply (rebx_remove_from_simulation_frame 100 r s); [lia | exact Hsim].
Defined.

(** ** Dispatch *)

(** C1 as stated fails.  Three effects with a force are registered as E1, E2, E3; one pass
    appends E3, E2, E1 to the trace, which is not the registration order. *)
Lemma dispatch_registration_order_counterexample :
  let rs := [WithForce "E1" (fn_custom 1) 0; WithForce "E2" (fn_custom 2) 0;
             WithForce "E3" (fn_custom 3) 0] in
  result_value
    ((rebx ← rebx_init 100;
      register_all rebx rs;;
      rebx_forces 4 100;;
      observe trace) initial)
  = Some [hash "E3"; hash "E2"; hash "E1"] ∧
  [hash "E3"; hash "E2"; hash "E1"] ≠ present hash reg_force rs.
Proof.
  intros rs. split; [vm_compute; reflexivity |]. vm_compute. discriminate.
Defined.

(** C1 (as amended) on four registrations, two of them with a force and
    one with a post-timestep callback. *)
Lemma dispatch_reverse_registration_order_witness :
  let rs := [WithForce "E1" (fn_custom 1) 0; WithPtm "E2" (fn_custom 2);
             Plain "E3"; WithForce "E4" (fn_custom 4) 1] in
  let s0 := state_after (rebx_init 100) initial in
  let s1 := state_after (register_all 1000 rs) s0 in
  (rebx_init 100 initial = Done 1000 s0 ∧
   register_all 1000 rs s0 = Done () s1 ∧
   (length rs < 5)%nat) ∧
  rebx_forces 5 100 s1 =
    Done () (set_trace (trace s1 ++ reverse (present hash reg_force rs)) s1) ∧
  rebx_post_timestep_modifications 5 100 s1 =
    Done () (set_trace (trace s1 ++ reverse (present hash reg_ptm rs)) s1).
Proof.
  intros rs s0 s1.
  assert (rebx_init 100 initial = Done 1000 s0) as Hinit by (vm_compute; reflexivity).
  assert (register_all 1000 rs s0 = Done () s1) as Hreg by (vm_compute; reflexivity).
  assert (length rs < 5)%nat as Hfuel by (simpl; lia).
  split; [exact (conj Hinit (conj Hreg Hfuel)) |].
  apply (dispatch_reverse_registration_order hash EFFECT ApPadded tracer
           (λ f sim effect s _, eq_refl) 100 rs initial 1000 s0 s1 5 Hinit Hreg Hfuel).
Defined.

(** ** Registration by name *)

(** C6 as stated fails.  The name of a builtin with a velocity-dependent
    force and a name that no effect has are registered alike: no callback
    is set, the flag of the simulation keeps its value and nothing is
    reported. *)
Lemma rebx_add_builtin_counterexample :
  let outcome name :=
    result_value
      ((rebx ← rebx_init 100;
        e ← rebx_add rebx name;
        observe (λ s, (heap s !! e, heap s !! 100, messages s, stderr s))) initial) in
  let unwired name :=
    Some (Some (CEffect (mk_effect (hash name) NULL fn_NULL fn_NULL 1000 NULL EFFECT)),
          Some (CSim (mk_sim fn_rebx_forces fn_rebx_post_timestep_modifications 0 1000)),
          @nil (Z * severity * string), @nil string) in
  outcome "gr" = unwired "gr" ∧
  outcome "no_such_effect" = unwired "no_such_effect".
Proof.
  intros outcome unwired. split; vm_compute; reflexivity.
Defined.

(** C6 (as amended) on the registration of the name of a builtin. *)
Lemma rebx_add_registers_unwired_witness :
  let s := state_after (rebx_init 100) initial in
  let s' := state_after (rebx_add 1000 "gr") s in
  rebx_add 1000 "gr" s = Done 1001 s' ∧
  (∃ x eff,
     heap s !! 1000 = Some (CExtras x) ∧
     heap s' !! 1000 = Some (CExtras (set_x_effects 1001 x)) ∧
     heap s' !! 1001 = Some (CEffect eff) ∧
     e_hash eff = hash "gr" ∧ e_next eff = x_effects x ∧
     e_force eff = fn_NULL ∧ e_ptm eff = fn_NULL) ∧
  (∀ a r, heap s !! a = Some (CSim r) → heap s' !! a = Some (CSim r)) ∧
  messages s' = messages s ∧ stderr s' = stderr s.
Proof.
  intros s s'.
  assert (rebx_add 1000 "gr" s = Done 1001 s') as Hadd by (vm_compute; reflexivity).
  split; [exact Hadd |].
  apply (rebx_add_registers_unwired hash EFFECT ApPadded 1000 "gr" s 1001 s' Hadd).
Defined.

(** ** Attach, look up, remove *)


(** C8 as stated fails.  A shape of 65536 by 65536 has 2^32 elements; the count held by the
    node is 0 and so is the length of the storage. *)
Lemma rebx_add_param__overflow_counterexample :
  result_value
    ((h ← rebx_add_param_ 200 "k" REBX_TYPE_INT 2 [65536; 65536];
      node ← rebx_get_param_node 200 "k";
      n ← load_param node;
      c ← deref h;
      mret (p_size n, c)) initial)
  = Some (0, CBlock (bytes 0) []) ∧
  extents_product [65536; 65536] = 2 ^ 32 ∧
  extents_product [65536; 65536] * element_size REBX_TYPE_INT = 2 ^ 34.
Proof.
  split; [vm_compute; reflexivity |]. split; reflexivity.
Defined.

(** C8 (as amended) on a shape of 2 by 3 doubles. *)
Lemma rebx_add_param__round_trip_witness :
  let shape := [2; 3] in
  let s1 := state_after (rebx_add_param_ 200 "k" REBX_TYPE_DOUBLE 2 shape) initial in
  (EFFECT ≤ PARTICLE ∧
   0 ≤ extents_product shape ≤ INT_MAX ∧
   rebx_add_param_ 200 "k" REBX_TYPE_DOUBLE (Z.of_nat (length shape)) shape initial
     = Done 1002 s1 ∧
   1002 ≠ NULL) ∧
  (∃ node n,
     rebx_get_param_node 200 "k" s1 = Done node s1 ∧
     heap s1 !! node = Some (CParam n) ∧
     p_param_type n = REBX_TYPE_DOUBLE ∧
     p_size n = extents_product shape ∧ p_contents n = 1002) ∧
  heap s1 !! 1002 =
    Some (CBlock (bytes (extents_product shape * element_size REBX_TYPE_DOUBLE)) []) ∧
  ∀ vs s2, write_values 1002 vs s1 = Done () s2 →
    rebx_get_param 200 "k" s2 = Done 1002 s2 ∧ read_values 1002 s2 = Done vs s2.
Proof.
  intros shape s1.
  assert (EFFECT ≤ PARTICLE) as Hle by (vm_compute; discriminate).
  assert (0 ≤ extents_product shape ≤ INT_MAX) as Hprod
    by (split; vm_compute; discriminate).
  assert (rebx_add_param_ 200 "k" REBX_TYPE_DOUBLE (Z.of_nat (length shape)) shape initial
          = Done 1002 s1) as Hadd by (vm_compute; reflexivity).
  assert (1002 ≠ NULL) as Hnz by lia.
  split; [exact (conj Hle (conj Hprod (conj Hadd Hnz))) |].
  apply (rebx_add_param__round_trip hash EFFECT PARTICLE ApPadded
           200 "k" REBX_TYPE_DOUBLE shape initial 1002 s1 Hle Hprod Hadd Hnz).
Defined.

(** C10 on the particle with one parameter. *)
Lemma rebx_remove_param_needs_nonempty_store_witness :
  let s := state_after (rebx_add_param 200 "k" REBX_TYPE_DOUBLE) initial in
  let l := [(1000, mk_param (hash "k") REBX_TYPE_DOUBLE 1 1001 1 1002 NULL)] in
  (store_head EFFECT ApPadded s 200 = Some 1000 ∧ list_seg (heap s) 1000 l) ∧
  (l = [] → rebx_remove_param 200 "k" s = Undefined NullDeref) ∧
  (l ≠ [] →
   ∃ r s' s'',
     rebx_remove_param 200 "k" s = Done r s' ∧ (r = 0 ∨ r = 1) ∧
     rebx_remove_param 200 "k" (restrict ({[200]} ∪ list_to_set l.*1) s) = Done r s'').
Proof.
  intros s l.
  assert (store_head EFFECT ApPadded s 200 = Some 1000) as Hhead by (vm_compute; reflexivity).
  assert (list_seg (heap s) 1000 l) as Hseg.
  { split; [reflexivity |]. split; [lia |]. split; [vm_compute; reflexivity | reflexivity]. }
  split; [exact (conj Hhead Hseg) |].
  apply (rebx_remove_param_needs_nonempty_store hash EFFECT ApPadded
           200 "k" s 1000 l Hhead Hseg).
Defined.

(** ** Kind stability *)

(** C2 on an effect with three attachments and two removals. *)
Lemma effect_kind_is_stable_witness :
  let ops := [Attach "a" REBX_TYPE_INT 1 [2]; Attach "b" REBX_TYPE_DOUBLE 1 [1];
              Remove "a"; Attach "a" REBX_TYPE_INT 1 [1]; Remove "a"] in
  let s := state_after (rebx_init 100) initial in
  let s1 := state_after (register 1000 (Plain "e")) s in
  let s2 := state_after (run_ops 1001 ops) s1 in
  (EFFECT ≠ NULL ∧
   (∀ n, heap s !! EFFECT ≠ Some (CParam n)) ∧
   register 1000 (Plain "e") s = Done 1001 s1 ∧
   run_ops 1001 ops s1 = Done () s2) ∧
  rebx_get_object_type 1001 s1 = Done REBX_TYPE_EFFECT s1 ∧
  rebx_get_object_type 1001 s2 = Done REBX_TYPE_EFFECT s2.
Proof.
  intros ops s s1 s2.
  assert (EFFECT ≠ NULL) as Hnz by (vm_compute; discriminate).
  assert (∀ n, heap s !! EFFECT ≠ Some (CParam n)) as Hfree
    by (intros n; vm_compute; discriminate).
  assert (register 1000 (Plain "e") s = Done 1001 s1) as Hreg by (vm_compute; reflexivity).
  assert (run_ops 1001 ops s1 = Done () s2) as Hops by (vm_compute; reflexivity).
  split; [exact (conj Hnz (conj Hfree (conj Hreg Hops))) |].
  apply (effect_kind_is_stable hash EFFECT PARTICLE ApPadded
           1000 (Plain "e") s 1001 s1 ops s2 Hnz Hfree Hreg Hops).
Defined.

(** ** Defects *)

(** C3. Teardown after an attach: [rebx_add_param] returns storage for a
    parameter of the particle, the ledger of the extras structure is still
    empty, and after [rebx_free] the node, its shape and its storage are all
    still allocated, while the particle still points to the node. *)
Theorem rebx_free_leaks_attached_parameter :
  result_value
    ((rebx ← rebx_init 100;
      h ← rebx_add_param 200 "k" REBX_TYPE_DOUBLE;
      x ← load_extras rebx;
      node ← rebx_get_param_node 200 "k";
      n ← load_param node;
      rebx_free rebx;;
      observe (λ s, (x_params_to_be_freed x, heap s !! rebx,
                     heap s !! node, heap s !! p_shape n, heap s !! h,
                     heap s !! 200))) initial)
  = Some (NULL, None,
          Some (CParam (mk_param (hash "k") REBX_TYPE_DOUBLE 1 1002 1 1003 NULL)),
          Some (CBlock (bytes 4) [VInt 1]),
          Some (CBlock (bytes 8) []),
          Some (CParticle (mk_particle 1001 100))).
Proof. vm_compute. reflexivity. Qed.

(** C5. Removal from an empty store: on a particle without parameters, and
    on an effect that has just been registered, [rebx_remove_param] reads
    the hash of the node at [NULL]; it does not return 0. *)
Theorem rebx_remove_param_empty_store_crashes :
  rebx_remove_param 200 "k" initial = Undefined NullDeref ∧
  (rebx ← rebx_init 100;
   e ← rebx_add rebx "e";
   rebx_remove_param e "k") initial = Undefined NullDeref.
Proof. split; vm_compute; reflexivity. Qed.

(** ** The validator *)


(** The bound on the number of reserved values is needed.  With eight
    reserved values 5000..5007 and an allocator that hands out 5000,
    5001, ..., the candidate 5000 and five further attempts collide, and
    the sixth attempt is stored in [address[5]], past the end of the array
    of five. *)
Lemma rebx_validate_ap_address_sixth_store :
  rebx_validate_ap_address 5000 5007 5000
    (mk_state {[5000 := CBlock sizeof_param []]} (seqZ 5000 8) [] [] [])
  = Undefined (OutOfBounds 5).
Proof. vm_compute. reflexivity. Qed.

(** ** Further properties: lookups and removals *)

Local Ltac by_run := vm_compute; repeat split; first [reflexivity | discriminate].

(** X1 on the particle with two parameters, looking up the older one. *)
Lemma rebx_get_param_first_match_witness :
  let s := state_after (rebx_add_param_ 200 "a" REBX_TYPE_INT 1 [2];;
                        rebx_add_param_ 200 "b" REBX_TYPE_DOUBLE 1 [1]) initial in
  let l := store_nodes 3 (heap s) 1003 in
  (store_head EFFECT ApPadded s 200 = Some 1003 ∧ list_seg (heap s) 1003 l) ∧
  rebx_get_param_node 200 "a" s = Done (find_node (hash "a") l) s ∧
  rebx_get_param 200 "a" s = Done (find_contents (hash "a") l) s ∧
  (Forall (λ bn, p_hash bn.2 ≠ hash "a") l →
   rebx_get_param_node 200 "a" s = Done NULL s ∧ rebx_get_param 200 "a" s = Done NULL s).
Proof.
  intros s l.
  assert (store_head EFFECT ApPadded s 200 = Some 1003) as Hhead by by_run.
  assert (list_seg (heap s) 1003 l) as Hseg by by_run.
  split; [exact (conj Hhead Hseg) |].
  exact (rebx_get_param_first_match hash EFFECT ApPadded 200 "a" s 1003 l Hhead Hseg).
Defined.

(** X2 on the particle with two parameters, removing the older one, which
    is not at the head. *)
Lemma rebx_remove_param_unlinks_first_witness :
  let s := state_after (rebx_add_param_ 200 "a" REBX_TYPE_INT 1 [2];;
                        rebx_add_param_ 200 "b" REBX_TYPE_DOUBLE 1 [1]) initial in
  let n := mk_param (hash "b") REBX_TYPE_DOUBLE 1 1004 1 1005 1000 in
  let l := store_nodes 2 (heap s) 1000 in
  (EFFECT ≠ NULL ∧
   (∀ m, heap s !! EFFECT ≠ Some (CParam m)) ∧
   store_head EFFECT ApPadded s 200 = Some 1003 ∧
   list_seg (heap s) 1003 ((1003, n) :: l)) ∧
  ∃ s' b',
    rebx_remove_param 200 "a" s =
      Done (if decide (find_node (hash "a") ((1003, n) :: l) = NULL) then 0 else 1) s' ∧
    store_head EFFECT ApPadded s' 200 = Some b' ∧
    list_seg (heap s') b' (remove_node (hash "a") ((1003, n) :: l)) ∧
    dom (heap s') = dom (heap s) ∧
    (find_node (hash "a") ((1003, n) :: l) = NULL → heap s' = heap s) ∧
    (∀ name', hash name' ≠ hash "a" →
       rebx_get_param 200 name' s' =
         Done (find_contents (hash name') ((1003, n) :: l)) s') ∧
    (NoDup ((λ bn, p_hash bn.2) <$> (1003, n) :: l) →
       rebx_get_param 200 "a" s' = Done NULL s').
Proof.
  intros s n l.
  assert (EFFECT ≠ NULL) as Hnz by by_run.
  assert (∀ m, heap s !! EFFECT ≠ Some (CParam m)) as Hfree by (intros m; by_run).
  assert (store_head EFFECT ApPadded s 200 = Some 1003) as Hhead by by_run.
  assert (list_seg (heap s) 1003 ((1003, n) :: l)) as Hseg by by_run.
  split; [exact (conj Hnz (conj Hfree (conj Hhead Hseg))) |].
  exact (rebx_remove_param_unlinks_first hash EFFECT ApPadded 200 "a" s 1003 n l
           Hnz Hfree Hhead Hseg).
Defined.

(** ** Further properties: attachments *)

(** X3 on the particle that holds one parameter and gets a second. *)
Lemma rebx_add_param__keeps_other_names_witness :
  let s := state_after (rebx_add_param_ 200 "a" REBX_TYPE_INT 1 [2]) initial in
  let s1 := state_after (rebx_add_param_ 200 "b" REBX_TYPE_DOUBLE 1 [1]) s in
  let l := store_nodes 2 (heap s) 1000 in
  (EFFECT ≤ PARTICLE ∧
   rebx_add_param_ 200 "b" REBX_TYPE_DOUBLE 1 [1] s = Done 1005 s1 ∧
   1005 ≠ NULL ∧
   store_head EFFECT ApPadded s 200 = Some 1000 ∧
   list_seg (heap s) 1000 l) ∧
  ∃ np n,
    store_head EFFECT ApPadded s1 200 = Some np ∧
    list_seg (heap s1) np ((np, n) :: l) ∧
    p_hash n = hash "b" ∧ p_contents n = 1005 ∧
    ∀ name', hash name' ≠ hash "b" →
      ∃ v, rebx_get_param 200 name' s = Done v s ∧ rebx_get_param 200 name' s1 = Done v s1.
Proof.
  intros s s1 l.
  assert (EFFECT ≤ PARTICLE) as Hle by by_run.
  assert (rebx_add_param_ 200 "b" REBX_TYPE_DOUBLE 1 [1] s = Done 1005 s1) as Hadd by by_run.
  assert (1005 ≠ NULL) as Hnz by lia.
  assert (store_head EFFECT ApPadded s 200 = Some 1000) as Hhead by by_run.
  assert (list_seg (heap s) 1000 l) as Hseg by by_run.
  split; [exact (conj Hle (conj Hadd (conj Hnz (conj Hhead Hseg)))) |].
  exact (rebx_add_param__keeps_other_names hash EFFECT PARTICLE ApPadded
           200 "b" REBX_TYPE_DOUBLE 1 [1] s 1005 s1 1000 l Hle Hadd Hnz Hhead Hseg).
Defined.

(** X4 on an attachment to an effect, seen from the particle. *)
Lemma rebx_add_param__other_objects_witness :
  let s := state_after (rebx ← rebx_init 100;
                        register rebx (Plain "e");;
                        rebx_add_param_ 200 "a" REBX_TYPE_INT 1 [2]) initial in
  let s1 := state_after (rebx_add_param_ 1001 "c" REBX_TYPE_DOUBLE 1 [1]) s in
  let l' := store_nodes 2 (heap s) 1002 in
  (rebx_add_param_ 1001 "c" REBX_TYPE_DOUBLE 1 [1] s = Done 1007 s1 ∧
   200 ≠ 1001 ∧
   store_head EFFECT ApPadded s 200 = Some 1002 ∧
   list_seg (heap s) 1002 l') ∧
  store_head EFFECT ApPadded s1 200 = Some 1002 ∧
  list_seg (heap s1) 1002 l' ∧
  ∀ name', ∃ v,
    rebx_get_param 200 name' s = Done v s ∧ rebx_get_param 200 name' s1 = Done v s1.
Proof.
  intros s s1 l'.
  assert (rebx_add_param_ 1001 "c" REBX_TYPE_DOUBLE 1 [1] s = Done 1007 s1) as Hadd by by_run.
  assert (200 ≠ 1001) as Hne by lia.
  assert (store_head EFFECT ApPadded s 200 = Some 1002) as Hhead by by_run.
  assert (list_seg (heap s) 1002 l') as Hseg by by_run.
  split; [exact (conj Hadd (conj Hne (conj Hhead Hseg))) |].
  exact (rebx_add_param__other_objects hash EFFECT PARTICLE ApPadded
           1001 "c" REBX_TYPE_DOUBLE 1 [1] s 1007 s1 200 1002 l' Hadd Hne Hhead Hseg).
Defined.

(** X5 on the particle that holds one parameter: a second one is attached
    and removed again. *)
Lemma rebx_add_param__then_remove_witness :
  let s := state_after (rebx_add_param_ 200 "a" REBX_TYPE_INT 1 [2]) initial in
  let s1 := state_after (rebx_add_param_ 200 "b" REBX_TYPE_DOUBLE 1 [1]) s in
  let l := store_nodes 2 (heap s) 1000 in
  (EFFECT ≤ PARTICLE ∧
   rebx_add_param_ 200 "b" REBX_TYPE_DOUBLE 1 [1] s = Done 1005 s1 ∧
   1005 ≠ NULL ∧
   store_head EFFECT ApPadded s 200 = Some 1000 ∧
   list_seg (heap s) 1000 l) ∧
  ∃ s2 np,
    rebx_remove_param 200 "b" s1 = Done 1 s2 ∧
    extends s s2 ∧
    store_head EFFECT ApPadded s2 200 = Some 1000 ∧ list_seg (heap s2) 1000 l ∧
    (∀ name', ∃ v,
       rebx_get_param 200 name' s = Done v s ∧ rebx_get_param 200 name' s2 = Done v s2) ∧
    heap s !! np = None ∧ is_Some (heap s2 !! np) ∧
    heap s !! 1005 = None ∧ is_Some (heap s2 !! 1005).
Proof.
  intros s s1 l.
  assert (EFFECT ≤ PARTICLE) as Hle by by_run.
  assert (rebx_add_param_ 200 "b" REBX_TYPE_DOUBLE 1 [1] s = Done 1005 s1) as Hadd by by_run.
  assert (1005 ≠ NULL) as Hnz by lia.
  assert (store_head EFFECT ApPadded s 200 = Some 1000) as Hhead by by_run.
  assert (list_seg (heap s) 1000 l) as Hseg by by_run.
  split; [exact (conj Hle (conj Hadd (conj Hnz (conj Hhead Hseg)))) |].
  exact (rebx_add_param__then_remove hash EFFECT PARTICLE ApPadded
           200 "b" REBX_TYPE_DOUBLE 1 [1] s 1005 s1 1000 l Hle Hadd Hnz Hhead Hseg).
Defined.

(** X6 on the particle that holds one parameter and gets a second. *)
Lemma rebx_add_param__keeps_particle_witness :
  let s := state_after (rebx_add_param_ 200 "a" REBX_TYPE_INT 1 [2]) initial in
  let s1 := state_after (rebx_add_param_ 200 "b" REBX_TYPE_DOUBLE 1 [1]) s in
  let p := mk_particle 1000 100 in
  (EFFECT ≤ PARTICLE ∧
   heap s !! 200 = Some (CParticle p) ∧
   pt_ap p ≠ EFFECT ∧
   rebx_add_param_ 200 "b" REBX_TYPE_DOUBLE 1 [1] s = Done 1005 s1) ∧
  rebx_get_object_type 200 s = Done REBX_TYPE_PARTICLE s ∧
  rebx_get_object_type 200 s1 = Done REBX_TYPE_PARTICLE s1.
Proof.
  intros s s1 p.
  assert (EFFECT ≤ PARTICLE) as Hle by by_run.
  assert (heap s !! 200 = Some (CParticle p)) as Hp by by_run.
  assert (pt_ap p ≠ EFFECT) as Hap by by_run.
  assert (rebx_add_param_ 200 "b" REBX_TYPE_DOUBLE 1 [1] s = Done 1005 s1) as Hadd by by_run.
  split; [exact (conj Hle (conj Hp (conj Hap Hadd))) |].
  exact (rebx_add_param__keeps_particle hash EFFECT PARTICLE ApPadded
           200 "b" REBX_TYPE_DOUBLE 1 [1] s 1005 s1 p Hle Hp Hap Hadd).
Defined.

(** X15 with an allocator that fails on the third request. *)
Lemma rebx_add_param__null_contents_witness :
  let s := set_oracle [1000; 1001; NULL] initial in
  let s1 := state_after (rebx_add_param_ 200 "k" REBX_TYPE_DOUBLE 1 [1]) s in
  (EFFECT ≤ PARTICLE ∧
   rebx_get_param 200 "k" s = Done NULL s ∧
   rebx_add_param_ 200 "k" REBX_TYPE_DOUBLE 1 [1] s = Done NULL s1) ∧
  ∃ np n,
    np ≠ NULL ∧ heap s !! np = None ∧
    store_head EFFECT ApPadded s1 200 = Some np ∧
    heap s1 !! np = Some (CParam n) ∧
    p_hash n = hash "k" ∧ p_contents n = NULL ∧
    rebx_get_param_node 200 "k" s1 = Done np s1 ∧
    rebx_get_param 200 "k" s1 = Done NULL s1 ∧
    messages s1 = messages s.
Proof.
  intros s s1.
  assert (EFFECT ≤ PARTICLE) as Hle by by_run.
  assert (rebx_get_param 200 "k" s = Done NULL s) as Hget by by_run.
  assert (rebx_add_param_ 200 "k" REBX_TYPE_DOUBLE 1 [1] s = Done NULL s1) as Hadd by by_run.
  split; [exact (conj Hle (conj Hget Hadd)) |].
  exact (rebx_add_param__null_contents hash EFFECT PARTICLE ApPadded
           200 "k" REBX_TYPE_DOUBLE 1 [1] s s1 Hle Hget Hadd).
Defined.

(** X16 on a parameter of 3 by 4 integers. *)
Lemma rebx_add_param2d_storage_witness :
  let s1 := state_after
              (rebx_add_param2d hash EFFECT PARTICLE ApPadded 200 "m" REBX_TYPE_INT 3 4)
              initial in
  (EFFECT ≤ PARTICLE ∧
   0 ≤ 3 * 4 ≤ INT_MAX ∧
   rebx_add_param2d hash EFFECT PARTICLE ApPadded 200 "m" REBX_TYPE_INT 3 4 initial
     = Done 1002 s1 ∧
   1002 ≠ NULL) ∧
  heap s1 !! 1002 = Some (CBlock (bytes (3 * 4 * element_size REBX_TYPE_INT)) []) ∧
  rebx_get_param 200 "m" s1 = Done 1002 s1 ∧
  ∃ node n,
    rebx_get_param_node 200 "m" s1 = Done node s1 ∧
    heap s1 !! node = Some (CParam n) ∧
    p_param_type n = REBX_TYPE_INT ∧ p_size n = 3 * 4.
Proof.
  intros s1.
  assert (EFFECT ≤ PARTICLE) as Hle by by_run.
  assert (0 ≤ 3 * 4 ≤ INT_MAX) as Hprod by by_run.
  assert (rebx_add_param2d hash EFFECT PARTICLE ApPadded 200 "m" REBX_TYPE_INT 3 4 initial
          = Done 1002 s1) as Hadd by by_run.
  assert (1002 ≠ NULL) as Hnz by lia.
  split; [exact (conj Hle (conj Hprod (conj Hadd Hnz))) |].
  exact (rebx_add_param2d_storage hash EFFECT PARTICLE ApPadded
           200 "m" REBX_TYPE_INT 3 4 initial 1002 s1 Hle Hprod Hadd Hnz).
Defined.

(** X17 on the names 0b and Oa, which have the same hash, with another
    name attached in between. *)
Lemma rebx_add_param__hash_clash_witness :
  let ops := [Attach "x" REBX_TYPE_INT 1 [2]] in
  let s1 := state_after (rebx_add_param_ 200 "0b" REBX_TYPE_INT 1 [2]) initial in
  let s2 := state_after (run_ops 200 ops) s1 in
  (EFFECT ≤ PARTICLE ∧
   hash "Oa" = hash "0b" ∧
   (String.length "Oa" < 230)%nat ∧
   store_head EFFECT ApPadded initial 200 = Some NULL ∧
   list_seg (heap initial) NULL [] ∧
   rebx_add_param_ 200 "0b" REBX_TYPE_INT 1 [2] initial = Done 1002 s1 ∧
   1002 ≠ NULL ∧
   forallb is_attach ops = true ∧
   run_ops 200 ops s1 = Done () s2 ∧
   rebx_get_sim 200 s2 = Done 100 s2) ∧
  rebx_get_param 200 "Oa" s2 = Done 1002 s2 ∧
  rebx_add_param_ 200 "Oa" REBX_TYPE_DOUBLE 1 [1] s2 =
    Done NULL (set_messages (messages s2 ++ [(100, Error, already_exists "Oa")]) s2).
Proof.
  intros ops s1 s2.
  assert (EFFECT ≤ PARTICLE) as Hle by by_run.
  assert (hash "Oa" = hash "0b") as Hclash by by_run.
  assert (String.length "Oa" < 230)%nat as Hlen by (simpl; lia).
  assert (store_head EFFECT ApPadded initial 200 = Some NULL) as Hhead by by_run.
  assert (list_seg (heap initial) NULL []) as Hseg by reflexivity.
  assert (rebx_add_param_ 200 "0b" REBX_TYPE_INT 1 [2] initial = Done 1002 s1) as Hadd
    by by_run.
  assert (1002 ≠ NULL) as Hnz by lia.
  assert (forallb is_attach ops = true) as Hall by reflexivity.
  assert (run_ops 200 ops s1 = Done () s2) as Hops by by_run.
  assert (rebx_get_sim 200 s2 = Done 100 s2) as Hsim by by_run.
  split; [exact (conj Hle (conj Hclash (conj Hlen (conj Hhead (conj Hseg (conj Hadd
                   (conj Hnz (conj Hall (conj Hops Hsim))))))))) |].
  exact (rebx_add_param__hash_clash hash EFFECT PARTICLE ApPadded
           200 "0b" "Oa" REBX_TYPE_INT 1 [2] ops REBX_TYPE_DOUBLE 1 [1]
           initial NULL [] 1002 s1 s2 100
           Hle Hclash Hlen Hhead Hseg Hadd Hnz Hall Hops Hsim).
Defined.

(** ** Further properties: registry, teardown, allocator *)

(** X7 on a second initialisation of the same simulation, whose slots
    the first has set. *)
Lemma rebx_init_installs_hooks_witness :
  let s := state_after (rebx_init 100) initial in
  let s0 := state_after (rebx_init 100) s in
  rebx_init 100 s = Done 1001 s0 ∧
  ∃ r,
    heap s !! 100 = Some (CSim r) ∧
    1001 ≠ NULL ∧ heap s !! 1001 = None ∧
    heap s0 !! 100 =
      Some (CSim (mk_sim fn_rebx_forces fn_rebx_post_timestep_modifications
                    (force_is_velocity_dependent r) 1001)) ∧
    heap s0 !! 1001 = Some (CExtras (mk_extras 100 NULL NULL)) ∧
    (∀ a, a ≠ 100 → a ≠ 1001 → heap s0 !! a = heap s !! a) ∧
    messages s0 =
      messages s ++
      (if decide (additional_forces r ≠ fn_NULL ∨ post_timestep_modifications r ≠ fn_NULL)
       then [(100, Warning, already_set)] else []) ∧
    stderr s0 = stderr s ∧ trace s0 = trace s.
Proof.
  intros s s0.
  assert (rebx_init 100 s = Done 1001 s0) as Hinit by by_run.
  split; [exact Hinit |].
  exact (rebx_init_installs_hooks 100 s 1001 s0 Hinit).
Defined.

(** X8 on three registrations, the second of which is velocity
    dependent. *)
Lemma register_all_velocity_flag_witness :
  let rs := [WithPtm "p" (fn_custom 1); WithForce "f" (fn_custom 2) 1;
             WithForce "g" (fn_custom 3) 0] in
  let s := state_after (rebx_init 100) initial in
  let s' := state_after (register_all 1000 rs) s in
  let r := mk_sim fn_rebx_forces fn_rebx_post_timestep_modifications 0 1000 in
  (registry s 100 1000 [] ∧
   heap s !! 100 = Some (CSim r) ∧
   register_all 1000 rs s = Done () s') ∧
  heap s' !! 100 =
    Some (CSim (if existsb reg_velocity_dependent rs
                then set_force_is_velocity_dependent 1 r else r)).
Proof.
  intros rs s s' r.
  assert (registry s 100 1000 []) as Hreg.
  { split; [lia |]. split; [lia |].
    exists r, (mk_extras 100 NULL NULL). by_run. }
  assert (heap s !! 100 = Some (CSim r)) as Hr by by_run.
  assert (register_all 1000 rs s = Done () s') as Hall by by_run.
  split; [exact (conj Hreg (conj Hr Hall)) |].
  exact (register_all_velocity_flag hash EFFECT ApPadded 1000 rs s s' 100 [] r Hreg Hr Hall).
Defined.

(** X9 on the first registration after the initialisation. *)
Lemma rebx_get_sim_of_new_effect_witness :
  let s := state_after (rebx_init 100) initial in
  let s' := state_after (register 1000 (WithForce "f" (fn_custom 2) 1)) s in
  (registry s 100 1000 [] ∧
   register 1000 (WithForce "f" (fn_custom 2) 1) s = Done 1001 s') ∧
  rebx_get_sim 1001 s' = Done 100 s' ∧
  (ApPadded = ApPadded → ∀ name, rebx_get_param 1001 name s' = Done NULL s').
Proof.
  intros s s'.
  assert (registry s 100 1000 []) as Hreg.
  { split; [lia |]. split; [lia |].
    exists (mk_sim fn_rebx_forces fn_rebx_post_timestep_modifications 0 1000),
           (mk_extras 100 NULL NULL). by_run. }
  assert (register 1000 (WithForce "f" (fn_custom 2) 1) s = Done 1001 s') as Hadd by by_run.
  split; [exact (conj Hreg Hadd) |].
  exact (rebx_get_sim_of_new_effect hash EFFECT ApPadded 1000 (WithForce "f" (fn_custom 2) 1)
           s 1001 s' 100 [] Hreg Hadd).
Defined.

(** X10 on a registry of three effects. *)
Lemma rebx_free_leaves_hooks_witness :
  let s := state_after
             (rebx ← rebx_init 100;
              register_all rebx [WithPtm "p" (fn_custom 1); WithForce "f" (fn_custom 2) 1;
                                 WithForce "g" (fn_custom 3) 0]) initial in
  let l := registry_nodes 4 (heap s) 1003 in
  (registry s 100 1000 l ∧
   (∀ x, heap s !! 1000 = Some (CExtras x) → x_params_to_be_freed x = NULL)) ∧
  ∃ s',
    rebx_free 1000 s = Done () s' ∧
    (∀ a, heap s' !! a = if decide (a = 1000 ∨ a ∈ l.*1) then None else heap s !! a) ∧
    heap s' !! 100 = heap s !! 100 ∧
    ∀ fuel,
      rebx_forces fuel 100 s' = Undefined (Dangling 1000) ∧
      rebx_post_timestep_modifications fuel 100 s' = Undefined (Dangling 1000).
Proof.
  intros s l.
  assert (registry s 100 1000 l) as Hreg.
  { split; [lia |]. split; [lia |].
    exists (mk_sim fn_rebx_forces fn_rebx_post_timestep_modifications 1 1000),
           (mk_extras 100 1003 NULL). by_run. }
  assert (∀ x, heap s !! 1000 = Some (CExtras x) → x_params_to_be_freed x = NULL) as Hledger.
  { intros x Hx. vm_compute in Hx. injection Hx as <-. reflexivity. }
  split; [exact (conj Hreg Hledger) |].
  exact (rebx_free_leaves_hooks tracer 100 1000 l s Hreg Hledger).
Defined.

(** X11 on the node of a parameter of the particle. *)
Lemma rebx_free_params_frees_entry_witness :
  let s := state_after (rebx_init 100;;
                        rebx_add_param_ 200 "a" REBX_TYPE_INT 1 [2]) initial in
  let s1 := state_after (rebx_add_param_to_be_freed 1000 1001) s in
  let ex := mk_extras 100 NULL NULL in
  let n := mk_param (hash "a") REBX_TYPE_INT 1 1002 2 1003 NULL in
  (heap s !! 1000 = Some (CExtras ex) ∧
   x_params_to_be_freed ex = NULL ∧
   1001 ≠ NULL ∧ heap s !! 1001 = Some (CParam n) ∧
   p_contents n ≠ NULL ∧ is_Some (heap s !! p_contents n) ∧
   p_contents n ≠ 1001 ∧ p_contents n ≠ 1000 ∧
   rebx_add_param_to_be_freed 1000 1001 s = Done () s1) ∧
  ∃ entry s2,
    entry ≠ NULL ∧ heap s !! entry = None ∧
    heap s1 !! entry = Some (CToBeFreed (mk_to_be_freed 1001 NULL)) ∧
    heap s1 !! 1000 = Some (CExtras (set_x_params_to_be_freed entry ex)) ∧
    rebx_free_params 1000 s1 = Done () s2 ∧
    (∀ a, heap s2 !! a =
          if decide (a = entry ∨ a = 1001 ∨ a = p_contents n) then None
          else heap s1 !! a) ∧
    heap s2 !! 1000 = Some (CExtras (set_x_params_to_be_freed entry ex)) ∧
    (p_shape n ≠ 1001 → p_shape n ≠ p_contents n → p_shape n ≠ 1000 →
     heap s2 !! p_shape n = heap s !! p_shape n).
Proof.
  intros s s1 ex n.
  assert (heap s !! 1000 = Some (CExtras ex)) as Hx by by_run.
  assert (x_params_to_be_freed ex = NULL) as Hnull by reflexivity.
  assert (1001 ≠ NULL) as Hpz by lia.
  assert (heap s !! 1001 = Some (CParam n)) as Hn by by_run.
  assert (p_contents n ≠ NULL) as Hcz by (simpl; lia).
  assert (is_Some (heap s !! p_contents n)) as Hc by (eexists; vm_compute; reflexivity).
  assert (p_contents n ≠ 1001) as Hcp by (simpl; lia).
  assert (p_contents n ≠ 1000) as Hcr by (simpl; lia).
  assert (rebx_add_param_to_be_freed 1000 1001 s = Done () s1) as Hadd by by_run.
  split; [exact (conj Hx (conj Hnull (conj Hpz (conj Hn (conj Hcz (conj Hc
                   (conj Hcp (conj Hcr Hadd)))))))) |].
  exact (rebx_free_params_frees_entry 1000 1001 s s1 ex n
           Hx Hnull Hpz Hn Hcz Hc Hcp Hcr Hadd).
Defined.

(** X12 with the reserved values 5000 and 5001: the candidate and two
    further attempts collide, the third attempt is returned. *)
Lemma rebx_validate_ap_address_result_witness :
  let s := mk_state {[5000 := CBlock sizeof_param []]} [5000; 5001; 6000] [] [] [] in
  let s' := state_after (rebx_validate_ap_address 5000 5001 5000) s in
  rebx_validate_ap_address 5000 5001 5000 s = Done 6000 s' ∧
  ¬ (5000 ≤ 6000 ≤ 5001) ∧
  (¬ (5000 ≤ 5000 ≤ 5001) → 6000 = 5000 ∧ s' = s) ∧
  same_output s s'.
Proof.
  intros s s'.
  assert (rebx_validate_ap_address 5000 5001 5000 s = Done 6000 s') as Hval by by_run.
  split; [exact Hval |].
  exact (rebx_validate_ap_address_result 5000 5001 5000 s 6000 s' Hval).
Defined.

(** X14 with an allocator that has nothing left to hand out. *)
Lemma failed_malloc_is_dereferenced_witness :
  let s := set_oracle [] initial in
  pick (heap s) (oracle s) = (NULL, []) ∧
  (∀ sim r, sim ≠ NULL → heap s !! sim = Some (CSim r) →
     rebx_init sim s = Undefined NullDeref) ∧
  (∀ rebx r, register rebx r s = Undefined NullDeref) ∧
  (∀ o name ty ndim shape,
     ¬ (EFFECT ≤ NULL ≤ PARTICLE) →
     rebx_get_param o name s = Done NULL s →
     rebx_add_param_ o name ty ndim shape s = Undefined NullDeref).
Proof.
  intros s.
  assert (pick (heap s) (oracle s) = (NULL, [])) as Hpick by reflexivity.
  split; [exact Hpick |].
  exact (failed_malloc_is_dereferenced hash EFFECT PARTICLE ApPadded s [] Hpick).
Defined.

(** X18 on a registry of three effects. *)
Lemma rebx_step_walks_registry_witness :
  let s := state_after
             (rebx ← rebx_init 100;
              register_all rebx [WithPtm "p" (fn_custom 1); WithForce "f" (fn_custom 2) 1;
                                 WithForce "g" (fn_custom 3) 0]) initial in
  let l := registry_nodes 4 (heap s) 1003 in
  (registry s 100 1000 l ∧ (length l < 4)%nat) ∧
  (rebx_forces 4 100;; rebx_post_timestep_modifications 4 100) s =
    Done () (set_trace (trace s ++ dispatched e_force l ++ dispatched e_ptm l) s).
Proof.
  intros s l.
  assert (registry s 100 1000 l) as Hreg.
  { split; [lia |]. split; [lia |].
    exists (mk_sim fn_rebx_forces fn_rebx_post_timestep_modifications 1 1000),
           (mk_extras 100 1003 NULL). by_run. }
  assert (length l < 4)%nat as Hfuel by (vm_compute; lia).
  split; [exact (conj Hreg Hfuel) |].
  exact (rebx_step_walks_registry tracer (λ f sim effect s _, eq_refl) 100 1000 l s 4
           Hreg Hfuel).
Defined.

End Scenarios.
